(** * Hybrid retrieval engine: BM25 sparse index, filter evaluator,
      reciprocal rank fusion and the hybrid orchestrator.

    A shallow embedding of [src/sparse.py] and [src/retriever.py], and of
    the code around them: [src/filter_extractor.py], [src/embeddings.py],
    [src/reranker.py], the upsert loop of [src/indexer.py] and the metrics
    of [evals/run_evals.py].

    Conventions of the embedding.
    - Python [int] is [Z].  A Python [float] is the rational number [Q] it
      denotes, and comparisons are the rational ones.  The arithmetic of
      [reciprocal_rank_fusion], whose rounding decides the order of the
      fused list, is IEEE 754 binary64: every operation returns the exact
      result rounded to the nearest binary64 number, ties to even.  The
      scores that come from outside (BM25 weights, vector distances) are
      taken as exact.
    - Python [str] is [string]; a character is read as a code point in
      U+0000..U+00FF.
    - A Python [dict] whose iteration order is observable is an association
      list kept in insertion order.
    - An exception is the [Raise] outcome of the result type [res]; the
      code around the retriever, which raises further classes, uses
      [outcome] and [Raises].
    - A call to a service (vector store, embedding endpoint, rerank
      endpoint) is a parameter whose answer may depend on the calls made
      before; the calls are recorded in a log that is threaded through. *)

From Stdlib Require Import String Ascii List ZArith QArith Bool Lia Arith.
From Stdlib Require Import Qround Qabs Qpower Permutation Sorted SpecFloat.
Import ListNotations.

Set Warnings "-register-all".

Local Open Scope string_scope.
Local Open Scope list_scope.
Local Open Scope Z_scope.

(* ================================================================== *)
(** * Python runtime: exceptions, slices, sorting, dictionaries       *)
(* ================================================================== *)

Module Py.

(** The exception classes the modelled code can let escape. [PortError]
    stands for whatever [Exception] the vector store client raises. *)
Inductive exn : Type :=
| TypeError
| AttributeError
| ZeroDivisionError
| OverflowError
| PortError (msg : string).

Inductive res (A : Type) : Type :=
| Ok (a : A)
| Raise (e : exn).
Arguments Ok {A} a.
Arguments Raise {A} e.

Definition bind {A B : Type} (m : res A) (f : A -> res B) : res B :=
  match m with
  | Ok a => f a
  | Raise e => Raise e
  end.

(** [l[:n]]: a non-negative bound keeps the first [n] items, a negative
    one drops the last [-n]. *)
Definition slice_to {A : Type} (l : list A) (n : Z) : list A :=
  if 0 <=? n then firstn (Z.to_nat n) l
  else firstn (length l - Z.to_nat (- n)) l.

(** [enumerate(l, start)] *)
Fixpoint enumerate {A : Type} (start : Z) (l : list A) : list (Z * A) :=
  match l with
  | [] => []
  | x :: l' => (start, x) :: enumerate (start + 1) l'
  end.

(** [a < b] on floats. *)
Definition Qltb (a b : Q) : bool :=
  match Qcompare a b with
  | Lt => true
  | _ => false
  end.

(** Floats.  A finite binary64 number is [m * 2^e] with [|m| < 2^53] and
    [-1074 <= e]; [pow2 e] is [2^e]. *)
Definition pow2 (e : Z) : Q := (2 ^ e)%Q.

(** The binade of a positive [x]: [2^(mag x - 1) <= x < 2^(mag x)]. *)
Definition mag (x : Q) : Z :=
  let c := Z.log2 (Qnum x) - Z.log2 (Zpos (Qden x)) in
  if Qle_bool (pow2 c) x then c + 1 else c.

(** The integer nearest to [y], the even one of two that are equally
    near. *)
Definition round_half_even (y : Q) : Z :=
  let f := Qfloor y in
  match (y - inject_Z f ?= 1 # 2)%Q with
  | Lt => f
  | Eq => if Z.even f then f else f + 1
  | Gt => f + 1
  end.

(** The binary64 number nearest to [x >= 0]: 53 significant bits, or
    fewer below [2^-1022], where the spacing stays [2^-1074]. *)
Definition round_magnitude (x : Q) : Q :=
  let e := Z.max (mag x - 53) (-1074) in
  (inject_Z (round_half_even (x / pow2 e)) * pow2 e)%Q.

(** Round to nearest, ties to even: the magnitude is rounded, the sign
    kept.  A result of [2^1024] or more, which Python turns into an
    infinity, is not cut off here; the sums of the fusion stay far
    below. *)
Definition round_float (x : Q) : Q :=
  match (x ?= 0)%Q with
  | Lt => (- round_magnitude (- x))%Q
  | _ => round_magnitude x
  end.

(** [a + b] and [a / b] on floats, for [b] other than zero. *)
Definition float_add (a b : Q) : Q := round_float (a + b).
Definition float_div (a b : Q) : Q := round_float (a / b).

(** The conversion of an [int] operand to a float: the nearest binary64
    number; Python raises when that would be [2^1024] or more. *)
Definition float_of_int (n : Z) : res Q :=
  let x := round_float (inject_Z n) in
  if Qle_bool (pow2 1024) (Qabs x) then Raise OverflowError else Ok x.

(** [sorted(l, key=key, reverse=True)].  Python's sort is stable, also
    under [reverse=True], and only ever asks [<] of two keys.  An item
    coming earlier in [l] is put in front of every later item whose key is
    not strictly greater. *)
Section Sorted.
Context {A : Type} (key : A -> Q).

Fixpoint insert_desc (x : A) (l : list A) : list A :=
  match l with
  | [] => [x]
  | y :: l' =>
      if Qltb (key x) (key y) then y :: insert_desc x l'
      else x :: y :: l'
  end.

Definition sorted_desc (l : list A) : list A :=
  fold_right insert_desc [] l.
End Sorted.

(** Insertion-ordered dictionary with [str] keys. *)
Definition dict (V : Type) : Type := list (string * V).

Fixpoint dict_get {V : Type} (k : string) (d : dict V) : option V :=
  match d with
  | [] => None
  | (k', v) :: d' => if String.eqb k k' then Some v else dict_get k d'
  end.

Definition dict_mem {V : Type} (k : string) (d : dict V) : bool :=
  match dict_get k d with
  | Some _ => true
  | None => false
  end.

(** [d[k] = v]: overwrite in place, or append a new key at the end. *)
Fixpoint dict_set {V : Type} (k : string) (v : V) (d : dict V) : dict V :=
  match d with
  | [] => [(k, v)]
  | (k', v') :: d' =>
      if String.eqb k k' then (k, v) :: d'
      else (k', v') :: dict_set k v d'
  end.

Definition dict_keys {V : Type} (d : dict V) : list string := map fst d.

(** [found(d[k]) if k in d else missing] *)
Definition dict_case {V R : Type} (k : string) (found : V -> R)
    (missing : R) : list (string * V) -> R :=
  fix scan (d : list (string * V)) : R :=
    match d with
    | [] => missing
    | (k', v) :: d' => if String.eqb k k' then found v else scan d'
    end.

(** [all(...)] and [any(...)] over a generator whose items may raise: the
    first item that decides, or raises, ends the iteration. *)
Fixpoint py_all (items : list (res bool)) : res bool :=
  match items with
  | [] => Ok true
  | Ok true :: rest => py_all rest
  | Ok false :: _ => Ok false
  | Raise e :: _ => Raise e
  end.

Fixpoint py_any (items : list (res bool)) : res bool :=
  match items with
  | [] => Ok false
  | Ok false :: rest => py_any rest
  | Ok true :: _ => Ok true
  | Raise e :: _ => Raise e
  end.

(** A loop body that may raise, folded over a list. *)
Fixpoint fold_res {S A : Type} (f : S -> A -> res S) (l : list A) (st : S)
    : res S :=
  match l with
  | [] => Ok st
  | x :: l' =>
      match f st x with
      | Ok st' => fold_res f l' st'
      | Raise e => Raise e
      end
  end.

(** JSON-like dynamic values (the where clause comes from [json.loads]);
    numbers are integers. *)
Inductive json : Type :=
| JNull
| JBool (b : bool)
| JNum (z : Z)
| JStr (s : string)
| JArr (l : list json)
| JObj (d : list (string * json)).

(** Characters and strings. *)
Definition in_range (lo hi : nat) (c : ascii) : bool :=
  let n := nat_of_ascii c in (lo <=? n)%nat && (n <=? hi)%nat.

(** [str.lower()] on one code point of U+0000..U+00FF: A-Z, and the
    Latin-1 capitals U+00C0..U+00DE except the multiplication sign. *)
Definition lower_char (c : ascii) : ascii :=
  if in_range 65 90 c || in_range 192 214 c || in_range 216 222 c
  then ascii_of_nat (nat_of_ascii c + 32)
  else c.

Definition lower (s : list ascii) : list ascii := map lower_char s.

(** [needle in hay] for two strings. *)
Fixpoint is_prefix (p s : list ascii) : bool :=
  match p, s with
  | [], _ => true
  | _ :: _, [] => false
  | a :: p', b :: s' => Ascii.eqb a b && is_prefix p' s'
  end.

Fixpoint is_substring (p s : list ascii) : bool :=
  is_prefix p s ||
  match s with
  | [] => false
  | _ :: s' => is_substring p s'
  end.

Definition str_contains (needle hay : string) : bool :=
  is_substring (list_ascii_of_string needle) (list_ascii_of_string hay).

(** [sep.join(parts)] *)
Definition join (sep : string) (parts : list string) : string :=
  String.concat sep parts.

(** [s.split(sep, 1)]: the text before the first [sep], and the text
    behind it when there is one. *)
Fixpoint split_once (sep s : list ascii)
    : list ascii * option (list ascii) :=
  if is_prefix sep s then ([], Some (skipn (length sep) s))
  else
    match s with
    | [] => ([], None)
    | c :: s' => let (h, t) := split_once sep s' in (c :: h, t)
    end.

End Py.
Export Py.

Notation "x <- m ;; f" := (bind m (fun x => f))
  (at level 61, m at next level, right associativity).

(* ================================================================== *)
(** * sparse.py: tokenizer                                            *)
(* ================================================================== *)

(** The fragment of [re] the tokenizer pattern uses, with Python's
    backtracking semantics: alternatives are tried greedily and the first
    complete match wins. *)
Inductive regex : Type :=
| Class (p : ascii -> bool)          (* [...]      *)
| Seq (r1 r2 : regex)                (* r1 r2      *)
| StarClass (p : ascii -> bool)      (* [...]*     *)
| Optional (r : regex).              (* (?:r)?     *)

(** [star_match p k s]: consume as many [p] characters as possible, giving
    them back one at a time until the continuation [k] accepts. *)
Fixpoint star_match (p : ascii -> bool)
    (k : list ascii -> option (list ascii)) (s : list ascii)
    : option (list ascii) :=
  match s with
  | c :: s' =>
      if p c then
        match star_match p k s' with
        | Some rest => Some rest
        | None => k s
        end
      else k s
  | [] => k s
  end.

(** [re_match r s k]: match [r] at the head of [s]; the answer is the input
    left over after the whole match. *)
Fixpoint re_match (r : regex) (s : list ascii)
    (k : list ascii -> option (list ascii)) : option (list ascii) :=
  match r with
  | Class p =>
      match s with
      | c :: s' => if p c then k s' else None
      | [] => None
      end
  | Seq r1 r2 => re_match r1 s (fun s' => re_match r2 s' k)
  | StarClass p => star_match p k s
  | Optional r' =>
      match re_match r' s k with
      | Some rest => Some rest
      | None => k s
      end
  end.

(** [re.findall(r, s)] for a pattern that cannot match the empty string:
    scan left to right; after a match of length [n] the scan resumes right
    behind it ([skip] counts the characters still covered by the match). *)
Fixpoint findall_from (r : regex) (s : list ascii) (skip : nat)
    : list (list ascii) :=
  match s with
  | [] => []
  | _ :: s' =>
      match skip with
      | S n => findall_from r s' n
      | O =>
          match re_match r s Some with
          | Some rest =>
              let n := (length s - length rest)%nat in
              firstn n s :: findall_from r s' (n - 1)
          | None => findall_from r s' 0
          end
      end
  end.

Definition findall (r : regex) (s : list ascii) : list (list ascii) :=
  findall_from r s 0.

(** [[a-z0-9]] and [[a-z0-9-]] *)
Definition is_alnum (c : ascii) : bool :=
  in_range 97 122 c || in_range 48 57 c.

Definition is_hyphen (c : ascii) : bool := Ascii.eqb c "-"%char.

Definition is_word (c : ascii) : bool := is_alnum c || is_hyphen c.

(** [[a-z0-9](?:[a-z0-9-]*[a-z0-9])?] *)
Definition token_re : regex :=
  Seq (Class is_alnum) (Optional (Seq (StarClass is_word) (Class is_alnum))).

Definition tokenize_chars (text : list ascii) : list (list ascii) :=
  findall token_re (lower text).

Definition tokenize (text : string) : list string :=
  map string_of_list_ascii (tokenize_chars (list_ascii_of_string text)).

(* ================================================================== *)
(** * Data model                                                      *)
(* ================================================================== *)

(** A knowledge-base article.  [doc_id], [title] and [body] are read with
    [a["..."]]; the metadata fields are read with [a.get("...", default)]
    and may be missing. *)
Record article : Type := mk_article {
  a_doc_id : string;
  a_title : string;
  a_body : string;
  a_region : option string;
  a_product_version : option string;
  a_category : option string;
  a_deprecated : option bool;
  a_effective_date : option string;
  a_error_codes : option (list string)
}.

(** The display fields a result dict carries besides [doc_id], [score] and
    [rank]. *)
Record display : Type := mk_display {
  title : string;
  body : string;
  region : string;
  product_version : string;
  category : string;
  deprecated : bool
}.

(** A result dict.  The dicts [BM25Index.search] builds have the three keys
    [doc_id], [score], [rank] only ([shown = None]). *)
Record result : Type := mk_result {
  doc_id : string;
  shown : option display;
  score : Q;
  rank : Z
}.

Definition set_rank (r : result) (new_rank : Z) : result :=
  mk_result (doc_id r) (shown r) (score r) new_rank.

Definition get_or {A : Type} (o : option A) (default : A) : A :=
  match o with
  | Some a => a
  | None => default
  end.

Definition is_empty {A : Type} (l : list A) : bool :=
  match l with
  | [] => true
  | _ :: _ => false
  end.

(* ================================================================== *)
(** * sparse.py: BM25Index                                            *)
(* ================================================================== *)

Section Sparse.

(** The Okapi weight of one query token for one tokenized document of a
    corpus, as computed inside the [rank_bm25] package (idf times the
    saturated term frequency, zero for a token the corpus lacks). *)
Variable term_weight : list (list string) -> string -> list string -> Q.

Record BM25Okapi : Type := mk_okapi { okapi_corpus : list (list string) }.

(** Modelled from the spec: [BM25Okapi.get_scores] of the [rank_bm25]
    package, which is not part of the sources.  The score of a document is
    the sum, over the tokens of the query, of the token's weight for that
    document: an array of zeros, one per document, to which the weights of
    each query token are added in turn. *)
Definition get_scores (bm : BM25Okapi) (query : list string) : list Q :=
  map (fun doc =>
         fold_left (fun acc q => acc + term_weight (okapi_corpus bm) q doc)%Q
                   query 0%Q)
      (okapi_corpus bm).

Record BM25Index : Type := mk_index {
  _doc_ids : list string;
  _documents : list article;
  _bm25 : BM25Okapi
}.

(** Modelled from the spec: the constructor of [BM25Okapi], of the
    [rank_bm25] package, which is not part of the sources.  It keeps the
    tokenized corpus and derives the statistics of the corpus from it, among
    them the average document length, a division by the number of
    documents, and the mean of the idf values, a division by the number of
    distinct tokens.  One of the two divisors is zero, and the constructor
    raises, exactly when no document of the corpus has a token. *)
Definition BM25Okapi_init (corpus : list (list string)) : res BM25Okapi :=
  if forallb is_empty corpus then Raise ZeroDivisionError
  else Ok (mk_okapi corpus).

(** [BM25Index.__init__] *)
Definition BM25Index_init (documents : list article) : res BM25Index :=
  let _doc_ids := map a_doc_id documents in
  let corpus :=
    map (fun doc => tokenize (a_title doc ++ " " ++ a_body doc)%string)
        documents in
  _bm25 <- BM25Okapi_init corpus ;;
  Ok (mk_index _doc_ids documents _bm25).

(** [BM25Index.search] *)
Definition search (idx : BM25Index) (query : string) (top_k : Z)
    : list result :=
  let tokenized_query := tokenize query in
  let scores := get_scores (_bm25 idx) tokenized_query in
  let scored := sorted_desc snd (combine (_doc_ids idx) scores) in
  map (fun '(rank, (doc_id, score)) => mk_result doc_id None score rank)
      (enumerate 1 (slice_to scored top_k)).

End Sparse.

(* ================================================================== *)
(** * retriever.py: filter evaluation                                 *)
(* ================================================================== *)

(** A value of the flattened metadata record: a string or a boolean. *)
Inductive mval : Type :=
| MStr (s : string)
| MBool (b : bool).

Definition bool_num (b : bool) : Z := if b then 1 else 0.

(** [value == target]; [value] is [None] for a missing field. *)
Definition py_eq (value : option mval) (target : json) : bool :=
  match value, target with
  | None, JNull => true
  | Some (MStr s), JStr t => String.eqb s t
  | Some (MBool b), JBool c => Bool.eqb b c
  | Some (MBool b), JNum z => Z.eqb (bool_num b) z
  | _, _ => false
  end.

Inductive order_op : Type := OpGt | OpGe | OpLt | OpLe.

Definition order_holds (op : order_op) (c : comparison) : bool :=
  match op, c with
  | OpGt, Gt => true
  | OpGe, (Gt | Eq) => true
  | OpLt, Lt => true
  | OpLe, (Lt | Eq) => true
  | _, _ => false
  end.

(** [value > target] and its kin for a value that is not [None]: strings
    compare with strings, booleans with booleans and numbers; any other
    pairing is a [TypeError]. *)
Definition py_order (op : order_op) (value : mval) (target : json)
    : res bool :=
  match value, target with
  | MStr s, JStr t => Ok (order_holds op (String.compare s t))
  | MBool b, JBool c =>
      Ok (order_holds op (Z.compare (bool_num b) (bool_num c)))
  | MBool b, JNum z => Ok (order_holds op (Z.compare (bool_num b) z))
  | _, _ => Raise TypeError
  end.

(** [value in target] *)
Definition py_in (value : option mval) (target : json) : res bool :=
  match target with
  | JArr l => Ok (existsb (py_eq value) l)
  | JStr t =>
      match value with
      | Some (MStr s) => Ok (str_contains s t)
      | _ => Raise TypeError
      end
  | JObj d =>
      Ok (match value with
          | Some (MStr s) => dict_mem s d
          | _ => false
          end)
  | _ => Raise TypeError
  end.

(** One [op, target] entry of a constraint dict: [Ok false] when one of the
    [if]s returns [False], [Ok true] when the loop goes on.  An [op] none of
    the [if]s names falls through all of them. *)
Definition op_holds (value : option mval) (op : string) (target : json)
    : res bool :=
  if (op =? "$eq")%string then Ok (py_eq value target)
  else if (op =? "$ne")%string then Ok (negb (py_eq value target))
  else if (op =? "$gt")%string then
    match value with None => Ok false | Some v => py_order OpGt v target end
  else if (op =? "$gte")%string then
    match value with None => Ok false | Some v => py_order OpGe v target end
  else if (op =? "$lt")%string then
    match value with None => Ok false | Some v => py_order OpLt v target end
  else if (op =? "$lte")%string then
    match value with None => Ok false | Some v => py_order OpLe v target end
  else if (op =? "$in")%string then py_in value target
  else if (op =? "$nin")%string then b <- py_in value target ;; Ok (negb b)
  else Ok true.

(** [for op, target in constraint.items(): ...] *)
Fixpoint eval_ops (value : option mval) (ops : list (string * json))
    : res bool :=
  match ops with
  | [] => Ok true
  | (op, target) :: ops' =>
      b <- op_holds value op target ;;
      if b then eval_ops value ops' else Ok false
  end.

(** [for field, constraint in condition.items(): ...] *)
Fixpoint eval_items (meta : dict mval) (items : list (string * json))
    : res bool :=
  match items with
  | [] => Ok true
  | (field, constraint) :: rest =>
      let value := dict_get field meta in
      match constraint with
      | JObj ops =>
          b <- eval_ops value ops ;;
          if b then eval_items meta rest else Ok false
      | _ => if py_eq value constraint then eval_items meta rest else Ok false
      end
  end.

Definition is_key (k : string) (x : json) : bool :=
  match x with
  | JStr s => String.eqb s k
  | _ => false
  end.

(** What [_evaluate_condition] raises on a condition that is not a dict:
    ["$and" in condition] fails on a non-container, [condition["$and"]]
    fails when the test succeeds on a string or a list, and
    [condition.items()] fails otherwise. *)
Definition nondict_error (c : json) : exn :=
  match c with
  | JStr s =>
      if str_contains "$and" s || str_contains "$or" s
      then TypeError else AttributeError
  | JArr l =>
      if existsb (is_key "$and") l || existsb (is_key "$or") l
      then TypeError else AttributeError
  | _ => TypeError
  end.

Definition chars_of (s : string) : list json :=
  map (fun c => JStr (String c EmptyString)) (list_ascii_of_string s).

(** Iterating the value stored under ["$and"] or ["$or"] when it is not a
    list: a string yields its characters and a dict its keys, on each of
    which the recursive call raises; anything else is not iterable. *)
Definition over_strays (combine : list (res bool) -> res bool) (v : json)
    : res bool :=
  match v with
  | JStr s => combine (map (fun c => Raise (nondict_error c)) (chars_of s))
  | JObj d' =>
      combine (map (fun k => Raise (nondict_error (JStr k))) (dict_keys d'))
  | _ => Raise TypeError
  end.

(** [_evaluate_condition] *)
Fixpoint evaluate_condition (meta : dict mval) (condition : json)
    {struct condition} : res bool :=
  match condition with
  | JObj d =>
      dict_case "$and"
        (fun v =>
           match v with
           | JArr cs => py_all (map (evaluate_condition meta) cs)
           | _ => over_strays py_all v
           end)
        (dict_case "$or"
           (fun v =>
              match v with
              | JArr cs => py_any (map (evaluate_condition meta) cs)
              | _ => over_strays py_any v
              end)
           (eval_items meta d)
           d)
        d
  | _ => Raise (nondict_error condition)
  end.

(** The metadata record [apply_filters] builds for one article. *)
Definition flatten_meta (a : article) : dict mval :=
  [ ("region", MStr (get_or (a_region a) ""));
    ("product_version", MStr (get_or (a_product_version a) ""));
    ("category", MStr (get_or (a_category a) ""));
    ("deprecated", MBool (get_or (a_deprecated a) false));
    ("effective_date", MStr (get_or (a_effective_date a) ""));
    ("error_codes_str", MStr (join "," (get_or (a_error_codes a) []))) ].

(** The loop of [apply_filters]: results whose article is unknown are
    skipped, the others are kept when their metadata satisfies [where]. *)
Fixpoint filter_results (where_ : dict json) (articles_by_id : dict article)
    (results : list result) : res (list result) :=
  match results with
  | [] => Ok []
  | r :: rest =>
      match dict_get (doc_id r) articles_by_id with
      | None => filter_results where_ articles_by_id rest
      | Some a =>
          keep <- evaluate_condition (flatten_meta a) (JObj where_) ;;
          filtered <- filter_results where_ articles_by_id rest ;;
          Ok (if keep then r :: filtered else filtered)
      end
  end.

(** [apply_filters] *)
Definition apply_filters (results : list result) (where_ : dict json)
    (articles_by_id : dict article) : res (list result) :=
  if is_empty where_ then Ok results
  else filter_results where_ articles_by_id results.

(* ================================================================== *)
(** * retriever.py: reciprocal rank fusion                            *)
(* ================================================================== *)

(** The two dicts the fusion loop fills: [scores] and [doc_data].  What
    [doc_data] keeps of a result besides its [doc_id] is [shown]. *)
Definition rrf_state : Type := (dict Q * dict (option display))%type.

(** [scores.get(doc_id, 0.0)] *)
Definition score_of (scores : dict Q) (d : string) : Q :=
  get_or (dict_get d scores) 0%Q.

(** [1.0 / (k + r["rank"])]: the sum of the two ints is exact; it is
    converted to a float, and a float division by zero raises. *)
Definition reciprocal (k rank : Z) : res Q :=
  denominator <- float_of_int (k + rank) ;;
  if Qeq_bool denominator 0 then Raise ZeroDivisionError
  else Ok (float_div 1 denominator).

(** The body of the inner loop, for one result [r]. *)
Definition rrf_visit (k : Z) (st : rrf_state) (r : result) : res rrf_state :=
  let (scores, doc_data) := st in
  quotient <- reciprocal k (rank r) ;;
  Ok (dict_set (doc_id r)
        (float_add (score_of scores (doc_id r)) quotient) scores,
      if dict_mem (doc_id r) doc_data then doc_data
      else dict_set (doc_id r) (shown r) doc_data).

Definition rrf_accumulate (result_lists : list (list result)) (k : Z)
    : res rrf_state :=
  fold_res (fun st results => fold_res (rrf_visit k) results st)
           result_lists ([], []).

(** [reciprocal_rank_fusion] *)
Definition reciprocal_rank_fusion (result_lists : list (list result)) (k : Z)
    : res (list result) :=
  st <- rrf_accumulate result_lists k ;;
  let (scores, doc_data) := st in
  let sorted_ids := sorted_desc (score_of scores) (dict_keys scores) in
  Ok (map (fun '(rank, doc_id) =>
             mk_result doc_id (get_or (dict_get doc_id doc_data) None)
                       (score_of scores doc_id) rank)
          (enumerate 1 sorted_ids)).

(** The default of the [k] argument, and [RRF_K] of [config.py]. *)
Definition RRF_K : Z := 60.
Definition DEFAULT_TOP_K : Z := 5.

(* ================================================================== *)
(** * retriever.py: the vector store and the search functions         *)
(* ================================================================== *)

(** The metadata ChromaDB returns with a hit; each key is read with
    [meta.get]. *)
Record chroma_meta : Type := mk_chroma_meta {
  m_region : option string;
  m_product_version : option string;
  m_category : option string;
  m_deprecated : option bool
}.

(** The first (and only) row of what [collection.query] returns. *)
Record query_result : Type := mk_query_result {
  qr_ids : list string;
  qr_documents : list string;
  qr_metadatas : list chroma_meta;
  qr_distances : list Q
}.

(** The keyword arguments of one [collection.query] call. *)
Record request : Type := mk_request {
  query_embeddings : list (list Q);
  n_results : Z;
  where_arg : option (dict json)
}.

Fixpoint zip4 {A B C D : Type} (la : list A) (lb : list B) (lc : list C)
    (ld : list D) : list (A * B * C * D) :=
  match la, lb, lc, ld with
  | a :: la', b :: lb', c :: lc', d :: ld' =>
      (a, b, c, d) :: zip4 la' lb' lc' ld'
  | _, _, _, _ => []
  end.

Definition newline : ascii := ascii_of_nat 10.

(** [_chroma_to_results] *)
Definition _chroma_to_results (qr : query_result) : list result :=
  map (fun '(rank, (doc_id, doc_text, meta, dist)) =>
         let parts :=
           split_once [newline; newline] (list_ascii_of_string doc_text) in
         mk_result doc_id
           (Some (mk_display
                    (string_of_list_ascii (fst parts))
                    (string_of_list_ascii (get_or (snd parts) []))
                    (get_or (m_region meta) "")
                    (get_or (m_product_version meta) "")
                    (get_or (m_category meta) "")
                    (get_or (m_deprecated meta) false)))
           (1 - dist)%Q
           rank)
      (enumerate 1
         (zip4 (qr_ids qr) (qr_documents qr) (qr_metadatas qr)
               (qr_distances qr))).

(** [if where:] for an optional dict. *)
Definition truthy (where_ : option (dict json)) : bool :=
  match where_ with
  | Some (_ :: _) => true
  | _ => false
  end.

(** [{a["doc_id"]: a for a in documents}] *)
Definition index_by_id (documents : list article) : dict article :=
  fold_left (fun d a => dict_set (a_doc_id a) a d) documents [].

(** The enrichment of a BM25 result with the article's display fields;
    [articles_by_id.get(doc_id, {})] makes every field default when the
    article is unknown. *)
Definition enrich (articles_by_id : dict article) (r : result) : result :=
  let a := dict_get (doc_id r) articles_by_id in
  mk_result (doc_id r)
    (Some (mk_display
             (match a with Some a => a_title a | None => "" end)
             (match a with Some a => a_body a | None => "" end)
             (match a with Some a => get_or (a_region a) "" | None => "" end)
             (match a with
              | Some a => get_or (a_product_version a) ""
              | None => ""
              end)
             (match a with Some a => get_or (a_category a) "" | None => "" end)
             (match a with
              | Some a => get_or (a_deprecated a) false
              | None => false
              end)))
    (score r) (rank r).

(** [for new_rank, item in enumerate(items, start=1): item["rank"] = new_rank].
    The dicts are those of [sparse_raw], which is not read again. *)
Definition rerank (items : list result) : list result :=
  map (fun '(new_rank, item) => set_rank item new_rank) (enumerate 1 items).

(** Code that talks to the vector store threads the log of the
    [collection.query] calls made so far and may raise. *)
Definition io (A : Type) : Type := list request -> list request * res A.

Definition io_ret {A : Type} (a : A) : io A := fun log => (log, Ok a).

Definition io_bind {A B : Type} (m : io A) (f : A -> io B) : io B :=
  fun log =>
    match m log with
    | (log', Ok a) => f a log'
    | (log', Raise e) => (log', Raise e)
    end.

Definition io_lift {A : Type} (m : res A) : io A := fun log => (log, m).

Notation "x <~ m ;; f" := (io_bind m (fun x => f))
  (at level 61, m at next level, right associativity).

Section Engine.

Variable term_weight : list (list string) -> string -> list string -> Q.

(** [embed_query] of [embeddings.py]: a call to the embedding service,
    which answers with a vector or raises after its own retries. *)
Variable embed_query : string -> res (list Q).

(** [collection.query]: what the vector store answers to a request may
    depend on the calls made before it. *)
Variable collection_query : list request -> request -> res query_result.

Definition call_query (kwargs : request) : io query_result :=
  fun log => (log ++ [kwargs], collection_query log kwargs).

(** [search_dense] *)
Definition search_dense (query : string) (top_k : Z)
    (where_ : option (dict json)) : io (list result) :=
  query_embedding <~ io_lift (embed_query query) ;;
  let kwargs :=
    mk_request [query_embedding] top_k
               (if truthy where_ then where_ else None) in
  fun log =>
    match call_query kwargs log with
    | (log', Ok query_result) => (log', Ok (_chroma_to_results query_result))
    | (log', Raise e) =>
        if truthy where_ then
          (query_result <~
             call_query (mk_request (query_embeddings kwargs)
                                    (n_results kwargs) None) ;;
           io_ret (_chroma_to_results query_result)) log'
        else (log', Raise e)
    end.

(** [search_sparse] *)
Definition search_sparse (bm25_index : BM25Index) (query : string)
    (top_k : Z) : list result :=
  let bm25_results := search term_weight bm25_index query top_k in
  let articles_by_id := index_by_id (_documents bm25_index) in
  map (enrich articles_by_id) bm25_results.

(** The sparse branch of [search_hybrid]: what [sparse_results_raw] is
    bound to. *)
Definition sparse_branch (bm25_index : BM25Index) (query : string)
    (top_k : Z) (where_ : option (dict json)) : res (list result) :=
  let over_k := top_k * 3 in
  if truthy where_ then
    let sparse_raw := search term_weight bm25_index query (top_k * 10) in
    let articles_by_id := index_by_id (_documents bm25_index) in
    sparse_filtered <-
      apply_filters sparse_raw (get_or where_ []) articles_by_id ;;
    let sparse_results_raw := slice_to (rerank sparse_filtered) over_k in
    if is_empty sparse_results_raw
    then Ok (search term_weight bm25_index query over_k)
    else Ok sparse_results_raw
  else Ok (search term_weight bm25_index query over_k).

(** [search_hybrid] up to and including the fusion: the value of
    [fused]. *)
Definition hybrid_fused (bm25_index : BM25Index) (query : string)
    (top_k : Z) (where_ : option (dict json)) (rrf_k : Z)
    : io (list result) :=
  let over_k := top_k * 3 in
  dense_results <~ search_dense query over_k where_ ;;
  sparse_results_raw <~
    io_lift (sparse_branch bm25_index query top_k where_) ;;
  let articles_by_id := index_by_id (_documents bm25_index) in
  let sparse_results := map (enrich articles_by_id) sparse_results_raw in
  io_lift (reciprocal_rank_fusion [dense_results; sparse_results] rrf_k).

(** [search_hybrid].  [depth] bounds the nesting of the recursive call;
    [None] is reported when it is used up. *)
Fixpoint search_hybrid (depth : nat) (bm25_index : BM25Index)
    (query : string) (top_k : Z) (where_ : option (dict json)) (rrf_k : Z)
    (log : list request) : list request * option (res (list result)) :=
  match depth with
  | O => (log, None)
  | S depth' =>
      match hybrid_fused bm25_index query top_k where_ rrf_k log with
      | (log', Raise e) => (log', Some (Raise e))
      | (log', Ok fused) =>
          if is_empty fused && truthy where_ then
            search_hybrid depth' bm25_index query top_k None rrf_k log'
          else (log', Some (Ok (slice_to fused top_k)))
      end
  end.

End Engine.

(* ================================================================== *)
(** * Vocabulary of the statements                                    *)
(* ================================================================== *)

(** The order a stable descending sort produces: by descending key, and
    among equal keys by the order [before] the input was in. *)
Definition ranks_before {A : Type} (key : A -> Q) (before : A -> A -> Prop)
    (x y : A) : Prop :=
  (key y < key x)%Q \/ ((key x == key y)%Q /\ before x y).

(** Ranks that count up from [start] without a gap. *)
Fixpoint counting (start : Z) (n : nat) : list Z :=
  match n with
  | O => []
  | S n' => start :: counting (start + 1) n'
  end.

(** A ranked list has ranks 1, 2, ..., one per item. *)
Definition contiguous_ranks (l : list result) : Prop :=
  map rank l = counting 1 (length l).

(** The score [get_scores] gives the [i]-th loaded document. *)
Definition score_at (scores : list Q) (i : nat) : Q := nth i scores 0%Q.

(** The result dict for the document loaded [i]-th, at rank [r]. *)
Definition hit (docs : list article) (scores : list Q) (p : Z * nat)
    : result :=
  mk_result (nth (snd p) (map a_doc_id docs) "") None
            (score_at scores (snd p)) (fst p).

(** The order of the corpus a query induces: corpus positions stably
    sorted by descending score. *)
Definition ranking (scores : list Q) : list nat :=
  sorted_desc (score_at scores) (seq 0 (length scores)).

(** Position of the first occurrence of [d] in [l]; [length l] when there
    is none. *)
Fixpoint index_of (d : string) (l : list string) : nat :=
  match l with
  | [] => O
  | x :: l' => if String.eqb x d then O else S (index_of d l')
  end.

(** [reciprocal_rank_fusion(result_lists)], with [k] left to its default. *)
Definition reciprocal_rank_fusion_default (result_lists : list (list result))
    : res (list result) :=
  reciprocal_rank_fusion result_lists 60.

(** Whether the ranked list [L] holds document [d], and at which rank. *)
Definition contains (L : list result) (d : string) : bool :=
  existsb (fun r => String.eqb (doc_id r) d) L.

Definition rank_in (L : list result) (d : string) : Z :=
  match find (fun r => String.eqb (doc_id r) d) L with
  | Some r => rank r
  | None => 0
  end.

Definition position_in (L : list result) (d : string) : nat :=
  index_of d (map doc_id L).

(** The exponent of the binary64 number nearest to [x >= 0]. *)
Definition exponent (x : Q) : Z := Z.max (mag x - 53) (-1074).

(** The largest [int] that converts to a float: the next one is nearer
    to [2^1024] than to the largest binary64 number [2^1024 - 2^971]. *)
Definition float_max_int : Z := 2 ^ 1024 - 2 ^ 970 - 1.

(** The result [r] has a quotient [1.0 / (k + rank)]: the denominator is
    not zero and converts to a float. *)
Definition has_quotient (k : Z) (r : result) : Prop :=
  k + rank r <> 0 /\ Z.abs (k + rank r) <= float_max_int.

(** The quotient [1.0 / (k + rank)] as a float. *)
Definition rrf_term (k rank : Z) : Q :=
  float_div 1 (round_float (inject_Z (k + rank))).

(** The float sum of a sequence of floats, added to [0.0] one after the
    other. *)
Definition float_sum (l : list Q) : Q := fold_left float_add l 0%Q.

(** The fused score: one quotient for each input list that holds [d], at
    the rank [d] has there, added in the order of the lists; nothing for
    the lists without [d]. *)
Definition rrf_score (k : Z) (lists : list (list result)) (d : string) : Q :=
  float_sum (map (fun L => rrf_term k (rank_in L d))
                 (filter (fun L => contains L d) lists)).

(** What one flat sequence of results adds up to for [d]. *)
Definition total (k : Z) (items : list result) (d : string) : Q :=
  float_sum (map (fun r => rrf_term k (rank r))
                 (filter (fun r => String.eqb (doc_id r) d) items)).

(** The score as the specification words it, in exact arithmetic: the sum
    of [1/(k + rank)] over the input lists that hold [d]. *)
Definition qsum (l : list Q) : Q := fold_right Qplus 0%Q l.

Definition spec_term (k rank : Z) : Q := (1 / inject_Z (k + rank))%Q.

Definition spec_score (k : Z) (lists : list (list result)) (d : string) : Q :=
  qsum (map (fun L => spec_term k (rank_in L d))
            (filter (fun L => contains L d) lists)).

(** Index of the first input list that holds [d]. *)
Fixpoint first_list (lists : list (list result)) (d : string) : nat :=
  match lists with
  | [] => O
  | L :: rest => if contains L d then O else S (first_list rest d)
  end.

(** [a] makes its first appearance before [b]: in an earlier list, or in
    the same list at an earlier position. *)
Definition appears_before (lists : list (list result)) (a b : string)
    : Prop :=
  (first_list lists a < first_list lists b)%nat \/
  (first_list lists a = first_list lists b /\
   (position_in (nth (first_list lists a) lists []) a <
    position_in (nth (first_list lists a) lists []) b)%nat).

(** The same with the rank in the first list holding both. *)
Definition outranks (lists : list (list result)) (a b : string) : Prop :=
  (first_list lists a < first_list lists b)%nat \/
  (first_list lists a = first_list lists b /\
   rank_in (nth (first_list lists a) lists []) a <
   rank_in (nth (first_list lists a) lists []) b).

(** Order of a fused list: descending fused score, ties by [tie]. *)
Definition fused_order (tie : string -> string -> Prop) (a b : result)
    : Prop :=
  (score b < score a)%Q \/
  ((score a == score b)%Q /\ tie (doc_id a) (doc_id b)).

(** The order the specification words: descending exact score, documents
    of equal exact score by first appearance. *)
Definition spec_order (k : Z) (lists : list (list result)) (a b : result)
    : Prop :=
  (spec_score k lists (doc_id b) < spec_score k lists (doc_id a))%Q \/
  ((spec_score k lists (doc_id a) == spec_score k lists (doc_id b))%Q /\
   appears_before lists (doc_id a) (doc_id b)).

(** The number a finite float of the Standard Library's specification of
    IEEE 754 arithmetic denotes, and its binary64 operations. *)
Definition binary64_value (f : spec_float) : option Q :=
  match f with
  | S754_zero _ => Some 0%Q
  | S754_finite s m e =>
      Some (inject_Z (if s then Zneg m else Zpos m) * pow2 e)%Q
  | S754_infinity _ | S754_nan => None
  end.

Definition binary64_of_int (n : Z) : spec_float :=
  binary_normalize 53 1024 n 0 false.

Definition binary64_reciprocal (n : Z) : spec_float :=
  SFdiv 53 1024 (binary64_of_int 1) (binary64_of_int n).

Definition binary64_holds (f : spec_float) (q : Q) : bool :=
  match binary64_value f with
  | Some v => Qeq_bool v q
  | None => false
  end.

(** The index [BM25Index.__init__] leaves behind when it returns. *)
Definition indexed (docs : list article) : BM25Index :=
  mk_index
    (map a_doc_id docs)
    docs
    (mk_okapi
       (map (fun doc => tokenize (a_title doc ++ " " ++ a_body doc)%string)
            docs)).

(** The operators [_evaluate_condition] has a branch for, and the keys of
    the flattened metadata record. *)
Definition recognized_ops : list string :=
  ["$eq"; "$ne"; "$gt"; "$gte"; "$lt"; "$lte"; "$in"; "$nin"].

Definition metadata_fields : list string :=
  ["region"; "product_version"; "category"; "deprecated"; "effective_date";
   "error_codes_str"].

(** The document of result [r] is known and its flattened metadata
    satisfies the where clause. *)
Definition satisfies (where_ : dict json) (articles_by_id : dict article)
    (r : result) : bool :=
  match dict_get (doc_id r) articles_by_id with
  | Some a =>
      match evaluate_condition (flatten_meta a) (JObj where_) with
      | Ok b => b
      | Raise _ => false
      end
  | None => false
  end.

(** Evaluating the where clause raises for none of the listed results. *)
Definition evaluates_on (where_ : dict json) (articles_by_id : dict article)
    (results : list result) : Prop :=
  forall r a,
    In r results -> dict_get (doc_id r) articles_by_id = Some a ->
    exists b, evaluate_condition (flatten_meta a) (JObj where_) = Ok b.

(** Sample data: an article of the EU region carrying two error codes, its
    BM25 hit, and the mapping that knows it. *)
Definition sample_article : article :=
  mk_article "d1" "VPN login fails" "Error E-1001 appears after E-2002"
             (Some "EU") (Some "v3.0") (Some "networking") (Some false)
             (Some "2024-01-01") (Some ["E-1001"; "E-2002"]).

Definition sample_hit : result := mk_result "d1" None 1%Q 1.

(** A ranked list of the named documents, ranks 1, 2, .... *)
Definition ranked (ids : list string) : list result :=
  map (fun '(rank, d) => mk_result d None 0%Q rank) (enumerate 1 ids).

(** Three result lists in which [d1] and [d2] have the ranks 1, 2 and 7,
    met in different orders, and three lists that rank three documents in
    rotation. *)
Definition tied_lists : list (list result) :=
  [ ranked ["d1"; "d2"];
    ranked ["d2"; "f1"; "f2"; "f3"; "f4"; "f5"; "d1"];
    ranked ["f1"; "d1"; "f2"; "f3"; "f4"; "f5"; "d2"] ].

Definition rotated_lists : list (list result) :=
  [ ranked ["d1"; "d3"; "d2"];
    ranked ["d2"; "d1"; "d3"];
    ranked ["d3"; "d2"; "d1"] ].

(** The denominators and the pairs of them on which the arithmetic is
    compared with the Standard Library's. *)
Definition checked_denominators : list Z := map Z.of_nat (seq 1 512).

Definition checked_pairs : list (Z * Z) :=
  flat_map (fun a => map (fun b => (a, b)) (map Z.of_nat (seq 1 48)))
           (map Z.of_nat (seq 1 48)).

Definition sample_articles : dict article := [("d1", sample_article)].

Definition sample_article_us : article :=
  mk_article "d2" "Billing export" "Invoices are exported nightly"
             (Some "US") (Some "v2.0") (Some "billing") (Some true)
             (Some "2023-06-30") (Some []).

Definition sample_docs : list article := [sample_article; sample_article_us].

Definition sample_index : BM25Index := indexed sample_docs.

(** A term weight that counts a query token once when the document has
    it. *)
Definition sample_weight (corpus : list (list string)) (q : string)
    (doc : list string) : Q :=
  if existsb (String.eqb q) doc then 1%Q else 0%Q.

Definition sample_embed (query : string) : res (list Q) := Ok [1%Q; 0%Q].

Definition sample_answer : query_result :=
  mk_query_result ["d1"] ["VPN login fails"]
    [mk_chroma_meta (Some "EU") (Some "v3.0") (Some "networking")
                    (Some false)]
    [(1 # 4)%Q].

(** A vector store that is down, one that rejects filtered requests, and
    one that finds nothing under a filter. *)
Definition store_down (log : list request) (req : request)
    : res query_result :=
  Raise (PortError "unreachable").

Definition store_rejecting_filters (log : list request) (req : request)
    : res query_result :=
  match where_arg req with
  | Some _ => Raise (PortError "bad filter")
  | None => Ok sample_answer
  end.

Definition store_empty_under_filter (log : list request) (req : request)
    : res query_result :=
  match where_arg req with
  | Some _ => Ok (mk_query_result [] [] [] [])
  | None => Ok sample_answer
  end.

(** A vector store that finds nothing under a filter and, without one,
    its one hit when at least one result is asked for. *)
Definition store_counting (log : list request) (req : request)
    : res query_result :=
  match where_arg req with
  | Some _ => Ok (mk_query_result [] [] [] [])
  | None =>
      if 0 <? n_results req then Ok sample_answer
      else Ok (mk_query_result [] [] [] [])
  end.

Definition eu_only : dict json := [("region", JObj [("$eq", JStr "EU")])].

(** The continuation behind the star of the token pattern: one
    alphanumeric character. *)
Definition closing (s : list ascii) : option (list ascii) :=
  re_match (Class is_alnum) s Some.

(** A token: a non-empty run of [[a-z0-9-]] that begins and ends with an
    alphanumeric character, so that every hyphen in it is internal. *)
Definition token_form (t : list ascii) : bool :=
  match t with
  | [] => false
  | c :: _ => is_alnum c && forallb is_word t && is_alnum (last t c)
  end.

(** The text behind a token does not continue it: after any hyphens comes
    the end of the text or a character outside [[a-z0-9-]]. *)
Fixpoint token_ends (rest : list ascii) : bool :=
  match rest with
  | [] => true
  | c :: rest' => if is_hyphen c then token_ends rest' else negb (is_word c)
  end.

(** [tokens_of s ts]: [ts] are the maximal tokens of [s], left to right.
    [s] reads gap, token, gap, token, ..., gap, where no gap holds an
    alphanumeric character and no token can be extended on either side. *)
Inductive tokens_of : list ascii -> list (list ascii) -> Prop :=
| tokens_none (gap : list ascii) :
    existsb is_alnum gap = false ->
    tokens_of gap []
| tokens_next (gap t rest : list ascii) (ts : list (list ascii)) :
    existsb is_alnum gap = false ->
    token_form t = true ->
    token_ends rest = true ->
    tokens_of rest ts ->
    tokens_of (gap ++ t ++ rest) (t :: ts).

(* ================================================================== *)
(** * Python runtime, continued                                       *)
(* ================================================================== *)

(** The exception classes of the code around the retriever: the indexer
    and the service clients.  [HTTPStatusError], [ConnectError] and
    [TimeoutException] are the [httpx] classes; [ServiceError] stands for
    any other [Exception] a client library raises. *)
Inductive error : Type :=
| KeyError (key : string)
| IndexError
| ValueError
| HTTPStatusError (status : Z)
| ConnectError
| TimeoutException
| ServiceError (msg : string).

Inductive outcome (A : Type) : Type :=
| Returns (a : A)
| Raises (e : error).
Arguments Returns {A} a.
Arguments Raises {A} e.

Definition and_then {A B : Type} (m : outcome A) (f : A -> outcome B)
    : outcome B :=
  match m with
  | Returns a => f a
  | Raises e => Raises e
  end.

Notation "x <-- m ;; f" := (and_then m (fun x => f))
  (at level 61, m at next level, right associativity).

(** [[f(x) for x in l]] where [f] may raise. *)
Fixpoint traverse {A B : Type} (f : A -> outcome B) (l : list A)
    : outcome (list B) :=
  match l with
  | [] => Returns []
  | x :: l' => y <-- f x ;; ys <-- traverse f l' ;; Returns (y :: ys)
  end.

(** [list(range(0, stop, step))] for [stop >= 0]: a zero step is a
    [ValueError], a negative step gives the empty range. *)
Definition range_by (stop : nat) (step : Z) : outcome (list nat) :=
  if step =? 0 then Raises ValueError
  else if step <? 0 then Returns []
  else
    let n := Z.to_nat step in
    Returns (map (fun j => (j * n)%nat) (seq 0 ((stop + n - 1) / n))).

(** [l[i : i + n]] for [i >= 0] and [n >= 0]. *)
Definition slice_at {A : Type} (l : list A) (i n : nat) : list A :=
  firstn n (skipn i l).

(** [l[i]]: a negative index counts from the end. *)
Definition py_index {A : Type} (l : list A) (i : Z) : outcome A :=
  let n := Z.of_nat (length l) in
  let at_ (j : Z) :=
    match nth_error l (Z.to_nat j) with
    | Some a => Returns a
    | None => Raises IndexError
    end in
  if (0 <=? i) && (i <? n) then at_ i
  else if (- n <=? i) && (i <? 0) then at_ (n + i)
  else Raises IndexError.

(* ================================================================== *)
(** * filter_extractor.py                                             *)
(* ================================================================== *)

(** [if field in filters:
       conditions.append({field: {"$eq": filters[field]}})] *)
Definition append_eq (field : string) (filters : dict json)
    (conditions : list (dict json)) : list (dict json) :=
  match dict_get field filters with
  | Some v => conditions ++ [[(field, JObj [("$eq", v)])]]
  | None => conditions
  end.

(** [convert_to_chromadb_where] *)
Definition convert_to_chromadb_where (filters : dict json) : dict json :=
  if is_empty filters then []
  else
    let conditions := [] in
    let conditions := append_eq "region" filters conditions in
    let conditions := append_eq "product_version" filters conditions in
    let conditions := append_eq "category" filters conditions in
    let conditions := append_eq "deprecated" filters conditions in
    match conditions with
    | [] => []
    | [condition] => condition
    | _ => [("$and", JArr (map JObj conditions))]
    end.

(** [get_error_code_filter] *)
Definition get_error_code_filter (filters : dict json) : option json :=
  dict_get "error_codes" filters.

(** [str.isspace] on one code point of U+0000..U+00FF: the characters
    [str.strip()] removes. *)
Definition is_space (c : ascii) : bool :=
  in_range 9 13 c || in_range 28 32 c ||
  Ascii.eqb c (ascii_of_nat 133) || Ascii.eqb c (ascii_of_nat 160).

(** [s.lstrip()], [s.rstrip()] and [s.strip()] *)
Fixpoint lstrip (s : list ascii) : list ascii :=
  match s with
  | c :: s' => if is_space c then lstrip s' else s
  | [] => []
  end.

Definition rstrip (s : list ascii) : list ascii := rev (lstrip (rev s)).

Definition strip (s : list ascii) : list ascii := rstrip (lstrip s).

(** [s.split("\n")] *)
Fixpoint split_lines (s : list ascii) : list (list ascii) :=
  match s with
  | [] => [[]]
  | c :: s' =>
      if Ascii.eqb c newline then [] :: split_lines s'
      else
        match split_lines s' with
        | line :: lines => (c :: line) :: lines
        | [] => [[c]]
        end
  end.

(** ["\n".join(lines)] *)
Fixpoint join_lines (lines : list (list ascii)) : list ascii :=
  match lines with
  | [] => []
  | [line] => line
  | line :: rest => line ++ newline :: join_lines rest
  end.

(** The three backticks of a markdown fence. *)
Definition fence : list ascii := ["`"; "`"; "`"]%char.

(** The block of [extract_filters] that strips markdown fencing from the
    stripped reply [raw]. *)
Definition strip_fencing (raw : list ascii) : list ascii :=
  if is_prefix fence raw then
    let lines := split_lines raw in
    let lines := filter (fun line => negb (is_prefix fence line)) lines in
    strip (join_lines lines)
  else raw.

Section Extractor.

(** The content of the first choice the LLM returns for the user message
    [query]; the call may raise. *)
Variable chat_completion : string -> outcome string.

(** [json.loads]; [None] stands for [json.JSONDecodeError]. *)
Variable json_loads : string -> option json.

(** [extract_filters] *)
Definition extract_filters (query : string) : outcome (dict json) :=
  content <-- chat_completion query ;;
  let raw := strip (list_ascii_of_string content) in
  let raw := strip_fencing raw in
  match json_loads (string_of_list_ascii raw) with
  | None => Returns []
  | Some (JObj filters) => Returns filters
  | Some _ => Returns []
  end.

End Extractor.

(* ================================================================== *)
(** * evals/run_evals.py: the metrics                                 *)
(* ================================================================== *)

(** [x in set(l)] *)
Definition in_set (x : string) (l : list string) : bool :=
  existsb (String.eqb x) l.

(** [recall_at_k] *)
Definition recall_at_k (retrieved_ids expected_ids : list string) (k : Z)
    : Q :=
  if is_empty expected_ids then 1%Q
  else
    let top_k_set := slice_to retrieved_ids k in
    let found :=
      length (filter (fun eid => in_set eid top_k_set) expected_ids) in
    (inject_Z (Z.of_nat found) / inject_Z (Z.of_nat (length expected_ids)))%Q.

(** The loop of [reciprocal_rank] over the enumerated ids. *)
Fixpoint first_relevant (expected_set : list string)
    (items : list (Z * string)) : Q :=
  match items with
  | [] => 0%Q
  | (i, doc_id) :: rest =>
      if in_set doc_id expected_set then (1 / inject_Z i)%Q
      else first_relevant expected_set rest
  end.

(** [reciprocal_rank] *)
Definition reciprocal_rank (retrieved_ids expected_ids : list string) : Q :=
  first_relevant expected_ids (enumerate 1 retrieved_ids).

(* ================================================================== *)
(** * embeddings.py                                                   *)
(* ================================================================== *)

Module Embeddings.

(** What the module does to the outside world, in order: requests to the
    embedding endpoint and pauses. *)
Inductive event : Type :=
| Create (input : list string)
| Sleep (seconds : Z).

(** Code that talks to the service threads the trace of events so far. *)
Definition client (A : Type) : Type := list event -> list event * outcome A.

Definition _MAX_RETRIES : Z := 3.
Definition _BACKOFF_BASE : Z := 1.

Section Client.

(** [_client.embeddings.create(model=EMBEDDING_MODEL, input=texts)] followed
    by the extraction of the vectors: the answer may depend on what
    happened before, and any exception may come out. *)
Variable embeddings_create : list event -> list string -> outcome (list (list Q)).

(** The loop of [_embed_with_retry] over the remaining attempt numbers. *)
Fixpoint retry_loop (attempts : list Z) (texts : list string)
    : client (list (list Q)) :=
  fun trace =>
    match attempts with
    | [] => (trace, Returns [])
    | attempt :: later =>
        match embeddings_create trace texts with
        | Returns vectors => (trace ++ [Create texts], Returns vectors)
        | Raises e =>
            if attempt =? _MAX_RETRIES - 1
            then (trace ++ [Create texts], Raises e)
            else
              retry_loop later texts
                (trace ++ [Create texts;
                           Sleep (_BACKOFF_BASE * 2 ^ attempt)])
        end
    end.

(** [_embed_with_retry] *)
Definition _embed_with_retry (texts : list string) : client (list (list Q)) :=
  retry_loop (map Z.of_nat (seq 0 (Z.to_nat _MAX_RETRIES))) texts.

(** The loop of [embed_documents] over the batch offsets. *)
Fixpoint embed_batches (offsets : list nat) (texts : list string)
    (batch_size : Z) (all_embeddings : list (list Q))
    : client (list (list Q)) :=
  fun trace =>
    match offsets with
    | [] => (trace, Returns all_embeddings)
    | i :: later =>
        let batch :=
          map (fun t => "passage: " ++ t)%string
              (slice_at texts i (Z.to_nat batch_size)) in
        match _embed_with_retry batch trace with
        | (trace', Returns vectors) =>
            embed_batches later texts batch_size (all_embeddings ++ vectors)
                          trace'
        | (trace', Raises e) => (trace', Raises e)
        end
    end.

(** [embed_documents] *)
Definition embed_documents (texts : list string) (batch_size : Z)
    : client (list (list Q)) :=
  fun trace =>
    match range_by (length texts) batch_size with
    | Raises e => (trace, Raises e)
    | Returns offsets => embed_batches offsets texts batch_size [] trace
    end.

(** [embed_query] *)
Definition embed_query (text : string) : client (list Q) :=
  fun trace =>
    match _embed_with_retry ["query: " ++ text]%string trace with
    | (trace', Returns vectors) => (trace', py_index vectors 0)
    | (trace', Raises e) => (trace', Raises e)
    end.

End Client.
End Embeddings.

(* ================================================================== *)
(** * reranker.py                                                     *)
(* ================================================================== *)

Module Reranker.

(** One entry of the TEI answer: [{"index": ..., "score": ...}]. *)
Record tei_item : Type := mk_item {
  index : Z;
  item_score : Q
}.

(** What the reranker does to the outside world, in order: posts of the
    payload [{"query": query, "texts": texts}] and pauses. *)
Inductive event : Type :=
| Post (query : string) (texts : list string)
| Sleep (seconds : Z).

(** Code that talks to the endpoint threads the trace of events so far. *)
Definition client (A : Type) : Type := list event -> list event * outcome A.

(** The exceptions [_call_tei] catches. *)
Definition caught (e : error) : bool :=
  match e with
  | HTTPStatusError _ | ConnectError | TimeoutException => true
  | _ => false
  end.

(** [f"{r.get('title', '')} {r.get('body', '')}"] *)
Definition text_of (r : result) : string :=
  match shown r with
  | Some d => (title d ++ " " ++ body d)%string
  | None => " "
  end.

(** [updated = dict(results[idx]); updated["score"] = ...] *)
Definition with_score (r : result) (s : Q) : result :=
  mk_result (doc_id r) (shown r) s (rank r).

(** The loop that builds [scored_results]. *)
Fixpoint scored_results (results : list result) (scores : list tei_item)
    : outcome (list result) :=
  match scores with
  | [] => Returns []
  | item :: rest =>
      r <-- py_index results (index item) ;;
      more <-- scored_results results rest ;;
      Returns (with_score r (item_score item) :: more)
  end.

Section Client.

(** [httpx.post(...)], [raise_for_status()] and [response.json()]. *)
Variable httpx_post : list event -> string -> list string -> outcome (list tei_item).

(** The loop of [_call_tei] over the remaining attempt numbers. *)
Fixpoint call_loop (attempts : list Z) (query : string) (texts : list string)
    : client (list tei_item) :=
  fun trace =>
    match attempts with
    | [] => (trace, Returns [])
    | attempt :: later =>
        match httpx_post trace query texts with
        | Returns scores => (trace ++ [Post query texts], Returns scores)
        | Raises e =>
            if caught e then
              if attempt <? 2 then
                call_loop later query texts
                  (trace ++ [Post query texts; Sleep (2 ^ attempt)])
              else (trace ++ [Post query texts], Raises e)
            else (trace ++ [Post query texts], Raises e)
        end
    end.

(** [Reranker._call_tei] *)
Definition _call_tei (query : string) (texts : list string)
    : client (list tei_item) :=
  call_loop [0; 1; 2] query texts.

(** [Reranker.rerank] *)
Definition rerank (query : string) (results : list result) (top_k : Z)
    : client (list result) :=
  fun trace =>
    if is_empty results then (trace, Returns [])
    else
      let texts := map text_of results in
      match _call_tei query texts trace with
      | (trace', Raises e) => (trace', Raises e)
      | (trace', Returns scores) =>
          (trace',
           scored <-- scored_results results scores ;;
           let sorted := sorted_desc score scored in
           Returns (map (fun '(i, r) => set_rank r (i + 1))
                        (enumerate 0 (slice_to sorted top_k))))
      end.

End Client.
End Reranker.

(* ================================================================== *)
(** * indexer.py: what index_all upserts                              *)
(* ================================================================== *)

Module Indexer.

Definition _UPSERT_BATCH : Z := 100.

(** The keyword arguments of one [collection.upsert] call. *)
Record upsert : Type := mk_upsert {
  ids : list string;
  embeddings : list (list Q);
  documents : list string;
  metadatas : list (dict mval)
}.

(** [a[key]] for a metadata key, which the article may lack. *)
Definition required {A : Type} (key : string) (o : option A) : outcome A :=
  match o with
  | Some a => Returns a
  | None => Raises (KeyError key)
  end.

(** The text stored as the document: [a["title"] + "\n\n" + a["body"]]. *)
Definition document_of (a : article) : string :=
  (a_title a ++ String newline (String newline EmptyString) ++ a_body a)%string.

(** The metadata dict stored with the document. *)
Definition metadata_of (a : article) : outcome (dict mval) :=
  region <-- required "region" (a_region a) ;;
  product_version <-- required "product_version" (a_product_version a) ;;
  effective_date <-- required "effective_date" (a_effective_date a) ;;
  category <-- required "category" (a_category a) ;;
  deprecated <-- required "deprecated" (a_deprecated a) ;;
  Returns [ ("region", MStr region);
            ("product_version", MStr product_version);
            ("effective_date", MStr effective_date);
            ("category", MStr category);
            ("deprecated", MBool deprecated);
            ("error_codes_str",
             MStr (join "," (get_or (a_error_codes a) []))) ].

(** The body of the upsert loop, for the batch at offset [i]. *)
Definition batch_at (articles : list article) (all_embeddings : list (list Q))
    (i : nat) : outcome upsert :=
  let batch_articles := slice_at articles i (Z.to_nat _UPSERT_BATCH) in
  let batch_embeddings := slice_at all_embeddings i (Z.to_nat _UPSERT_BATCH) in
  let ids := map a_doc_id batch_articles in
  let documents := map document_of batch_articles in
  metadatas <-- traverse metadata_of batch_articles ;;
  Returns (mk_upsert ids batch_embeddings documents metadatas).

Section Store.

(** [collection.upsert(ids=..., embeddings=..., documents=...,
    metadatas=...)]: the store may refuse a call, depending on the calls
    made before. *)
Variable collection_upsert : list upsert -> upsert -> outcome unit.

(** The upsert loop of [index_all]: the calls made to [collection.upsert],
    and whether the loop completed. *)
Fixpoint upsert_loop (offsets : list nat) (articles : list article)
    (all_embeddings : list (list Q)) (calls : list upsert)
    : list upsert * outcome unit :=
  match offsets with
  | [] => (calls, Returns tt)
  | i :: later =>
      match batch_at articles all_embeddings i with
      | Returns call =>
          match collection_upsert calls call with
          | Returns _ =>
              upsert_loop later articles all_embeddings (calls ++ [call])
          | Raises e => (calls ++ [call], Raises e)
          end
      | Raises e => (calls, Raises e)
      end
  end.

(** [for i in range(0, len(articles), _UPSERT_BATCH): ...] of [index_all],
    for the embeddings [embed_documents] has returned. *)
Definition upsert_all (articles : list article)
    (all_embeddings : list (list Q)) : list upsert * outcome unit :=
  match range_by (length articles) _UPSERT_BATCH with
  | Raises e => ([], Raises e)
  | Returns offsets => upsert_loop offsets articles all_embeddings []
  end.

End Store.

End Indexer.

(* ================================================================== *)
(** * Vocabulary of the further statements                            *)
(* ================================================================== *)

(** The display fields of an article as [search_sparse] copies them. *)
Definition display_of (a : article) : display :=
  mk_display (a_title a) (a_body a)
             (get_or (a_region a) "") (get_or (a_product_version a) "")
             (get_or (a_category a) "") (get_or (a_deprecated a) false).

(** The article loaded last among those carrying the id [d]. *)
Definition last_with_id (documents : list article) (d : string)
    : option article :=
  find (fun a => String.eqb (a_doc_id a) d) (rev documents).

(** The first result of a flat sequence carrying the id [d]. *)
Definition first_with_id (items : list result) (d : string) : option result :=
  find (fun r => String.eqb (doc_id r) d) items.

(** [isinstance(v, dict)] *)
Definition is_dict (v : json) : bool :=
  match v with
  | JObj _ => true
  | _ => false
  end.

(** The fields [convert_to_chromadb_where] turns into predicates. *)
Definition filter_fields : list string :=
  ["region"; "product_version"; "category"; "deprecated"].

(** The metadata record agrees with every extracted filter value that
    [convert_to_chromadb_where] keeps. *)
Definition matches_filters (filters : dict json) (meta : dict mval) : bool :=
  forallb (fun field =>
             match dict_get field filters with
             | Some v => py_eq (dict_get field meta) v
             | None => true
             end)
          filter_fields.

(** Position (from 0) of the first item of [l] that satisfies [p]. *)
Fixpoint position_of_first (p : string -> bool) (l : list string)
    : option nat :=
  match l with
  | [] => None
  | x :: l' =>
      if p x then Some O else option_map S (position_of_first p l')
  end.

(** An article that has the five metadata keys [index_all] reads with
    [a["..."]]. *)
Definition complete (a : article) : bool :=
  match a_region a, a_product_version a, a_effective_date a, a_category a,
        a_deprecated a with
  | Some _, Some _, Some _, Some _, Some _ => true
  | _, _, _, _, _ => false
  end.

(** The metadata dict [index_all] stores for a complete article. *)
Definition stored_metadata (a : article) : dict mval :=
  [ ("region", MStr (get_or (a_region a) ""));
    ("product_version", MStr (get_or (a_product_version a) ""));
    ("effective_date", MStr (get_or (a_effective_date a) ""));
    ("category", MStr (get_or (a_category a) ""));
    ("deprecated", MBool (get_or (a_deprecated a) false));
    ("error_codes_str", MStr (join "," (get_or (a_error_codes a) []))) ].

(** The upsert call for the articles and embeddings of one batch. *)
Definition upsert_of (batch : list article) (vectors : list (list Q))
    : Indexer.upsert :=
  Indexer.mk_upsert (map a_doc_id batch) vectors
                    (map Indexer.document_of batch)
                    (map stored_metadata batch).

(** The keys whose absence makes [index_all] raise. *)
Definition required_keys : list string :=
  ["region"; "product_version"; "effective_date"; "category"; "deprecated"].

(** Induction on a JSON value that reaches the items of an array and the
    values of an object. *)
Section JsonInduction.
Variable P : json -> Prop.
Hypothesis on_null : P JNull.
Hypothesis on_bool : forall b, P (JBool b).
Hypothesis on_num : forall z, P (JNum z).
Hypothesis on_str : forall s, P (JStr s).
Hypothesis on_arr : forall l, Forall P l -> P (JArr l).
Hypothesis on_obj : forall d, Forall (fun kv => P (snd kv)) d -> P (JObj d).

Fixpoint json_nested_ind (j : json) : P j :=
  match j with
  | JNull => on_null
  | JBool b => on_bool b
  | JNum z => on_num z
  | JStr s => on_str s
  | JArr l =>
      on_arr l
        ((fix items (l : list json) : Forall P l :=
            match l with
            | [] => Forall_nil P
            | x :: l' => Forall_cons x (json_nested_ind x) (items l')
            end) l)
  | JObj d =>
      on_obj d
        ((fix values (d : list (string * json))
            : Forall (fun kv => P (snd kv)) d :=
            match d with
            | [] => Forall_nil _
            | kv :: d' =>
                Forall_cons kv (json_nested_ind (snd kv)) (values d')
            end) d)
  end.
End JsonInduction.

(** The requests in a trace of the embedding client, and the seconds it
    paused in all. *)
Definition embedding_requests (trace : list Embeddings.event)
    : list (list string) :=
  flat_map (fun ev => match ev with
                      | Embeddings.Create input => [input]
                      | Embeddings.Sleep _ => []
                      end) trace.

Definition embedding_pauses (trace : list Embeddings.event) : list Z :=
  flat_map (fun ev => match ev with
                      | Embeddings.Create _ => []
                      | Embeddings.Sleep s => [s]
                      end) trace.

(** The same for the rerank client. *)
Definition rerank_requests (trace : list Reranker.event)
    : list (string * list string) :=
  flat_map (fun ev => match ev with
                      | Reranker.Post q texts => [(q, texts)]
                      | Reranker.Sleep _ => []
                      end) trace.

Definition rerank_pauses (trace : list Reranker.event) : list Z :=
  flat_map (fun ev => match ev with
                      | Reranker.Post _ _ => []
                      | Reranker.Sleep s => [s]
                      end) trace.

(** The metadata of a stored document as [_chroma_to_results] reads it
    back with [meta.get]. *)
Definition as_returned (m : dict mval) : chroma_meta :=
  mk_chroma_meta
    (match dict_get "region" m with Some (MStr s) => Some s | _ => None end)
    (match dict_get "product_version" m with
     | Some (MStr s) => Some s
     | _ => None
     end)
    (match dict_get "category" m with Some (MStr s) => Some s | _ => None end)
    (match dict_get "deprecated" m with
     | Some (MBool b) => Some b
     | _ => None
     end).

(** A title the stored document text can be split back on: it holds no
    blank line and does not end in a newline. *)
Definition splits_back (title : string) : bool :=
  negb (is_substring [newline; newline]
                     (list_ascii_of_string title ++ [newline])).

(** An embedding service that answers every request, embedding each text
    on its own. *)
Definition sample_embedder (t : string) : list Q :=
  [inject_Z (Z.of_nat (String.length t))].

Definition sample_service (trace : list Embeddings.event)
    (input : list string) : outcome (list (list Q)) :=
  Returns (map sample_embedder input).

(** An embedding service that is down. *)
Definition service_down (trace : list Embeddings.event)
    (input : list string) : outcome (list (list Q)) :=
  Raises (ServiceError "unreachable").

(** A rerank endpoint that scores the texts in reverse order, one that
    times out, and one whose answer is not JSON. *)
Definition reversing_endpoint (trace : list Reranker.event) (q : string)
    (texts : list string) : outcome (list Reranker.tei_item) :=
  Returns (map (fun i => Reranker.mk_item (Z.of_nat i)
                           (inject_Z (Z.of_nat i)))
               (seq 0 (length texts))).

Definition endpoint_timing_out (trace : list Reranker.event) (q : string)
    (texts : list string) : outcome (list Reranker.tei_item) :=
  Raises TimeoutException.

Definition endpoint_malformed (trace : list Reranker.event) (q : string)
    (texts : list string) : outcome (list Reranker.tei_item) :=
  Raises ValueError.

Definition store_accepting (calls : list Indexer.upsert)
    (call : Indexer.upsert) : outcome unit :=
  Returns tt.

Definition sample_results : list result :=
  [ mk_result "d1" (Some (display_of sample_article)) (1 # 2) 1;
    mk_result "d2" (Some (display_of sample_article_us)) (1 # 3) 2 ].

(** An LLM that wraps its JSON answer in a markdown fence, and a parser
    that knows this one answer. *)
Definition fenced_reply : string :=
  string_of_list_ascii
    (fence ++ list_ascii_of_string "json" ++
     newline :: list_ascii_of_string "{}" ++ newline :: fence).

Definition sample_llm (query : string) : outcome string :=
  Returns fenced_reply.

Definition sample_loads (s : string) : option json :=
  if String.eqb s "{}" then Some (JObj []) else None.

(* ================================================================== *)
(** * Properties of the runtime helpers                               *)
(* ================================================================== *)

Lemma Qltb_lt (a b : Q) : Qltb a b = true <-> (a < b)%Q.
Proof.
  unfold Qltb. rewrite Qlt_alt.
  destruct (a ?= b)%Q; split; intro H; congruence.
Qed.

Lemma Qltb_ge (a b : Q) : Qltb a b = false <-> (b <= a)%Q.
Proof.
  split; intro H.
  - apply Qnot_lt_le. intro Hlt. apply Qltb_lt in Hlt. congruence.
  - destruct (Qltb a b) eqn:E; [|reflexivity].
    apply Qltb_lt in E. exfalso. exact (Qlt_not_le _ _ E H).
Qed.

(** ** Rounding to binary64 *)

Lemma pow2_pos (e : Z) : (0 < pow2 e)%Q.
Proof. apply Qpower_0_lt. reflexivity. Qed.

Lemma pow2_le (a b : Z) : a <= b -> (pow2 a <= pow2 b)%Q.
Proof. intro H. apply Qpower_le_compat_l; [exact H | discriminate]. Qed.

Lemma pow2_lt (a b : Z) : a < b -> (pow2 a < pow2 b)%Q.
Proof. intro H. apply Qpower_lt_compat_l; [exact H | reflexivity]. Qed.

Lemma pow2_lt_inv (a b : Z) : (pow2 a < pow2 b)%Q -> a < b.
Proof.
  intro H. destruct (Z.lt_ge_cases a b) as [Hlt|Hge]; [exact Hlt|].
  apply pow2_le in Hge. exfalso. exact (Qlt_not_le _ _ H Hge).
Qed.

Lemma pow2_add (a b : Z) : (pow2 (a + b) == pow2 a * pow2 b)%Q.
Proof. apply Qpower_plus. discriminate. Qed.

Lemma pow2_Z (n : Z) : 0 <= n -> (pow2 n == inject_Z (2 ^ n))%Q.
Proof. intro H. unfold pow2. rewrite Zpower_Qpower by exact H. reflexivity. Qed.

Lemma pow2_sub (a b : Z) : (pow2 (a - b) == pow2 a / pow2 b)%Q.
Proof.
  apply Qpower_minus. discriminate.
Qed.

Lemma Qdiv_lt_cross (A B C D : Z) :
  0 < B -> 0 < D -> A * D < C * B ->
  (inject_Z A / inject_Z B < inject_Z C / inject_Z D)%Q.
Proof.
  intros HB HD H.
  destruct B as [|p|p]; try lia. destruct D as [|q|q]; try lia.
  unfold Qlt, Qdiv, Qmult, Qinv, inject_Z. simpl.
  rewrite !Z.mul_1_r. exact H.
Qed.

Lemma Qdiv_le_cross (A B C D : Z) :
  0 < B -> 0 < D -> A * D <= C * B ->
  (inject_Z A / inject_Z B <= inject_Z C / inject_Z D)%Q.
Proof.
  intros HB HD H.
  destruct B as [|p|p]; try lia. destruct D as [|q|q]; try lia.
  unfold Qle, Qdiv, Qmult, Qinv, inject_Z. simpl.
  rewrite !Z.mul_1_r. exact H.
Qed.

Lemma pow2_frac (a b : Z) :
  0 <= a -> 0 <= b -> (pow2 (a - b) == inject_Z (2 ^ a) / inject_Z (2 ^ b))%Q.
Proof.
  intros Ha Hb. rewrite pow2_sub, !pow2_Z by assumption. reflexivity.
Qed.

Lemma mag_bounds (x : Q) :
  (0 < x)%Q ->
  let c := Z.log2 (Qnum x) - Z.log2 (Zpos (Qden x)) in
  (pow2 (c - 1) < x)%Q /\ (x < pow2 (c + 1))%Q.
Proof.
  destruct x as [n d]. intro Hx. cbn [Qnum Qden].
  assert (Hn : 0 < n) by (unfold Qlt in Hx; simpl in Hx; lia).
  pose proof (Z.log2_spec n Hn) as [Ha1 Ha2].
  pose proof (Z.log2_spec (Zpos d) eq_refl) as [Hb1 Hb2].
  pose proof (Z.log2_nonneg n) as Ha0.
  pose proof (Z.log2_nonneg (Zpos d)) as Hb0.
  set (a := Z.log2 n) in *. set (b := Z.log2 (Zpos d)) in *.
  assert (Hpa : 0 < 2 ^ a) by (apply Z.pow_pos_nonneg; lia).
  assert (Hpb : 0 < 2 ^ b) by (apply Z.pow_pos_nonneg; lia).
  assert (Hx' : (n # d == inject_Z n / inject_Z (Zpos d))%Q)
    by apply Qmake_Qdiv.
  cbv zeta. split.
  - replace (a - b - 1) with (a - Z.succ b) by lia.
    rewrite pow2_frac by lia. rewrite Hx'.
    apply Qdiv_lt_cross; try lia. nia.
  - replace (a - b + 1) with (Z.succ a - b) by lia.
    rewrite pow2_frac by lia. rewrite Hx'.
    apply Qdiv_lt_cross; try lia. nia.
Qed.

Lemma mag_spec (x : Q) :
  (0 < x)%Q -> (pow2 (mag x - 1) <= x)%Q /\ (x < pow2 (mag x))%Q.
Proof.
  intro Hx. destruct (mag_bounds x Hx) as [H1 H2]. cbv zeta in H1, H2.
  unfold mag.
  set (c := Z.log2 (Qnum x) - Z.log2 (Zpos (Qden x))) in *.
  destruct (Qle_bool (pow2 c) x) eqn:E.
  - apply Qle_bool_iff in E. replace (c + 1 - 1) with c by lia. auto.
  - split; [apply Qlt_le_weak; exact H1|].
    apply Qnot_le_lt. intro H. apply Qle_bool_iff in H. congruence.
Qed.

Lemma mag_le (x y : Q) : (0 < x)%Q -> (x <= y)%Q -> mag x <= mag y.
Proof.
  intros Hx Hxy.
  assert (Hy : (0 < y)%Q) by (eapply Qlt_le_trans; eassumption).
  destruct (mag_spec x Hx) as [H1 _]. destruct (mag_spec y Hy) as [_ H2].
  assert (H : (pow2 (mag x - 1) < pow2 (mag y))%Q).
  { eapply Qle_lt_trans; [exact H1|]. eapply Qle_lt_trans; eassumption. }
  apply pow2_lt_inv in H. lia.
Qed.


Lemma round_half_even_range (y : Q) :
  Qfloor y <= round_half_even y <= Qfloor y + 1.
Proof.
  unfold round_half_even.
  destruct (y - inject_Z (Qfloor y) ?= 1 # 2)%Q;
    [destruct (Z.even (Qfloor y))| |]; lia.
Qed.

Lemma round_half_even_Z (n : Z) : round_half_even (inject_Z n) = n.
Proof.
  unfold round_half_even. rewrite Qfloor_Z.
  assert (H : (inject_Z n - inject_Z n ?= 1 # 2)%Q = Lt).
  { apply Qlt_alt. setoid_replace (inject_Z n - inject_Z n)%Q with 0%Q by ring.
    reflexivity. }
  rewrite H. reflexivity.
Qed.

Lemma round_half_even_le (a b : Q) :
  (a <= b)%Q -> round_half_even a <= round_half_even b.
Proof.
  intro Hab. pose proof (Qfloor_resp_le a b Hab) as Hf.
  pose proof (round_half_even_range a) as Ha.
  pose proof (round_half_even_range b) as Hb.
  destruct (Z.eq_dec (Qfloor a) (Qfloor b)) as [E|E]; [|lia].
  unfold round_half_even in *. rewrite <- E in *.
  set (f := Qfloor a) in *.
  destruct (a - inject_Z f ?= 1 # 2)%Q eqn:Ea;
    destruct (b - inject_Z f ?= 1 # 2)%Q eqn:Eb;
    try destruct (Z.even f); try lia; exfalso.
  - apply Qeq_alt in Ea. apply Qlt_alt in Eb.
    assert (H : (a - inject_Z f <= b - inject_Z f)%Q)
      by (apply Qplus_le_l; exact Hab).
    rewrite Ea in H. exact (Qlt_not_le _ _ Eb H).
  - apply Qgt_alt in Ea. apply Qeq_alt in Eb.
    assert (H : (a - inject_Z f <= b - inject_Z f)%Q)
      by (apply Qplus_le_l; exact Hab).
    rewrite Eb in H. exact (Qlt_not_le _ _ Ea H).
  - apply Qgt_alt in Ea. apply Qlt_alt in Eb.
    assert (H : (a - inject_Z f <= b - inject_Z f)%Q)
      by (apply Qplus_le_l; exact Hab).
    apply (Qlt_not_le _ _ Eb). eapply Qle_trans; [|exact H].
    apply Qlt_le_weak. exact Ea.
  - apply Qgt_alt in Ea. apply Qlt_alt in Eb.
    assert (H : (a - inject_Z f <= b - inject_Z f)%Q)
      by (apply Qplus_le_l; exact Hab).
    apply (Qlt_not_le _ _ Eb). eapply Qle_trans; [|exact H].
    apply Qlt_le_weak. exact Ea.
Qed.

Lemma round_half_even_le_Z (y : Q) (n : Z) :
  (y <= inject_Z n)%Q -> round_half_even y <= n.
Proof.
  intro H. rewrite <- (round_half_even_Z n). apply round_half_even_le, H.
Qed.

Lemma round_half_even_ge_Z (y : Q) (n : Z) :
  (inject_Z n <= y)%Q -> n <= round_half_even y.
Proof.
  intro H. rewrite <- (round_half_even_Z n). apply round_half_even_le, H.
Qed.

Lemma round_magnitude_unfold (x : Q) :
  round_magnitude x
  = (inject_Z (round_half_even (x / pow2 (exponent x))) * pow2 (exponent x))%Q.
Proof. reflexivity. Qed.

Lemma scaled_le (x : Q) (e m : Z) :
  (x <= pow2 m)%Q -> e <= m ->
  (inject_Z (round_half_even (x / pow2 e)) * pow2 e <= pow2 m)%Q.
Proof.
  intros Hx Hem.
  assert (Hp : (pow2 m == inject_Z (2 ^ (m - e)) * pow2 e)%Q).
  { rewrite <- pow2_Z by lia. rewrite <- pow2_add. f_equiv. lia. }
  rewrite Hp. apply Qmult_le_compat_r; [|apply Qlt_le_weak, pow2_pos].
  rewrite <- Zle_Qle. apply round_half_even_le_Z.
  apply Qle_shift_div_r; [apply pow2_pos|]. rewrite <- Hp. exact Hx.
Qed.

Lemma scaled_ge (x : Q) (e m : Z) :
  (pow2 m <= x)%Q -> e <= m ->
  (pow2 m <= inject_Z (round_half_even (x / pow2 e)) * pow2 e)%Q.
Proof.
  intros Hx Hem.
  assert (Hp : (pow2 m == inject_Z (2 ^ (m - e)) * pow2 e)%Q).
  { rewrite <- pow2_Z by lia. rewrite <- pow2_add. f_equiv. lia. }
  rewrite Hp. apply Qmult_le_compat_r; [|apply Qlt_le_weak, pow2_pos].
  rewrite <- Zle_Qle. apply round_half_even_ge_Z.
  apply Qle_shift_div_l; [apply pow2_pos|]. rewrite <- Hp. exact Hx.
Qed.

Lemma round_magnitude_nonneg (x : Q) : (0 <= x)%Q -> (0 <= round_magnitude x)%Q.
Proof.
  intro Hx. rewrite round_magnitude_unfold.
  apply Qmult_le_0_compat; [|apply Qlt_le_weak, pow2_pos].
  change 0%Q with (inject_Z 0). rewrite <- Zle_Qle.
  apply round_half_even_ge_Z. apply Qle_shift_div_l; [apply pow2_pos|].
  rewrite Qmult_0_l. exact Hx.
Qed.

Lemma round_magnitude_le (x y : Q) :
  (0 <= x)%Q -> (x <= y)%Q -> (round_magnitude x <= round_magnitude y)%Q.
Proof.
  intros Hx Hxy.
  destruct (Qlt_le_dec 0 x) as [Hpos|Hzero].
  2:{ (* x == 0 *)
    assert (Hx0 : (x == 0)%Q) by (apply Qle_antisym; assumption).
    eapply Qle_trans; [|apply round_magnitude_nonneg; eapply Qle_trans; eassumption].
    rewrite round_magnitude_unfold.
    assert (H : round_half_even (x / pow2 (exponent x)) <= 0).
    { apply round_half_even_le_Z. apply Qle_shift_div_r; [apply pow2_pos|].
      rewrite Qmult_0_l. exact Hzero. }
    rewrite <- (Qmult_0_l (pow2 (exponent x))).
    apply Qmult_le_compat_r; [|apply Qlt_le_weak, pow2_pos].
    change 0%Q with (inject_Z 0). rewrite <- Zle_Qle. exact H. }
  assert (Hy : (0 < y)%Q) by (eapply Qlt_le_trans; eassumption).
  pose proof (mag_le x y Hpos Hxy) as Hmag.
  destruct (mag_spec x Hpos) as [_ Hx2]. destruct (mag_spec y Hy) as [Hy1 _].
  rewrite !round_magnitude_unfold.
  destruct (Z.eq_dec (exponent x) (exponent y)) as [E|E].
  - rewrite E. apply Qmult_le_compat_r; [|apply Qlt_le_weak, pow2_pos].
    rewrite <- Zle_Qle. apply round_half_even_le.
    apply Qmult_le_compat_r; [exact Hxy|].
    apply Qlt_le_weak, Qinv_lt_0_compat, pow2_pos.
  - assert (Hlt : exponent x < exponent y) by (unfold exponent in *; lia).
    assert (Hey : exponent y = mag y - 53) by (unfold exponent in *; lia).
    apply Qle_trans with (pow2 (Z.max (mag x) (exponent x))).
    + apply scaled_le; [|lia].
      eapply Qle_trans; [apply Qlt_le_weak; exact Hx2|]. apply pow2_le. lia.
    + apply Qle_trans with (pow2 (mag y - 1)).
      * apply pow2_le. unfold exponent in *. lia.
      * apply scaled_ge; [exact Hy1 | lia].
Qed.

Lemma round_float_le (x y : Q) :
  (x <= y)%Q -> (round_float x <= round_float y)%Q.
Proof.
  intro Hxy. unfold round_float.
  destruct (Qcompare_spec x 0) as [Ex|Ex|Ex];
    destruct (Qcompare_spec y 0) as [Ey|Ey|Ey].
  - apply round_magnitude_le; [rewrite Ex; apply Qle_refl | exact Hxy].
  - exfalso. rewrite Ex in Hxy. exact (Qlt_not_le _ _ Ey Hxy).
  - apply round_magnitude_le; [rewrite Ex; apply Qle_refl | exact Hxy].
  - apply Qle_trans with 0%Q.
    + rewrite <- (Qopp_involutive 0). apply Qopp_le_compat.
      apply round_magnitude_nonneg. rewrite <- (Qopp_involutive 0).
      apply Qopp_le_compat. apply Qlt_le_weak. exact Ex.
    + apply round_magnitude_nonneg. rewrite Ey. apply Qle_refl.
  - apply Qopp_le_compat. apply round_magnitude_le.
    + rewrite <- (Qopp_involutive 0). apply Qopp_le_compat.
      apply Qlt_le_weak. exact Ey.
    + apply Qopp_le_compat. exact Hxy.
  - apply Qle_trans with 0%Q.
    + rewrite <- (Qopp_involutive 0). apply Qopp_le_compat.
      apply round_magnitude_nonneg. rewrite <- (Qopp_involutive 0).
      apply Qopp_le_compat. apply Qlt_le_weak. exact Ex.
    + apply round_magnitude_nonneg. apply Qlt_le_weak. exact Ey.
  - exfalso. apply (Qlt_not_le _ _ Ex). rewrite <- Ey. exact Hxy.
  - exfalso. apply (Qlt_not_le 0 x Ex). eapply Qle_trans; [exact Hxy|].
    apply Qlt_le_weak. exact Ey.
  - apply round_magnitude_le; [apply Qlt_le_weak; exact Ex | exact Hxy].
Qed.


Lemma round_half_even_comp (a b : Q) :
  (a == b)%Q -> round_half_even a = round_half_even b.
Proof.
  intro H. apply Z.le_antisymm; apply round_half_even_le; rewrite H;
    apply Qle_refl.
Qed.

(** A non-negative multiple [m * 2^e] of a power of two with
    [e >= -1074] and [m <= 2^53] is a binary64 number. *)
Lemma round_magnitude_exact (m e : Z) :
  0 <= m <= 2 ^ 53 -> -1074 <= e ->
  (round_magnitude (inject_Z m * pow2 e) == inject_Z m * pow2 e)%Q.
Proof.
  intros Hm He. set (y := (inject_Z m * pow2 e)%Q).
  destruct (Z.eq_dec m 0) as [->|Hm0].
  { rewrite round_magnitude_unfold.
    assert (H : (y / pow2 (exponent y) == inject_Z 0)%Q).
    { unfold y. field. apply Qnot_eq_sym, Qlt_not_eq, pow2_pos. }
    rewrite (round_half_even_comp _ _ H), round_half_even_Z.
    unfold y. ring. }
  assert (Hy : (0 < y)%Q).
  { unfold y. apply Qmult_lt_0_compat; [|apply pow2_pos].
    change 0%Q with (inject_Z 0). rewrite <- Zlt_Qlt. lia. }
  destruct (mag_spec y Hy) as [H1 H2].
  assert (Hint : forall e', e' <= e ->
            (inject_Z (round_half_even (y / pow2 e')) * pow2 e' == y)%Q).
  { intros e' He'.
    assert (H : (y / pow2 e' == inject_Z (m * 2 ^ (e - e')))%Q).
    { unfold y. rewrite inject_Z_mult, <- pow2_Z by lia.
      rewrite pow2_sub. field.
      apply Qnot_eq_sym, Qlt_not_eq, pow2_pos. }
    rewrite (round_half_even_comp _ _ H), round_half_even_Z.
    rewrite <- H. field. apply Qnot_eq_sym, Qlt_not_eq, pow2_pos. }
  rewrite round_magnitude_unfold.
  destruct (Z_le_gt_dec (exponent y) e) as [Hle|Hgt]; [apply Hint, Hle|].
  (* the exponent is above [e]: [y] is the power of two [2^(e+53)] *)
  assert (Hmag : e + 53 < mag y) by (unfold exponent in Hgt; lia).
  assert (Hbig : (pow2 (e + 53) <= y)%Q).
  { eapply Qle_trans; [|exact H1]. apply pow2_le. lia. }
  assert (Hm53 : m = 2 ^ 53).
  { apply Z.le_antisymm; [lia|].
    unfold y in Hbig. rewrite pow2_add in Hbig.
    rewrite (Qmult_comm (pow2 e)) in Hbig.
    apply Qmult_le_r in Hbig; [|apply pow2_pos].
    rewrite pow2_Z in Hbig by lia. rewrite <- Zle_Qle in Hbig. exact Hbig. }
  assert (Hy' : (y == pow2 (e + 54 - 1))%Q).
  { unfold y. rewrite Hm53, <- pow2_Z, <- pow2_add by lia. f_equiv. lia. }
  assert (Hmag' : mag y = e + 54).
  { apply Z.le_antisymm; [|lia].
    assert (H : (pow2 (mag y - 1) < pow2 (e + 54))%Q).
    { eapply Qle_lt_trans; [exact H1|]. rewrite Hy'. apply pow2_lt. lia. }
    apply pow2_lt_inv in H. lia. }
  assert (Hexp : exponent y = e + 1) by (unfold exponent; lia).
  rewrite Hexp.
  assert (H : (y / pow2 (e + 1) == inject_Z (2 ^ 52))%Q).
  { rewrite Hy', <- pow2_Z by lia.
    replace (e + 54 - 1) with (52 + (e + 1)) by lia. rewrite pow2_add.
    field. apply Qnot_eq_sym, Qlt_not_eq, pow2_pos. }
  rewrite (round_half_even_comp _ _ H), round_half_even_Z.
  rewrite <- H. field. apply Qnot_eq_sym, Qlt_not_eq, pow2_pos.
Qed.

(** The mantissa of a rounded magnitude has at most 53 bits, or is
    [2^53]. *)
Lemma mantissa_bounds (x : Q) :
  (0 <= x)%Q -> 0 <= round_half_even (x / pow2 (exponent x)) <= 2 ^ 53.
Proof.
  intro Hx. split.
  - apply round_half_even_ge_Z. apply Qle_shift_div_l; [apply pow2_pos|].
    rewrite Qmult_0_l. exact Hx.
  - apply round_half_even_le_Z. apply Qle_shift_div_r; [apply pow2_pos|].
    destruct (Qlt_le_dec 0 x) as [Hpos|Hzero].
    + destruct (mag_spec x Hpos) as [_ H2].
      eapply Qle_trans; [apply Qlt_le_weak; exact H2|].
      rewrite <- pow2_Z, <- pow2_add by lia. apply pow2_le.
      unfold exponent. lia.
    + eapply Qle_trans; [exact Hzero|].
      apply Qmult_le_0_compat; [|apply Qlt_le_weak, pow2_pos].
      change 0%Q with (inject_Z 0). rewrite <- Zle_Qle. lia.
Qed.

Lemma round_magnitude_idempotent (x : Q) :
  (0 <= x)%Q ->
  (round_magnitude (round_magnitude x) == round_magnitude x)%Q.
Proof.
  intro Hx. rewrite (round_magnitude_unfold x).
  apply round_magnitude_exact; [apply mantissa_bounds, Hx|].
  unfold exponent. lia.
Qed.

Lemma round_float_comp (x y : Q) :
  (x == y)%Q -> (round_float x == round_float y)%Q.
Proof.
  intro H. apply Qle_antisym; apply round_float_le; rewrite H; apply Qle_refl.
Qed.

Lemma Qopp_opp (z : Q) : (- - z)%Q = z.
Proof. destruct z as [n d]. unfold Qopp. simpl. rewrite Z.opp_involutive. reflexivity. Qed.

Lemma round_float_nonneg (x : Q) :
  (0 <= x)%Q -> round_float x = round_magnitude x.
Proof.
  intro H. unfold round_float.
  destruct (Qcompare_spec x 0) as [E|E|E]; try reflexivity.
  exfalso. exact (Qlt_not_le _ _ E H).
Qed.

Lemma round_float_neg (x : Q) :
  (x < 0)%Q -> round_float x = (- round_magnitude (- x))%Q.
Proof.
  intro H. unfold round_float.
  destruct (Qcompare_spec x 0) as [E|E|E]; try reflexivity; exfalso.
  - rewrite E in H. discriminate.
  - exact (Qlt_not_le _ _ H (Qlt_le_weak _ _ E)).
Qed.

Lemma round_float_0 : (round_float 0 == 0)%Q.
Proof. reflexivity. Qed.

Lemma round_float_opp (x : Q) : (round_float (- x) == - round_float x)%Q.
Proof.
  destruct (Qcompare_spec x 0) as [E|E|E].
  - rewrite (round_float_comp x 0 E).
    assert (E' : (- x == 0)%Q) by (rewrite E; reflexivity).
    rewrite (round_float_comp (- x) 0 E'). reflexivity.
  - rewrite (round_float_neg x E).
    rewrite round_float_nonneg.
    + rewrite Qopp_opp. reflexivity.
    + rewrite <- (Qopp_opp 0). apply Qopp_le_compat, Qlt_le_weak. exact E.
  - rewrite (round_float_nonneg x (Qlt_le_weak _ _ E)).
    rewrite round_float_neg; [rewrite Qopp_opp; reflexivity|].
    rewrite <- (Qopp_opp 0). apply Qopp_lt_compat. exact E.
Qed.

(** Rounding twice is rounding once: the result of an operation is a
    binary64 number. *)
Lemma round_float_idempotent (x : Q) :
  (round_float (round_float x) == round_float x)%Q.
Proof.
  assert (Hpos : forall z, (0 <= z)%Q ->
            (round_float (round_float z) == round_float z)%Q).
  { intros z Hz. rewrite (round_float_nonneg z Hz).
    rewrite round_float_nonneg by (apply round_magnitude_nonneg, Hz).
    apply round_magnitude_idempotent, Hz. }
  destruct (Qlt_le_dec x 0) as [Hneg|Hnn]; [|apply Hpos, Hnn].
  assert (H1 : (round_float x == - round_float (- x))%Q).
  { rewrite <- round_float_opp, Qopp_opp. reflexivity. }
  rewrite (round_float_comp _ _ H1), round_float_opp, H1.
  apply Qopp_comp. apply Hpos.
  rewrite <- (Qopp_opp 0). apply Qopp_le_compat, Qlt_le_weak. exact Hneg.
Qed.

(** Integers of at most 53 bits are binary64 numbers. *)
Lemma round_float_Z (n : Z) :
  Z.abs n <= 2 ^ 53 -> (round_float (inject_Z n) == inject_Z n)%Q.
Proof.
  assert (Hpos : forall m, 0 <= m <= 2 ^ 53 ->
            (round_float (inject_Z m) == inject_Z m)%Q).
  { intros m Hm.
    assert (E : (inject_Z m == inject_Z m * pow2 0)%Q)
      by (unfold pow2; simpl; ring).
    rewrite (round_float_comp _ _ E).
    rewrite round_float_nonneg.
    - rewrite round_magnitude_exact by lia. symmetry. exact E.
    - rewrite <- E. change 0%Q with (inject_Z 0). rewrite <- Zle_Qle. lia. }
  intro Hn. destruct (Z_le_gt_dec 0 n) as [H|H]; [apply Hpos; lia|].
  assert (E : (inject_Z n == - inject_Z (- n))%Q)
    by (rewrite inject_Z_opp, Qopp_opp; reflexivity).
  rewrite (round_float_comp _ _ E), round_float_opp, Hpos by lia.
  symmetry. exact E.
Qed.

Lemma float_of_int_fits (n : Z) :
  Z.abs n <= float_max_int ->
  float_of_int n = Ok (round_float (inject_Z n)).
Proof.
  intro Hn. unfold float_of_int. cbv zeta.
  set (x := round_float (inject_Z n)).
  set (U := round_float (inject_Z float_max_int)).
  assert (HU : (U < pow2 1024)%Q) by (apply Qlt_alt; vm_compute; reflexivity).
  assert (Hx : (Qabs x <= U)%Q).
  { apply Qabs_Qle_condition. split.
    - assert (E : (- U == round_float (inject_Z (- float_max_int)))%Q).
      { unfold U. rewrite <- round_float_opp. apply round_float_comp.
        rewrite inject_Z_opp. reflexivity. }
      rewrite E. apply round_float_le. rewrite <- Zle_Qle. lia.
    - apply round_float_le. rewrite <- Zle_Qle. lia. }
  destruct (Qle_bool (pow2 1024) (Qabs x)) eqn:E; [|reflexivity].
  apply Qle_bool_iff in E. exfalso. apply (Qlt_not_le _ _ HU).
  eapply Qle_trans; eassumption.
Qed.

Lemma float_of_int_overflows (n : Z) :
  float_max_int < Z.abs n -> float_of_int n = Raise OverflowError.
Proof.
  intro Hn. unfold float_of_int. cbv zeta.
  set (x := round_float (inject_Z n)).
  set (V := round_float (inject_Z (float_max_int + 1))).
  assert (HV : (pow2 1024 <= V)%Q) by (apply Qle_bool_iff; vm_compute; reflexivity).
  assert (Hx : (pow2 1024 <= Qabs x)%Q).
  { destruct (Z_le_gt_dec 0 n) as [H|H].
    - apply Qabs_ge. eapply Qle_trans; [exact HV|].
      apply round_float_le. rewrite <- Zle_Qle. lia.
    - rewrite <- Qabs_opp. apply Qabs_ge. eapply Qle_trans; [exact HV|].
      unfold x. rewrite <- round_float_opp. apply round_float_le.
      rewrite <- inject_Z_opp, <- Zle_Qle. lia. }
  apply Qle_bool_iff in Hx. rewrite Hx. reflexivity.
Qed.

Lemma round_float_int_nonzero (n : Z) :
  n <> 0 -> (1 <= Qabs (round_float (inject_Z n)))%Q.
Proof.
  intro Hn.
  assert (H1 : (round_float (inject_Z 1) == 1)%Q) by reflexivity.
  destruct (Z_le_gt_dec 0 n) as [H|H].
  - apply Qabs_ge. rewrite <- H1. apply round_float_le.
    rewrite <- Zle_Qle. lia.
  - rewrite <- Qabs_opp. apply Qabs_ge. rewrite <- H1.
    rewrite <- round_float_opp. apply round_float_le.
    rewrite <- inject_Z_opp, <- Zle_Qle. lia.
Qed.

Lemma reciprocal_defined (k rank : Z) :
  k + rank <> 0 -> Z.abs (k + rank) <= float_max_int ->
  reciprocal k rank = Ok (rrf_term k rank).
Proof.
  intros Hnz Hfit. unfold reciprocal. rewrite float_of_int_fits by exact Hfit.
  cbn [bind].
  destruct (Qeq_bool (round_float (inject_Z (k + rank))) 0) eqn:E;
    [|reflexivity].
  apply Qeq_bool_iff in E. pose proof (round_float_int_nonzero _ Hnz) as H.
  rewrite E in H. exfalso. apply H. reflexivity.
Qed.

Lemma reciprocal_of_zero (k rank : Z) :
  k + rank = 0 -> reciprocal k rank = Raise ZeroDivisionError.
Proof. intro H. unfold reciprocal. rewrite H. reflexivity. Qed.

Lemma reciprocal_overflows (k rank : Z) :
  float_max_int < Z.abs (k + rank) -> reciprocal k rank = Raise OverflowError.
Proof.
  intro H. unfold reciprocal. rewrite float_of_int_overflows by exact H.
  reflexivity.
Qed.

Lemma reciprocal_ok_inv (k rank : Z) (t : Q) :
  reciprocal k rank = Ok t ->
  k + rank <> 0 /\ Z.abs (k + rank) <= float_max_int /\ t = rrf_term k rank.
Proof.
  intro H.
  destruct (Z.eq_dec (k + rank) 0) as [E|E].
  { rewrite reciprocal_of_zero in H by exact E. discriminate. }
  destruct (Z_le_gt_dec (Z.abs (k + rank)) float_max_int) as [F|F].
  - rewrite reciprocal_defined in H by assumption. injection H as <-. auto.
  - rewrite reciprocal_overflows in H by lia. discriminate.
Qed.

(** A larger denominator gives a quotient that is not larger. *)
Lemma rrf_term_antitone (k r1 r2 : Z) :
  0 < k + r1 -> r1 <= r2 -> (rrf_term k r2 <= rrf_term k r1)%Q.
Proof.
  intros H1 H2. unfold rrf_term, float_div.
  set (a := round_float (inject_Z (k + r1))).
  set (b := round_float (inject_Z (k + r2))).
  assert (Ha : (1 <= a)%Q).
  { assert (E : (round_float (inject_Z 1) == 1)%Q) by reflexivity.
    rewrite <- E. apply round_float_le. rewrite <- Zle_Qle. lia. }
  assert (Hab : (a <= b)%Q) by (apply round_float_le; rewrite <- Zle_Qle; lia).
  assert (Ha0 : (0 < a)%Q) by (eapply Qlt_le_trans; [|exact Ha]; reflexivity).
  assert (Hb0 : (0 < b)%Q) by (eapply Qlt_le_trans; eassumption).
  apply round_float_le.
  apply Qle_shift_div_l; [exact Ha0|].
  unfold Qdiv. rewrite Qmult_1_l, Qmult_comm.
  apply Qle_shift_div_r; [exact Hb0|]. rewrite Qmult_1_l. exact Hab.
Qed.

Lemma rrf_term_size (k rank : Z) : k + rank <> 0 -> (Qabs (rrf_term k rank) <= 1)%Q.
Proof.
  intro Hnz. unfold rrf_term, float_div.
  pose proof (round_float_int_nonzero _ Hnz) as H.
  set (a := round_float (inject_Z (k + rank))) in *.
  assert (E1 : (round_float 1 == 1)%Q) by reflexivity.
  assert (Em : (round_float (- (1)) == - (1))%Q) by reflexivity.
  assert (Hq : (Qabs (1 / a) <= 1)%Q).
  { unfold Qdiv. rewrite Qmult_1_l, Qabs_Qinv.
    assert (Hpos : (0 < Qabs a)%Q) by (eapply Qlt_le_trans; [|exact H]; reflexivity).
    change (/ Qabs a)%Q with (/ Qabs a)%Q.
    setoid_replace (/ Qabs a)%Q with (1 / Qabs a)%Q
      by (unfold Qdiv; rewrite Qmult_1_l; reflexivity).
    apply Qle_shift_div_r; [exact Hpos|]. rewrite Qmult_1_l. exact H. }
  apply Qabs_Qle_condition in Hq. destruct Hq as [Hlo Hhi].
  apply Qabs_Qle_condition. split.
  - apply Qle_trans with (round_float (- (1))).
    + rewrite Em. apply Qle_refl.
    + apply round_float_le. exact Hlo.
  - apply Qle_trans with (round_float 1).
    + apply round_float_le. exact Hhi.
    + rewrite E1. apply Qle_refl.
Qed.

Lemma float_add_size (acc t : Q) (j : Z) :
  0 <= j < 2 ^ 53 -> (Qabs acc <= inject_Z j)%Q -> (Qabs t <= 1)%Q ->
  (Qabs (float_add acc t) <= inject_Z (j + 1))%Q.
Proof.
  intros Hj Hacc Ht. unfold float_add.
  assert (Hs : (Qabs (acc + t) <= inject_Z (j + 1))%Q).
  { eapply Qle_trans; [apply Qabs_triangle|].
    rewrite inject_Z_plus. apply Qplus_le_compat; assumption. }
  apply Qabs_Qle_condition in Hs. destruct Hs as [Hlo Hhi].
  apply Qabs_Qle_condition. split.
  - rewrite <- (round_float_Z (j + 1)) by lia.
    rewrite <- round_float_opp. apply round_float_le. exact Hlo.
  - rewrite <- (round_float_Z (j + 1)) by lia. apply round_float_le.
    exact Hhi.
Qed.

Section SortedFacts.
Context {A : Type} (key : A -> Q).

Lemma insert_desc_perm (x : A) (l : list A) :
  Permutation (insert_desc key x l) (x :: l).
Proof.
  induction l as [|y l IH]; simpl.
  - apply Permutation_refl.
  - destruct (Qltb (key x) (key y)).
    + eapply perm_trans; [apply perm_skip, IH | apply perm_swap].
    + apply Permutation_refl.
Qed.

Lemma sorted_desc_perm (l : list A) : Permutation (sorted_desc key l) l.
Proof.
  induction l as [|x l IH]; simpl.
  - constructor.
  - eapply perm_trans; [apply insert_desc_perm | apply perm_skip, IH].
Qed.

Lemma sorted_desc_length (l : list A) :
  length (sorted_desc key l) = length l.
Proof. apply Permutation_length, sorted_desc_perm. Qed.

Lemma insert_desc_sorted (before : A -> A -> Prop) (x : A) (l : list A) :
  Forall (before x) l ->
  StronglySorted (ranks_before key before) l ->
  StronglySorted (ranks_before key before) (insert_desc key x l).
Proof.
  intros Hx Hs. induction Hs as [|y l Hs IH Hy]; simpl.
  - constructor; constructor.
  - inversion Hx as [|? ? Hxy Hxl]; subst.
    destruct (Qltb (key x) (key y)) eqn:E.
    + constructor; [apply IH; assumption|].
      eapply Permutation_Forall;
        [apply Permutation_sym, insert_desc_perm|].
      constructor; [|assumption].
      left. apply Qltb_lt. exact E.
    + apply Qltb_ge in E.
      constructor; [constructor; assumption|].
      assert (Hxy' : ranks_before key before x y).
      { destruct (Qle_lt_or_eq _ _ E) as [Hlt|Heq].
        - left. exact Hlt.
        - right. split; [symmetry; exact Heq | exact Hxy]. }
      constructor; [exact Hxy'|].
      rewrite Forall_forall in *. intros z Hz.
      destruct (Hy z Hz) as [Hlt|[Heq Hb]].
      * left. eapply Qlt_le_trans; eassumption.
      * destruct Hxy' as [Hlt|[Heq' _]].
        -- left. rewrite <- Heq. exact Hlt.
        -- right. split; [rewrite Heq'; exact Heq | apply Hxl, Hz].
Qed.

Lemma sorted_desc_sorted (before : A -> A -> Prop) (l : list A) :
  StronglySorted before l ->
  StronglySorted (ranks_before key before) (sorted_desc key l).
Proof.
  induction 1 as [|x l Hs IH Hx]; simpl.
  - constructor.
  - apply insert_desc_sorted; [|exact IH].
    eapply Permutation_Forall;
      [apply Permutation_sym, sorted_desc_perm | exact Hx].
Qed.

(** With all keys equal the sort changes nothing. *)
Lemma sorted_desc_flat (l : list A) :
  (forall x y, In x l -> In y l -> Qltb (key x) (key y) = false) ->
  sorted_desc key l = l.
Proof.
  induction l as [|x l IH]; intro H; simpl; [reflexivity|].
  rewrite IH by (intros; apply H; right; assumption).
  destruct l as [|y l]; simpl; [reflexivity|].
  rewrite H; [reflexivity | left; reflexivity | right; left; reflexivity].
Qed.
End SortedFacts.

Lemma insert_desc_map {A B : Type} (key : B -> Q) (f : A -> B) (x : A)
    (l : list A) :
  insert_desc key (f x) (map f l) =
  map f (insert_desc (fun a => key (f a)) x l).
Proof.
  induction l as [|y l IH]; simpl; [reflexivity|].
  destruct (Qltb (key (f x)) (key (f y))); simpl; [rewrite IH|]; reflexivity.
Qed.

Lemma sorted_desc_map {A B : Type} (key : B -> Q) (f : A -> B) (l : list A) :
  sorted_desc key (map f l) = map f (sorted_desc (fun a => key (f a)) l).
Proof.
  induction l as [|x l IH]; simpl; [reflexivity|].
  rewrite IH. apply insert_desc_map.
Qed.

Lemma sorted_desc_ext {A : Type} (key key' : A -> Q) (l : list A) :
  (forall x, key x = key' x) -> sorted_desc key l = sorted_desc key' l.
Proof.
  intro H. induction l as [|x l IH]; simpl; [reflexivity|].
  rewrite IH. generalize (sorted_desc key' l). intro s.
  induction s as [|y s IHs]; simpl; [reflexivity|].
  rewrite !H, IHs. reflexivity.
Qed.

Lemma enumerate_fst {A : Type} (l : list A) (start : Z) :
  map fst (enumerate start l) = counting start (length l).
Proof.
  revert start. induction l as [|x l IH]; intro start; simpl;
    [|rewrite IH]; reflexivity.
Qed.

Lemma enumerate_snd {A : Type} (l : list A) (start : Z) :
  map snd (enumerate start l) = l.
Proof.
  revert start. induction l as [|x l IH]; intro start; simpl;
    [|rewrite IH]; reflexivity.
Qed.

Lemma enumerate_length {A : Type} (l : list A) (start : Z) :
  length (enumerate start l) = length l.
Proof. rewrite <- (length_map fst), enumerate_fst.
  generalize start. induction (length l); intro; simpl; auto.
Qed.

Lemma enumerate_map {A B : Type} (f : A -> B) (l : list A) (start : Z) :
  enumerate start (map f l) =
  map (fun p => (fst p, f (snd p))) (enumerate start l).
Proof.
  revert start. induction l as [|x l IH]; intro start; simpl;
    [|rewrite IH]; reflexivity.
Qed.

Lemma counting_length (start : Z) (n : nat) : length (counting start n) = n.
Proof. revert start. induction n; intro; simpl; auto. Qed.

Lemma counting_firstn (start : Z) (n m : nat) :
  firstn m (counting start n) = counting start (Nat.min m n).
Proof.
  revert start m. induction n as [|n IH]; intros start m.
  - rewrite Nat.min_0_r. destruct m; reflexivity.
  - destruct m as [|m]; simpl; [reflexivity|]. rewrite IH. reflexivity.
Qed.

Lemma slice_to_nonneg {A : Type} (l : list A) (n : Z) :
  0 <= n -> slice_to l n = firstn (Z.to_nat n) l.
Proof.
  intro H. unfold slice_to.
  destruct (0 <=? n) eqn:E; [reflexivity|].
  apply Z.leb_gt in E. lia.
Qed.

(** Whatever the bound, a slice [l[:n]] is a prefix of [l]. *)
Lemma slice_to_prefix {A : Type} (l : list A) (n : Z) :
  exists m : nat, slice_to l n = firstn m l.
Proof. unfold slice_to. destruct (0 <=? n); eexists; reflexivity. Qed.

Lemma contiguous_firstn (l : list result) (m : nat) :
  contiguous_ranks l -> contiguous_ranks (firstn m l).
Proof.
  unfold contiguous_ranks. intro H.
  rewrite <- firstn_map, H, counting_firstn, length_firstn. reflexivity.
Qed.

Lemma contiguous_slice (l : list result) (n : Z) :
  contiguous_ranks l -> contiguous_ranks (slice_to l n).
Proof.
  intro H. destruct (slice_to_prefix l n) as [m Hm]. rewrite Hm.
  apply contiguous_firstn. exact H.
Qed.

Lemma contiguous_enumerated {A : Type} (mk : Z * A -> result) (l : list A) :
  (forall p, rank (mk p) = fst p) ->
  contiguous_ranks (map mk (enumerate 1 l)).
Proof.
  intro H. unfold contiguous_ranks.
  rewrite map_map, length_map, enumerate_length.
  rewrite <- (enumerate_fst l 1). apply map_ext. exact H.
Qed.

Lemma search_contiguous
    (term_weight : list (list string) -> string -> list string -> Q)
    (idx : BM25Index) (query : string) (top_k : Z) :
  contiguous_ranks (search term_weight idx query top_k).
Proof.
  unfold search. apply contiguous_enumerated. intros [r [d s]]. reflexivity.
Qed.

(* ================================================================== *)
(** * BM25Index.search                                                *)
(* ================================================================== *)

Lemma combine_by_index {A B : Type} (la : list A) (lb : list B) (da : A)
    (db : B) :
  length la = length lb ->
  combine la lb = map (fun i => (nth i la da, nth i lb db)) (seq 0 (length la)).
Proof.
  revert lb. induction la as [|a la IH]; intros [|b lb] H; simpl in *;
    try discriminate; [reflexivity|].
  f_equal. rewrite <- seq_shift, map_map. apply IH. lia.
Qed.

Lemma seq_sorted (start n : nat) : StronglySorted lt (seq start n).
Proof.
  revert start. induction n as [|n IH]; intro start; simpl; constructor.
  - apply IH.
  - apply Forall_forall. intros x Hx. apply in_seq in Hx. lia.
Qed.

Lemma in_firstn {A : Type} (x : A) (n : nat) (l : list A) :
  In x (firstn n l) -> In x l.
Proof.
  intro H. rewrite <- (firstn_skipn n l). apply in_or_app. left. exact H.
Qed.

Lemma firstn_seq_all (n m : nat) : (n <= m)%nat -> firstn m (seq 0 n) = seq 0 n.
Proof. intro H. apply firstn_all2. rewrite length_seq. exact H. Qed.

(** [BM25Index.__init__] raises when no document has a token; when it
    returns, the index holds the ids, the documents and the token lists in
    loading order. *)
Lemma BM25Index_init_cases (docs : list article) :
  BM25Index_init docs =
  if forallb is_empty (okapi_corpus (_bm25 (indexed docs)))
  then Raise ZeroDivisionError
  else Ok (indexed docs).
Proof.
  unfold BM25Index_init, BM25Okapi_init, indexed. cbn [okapi_corpus _bm25].
  destruct (forallb is_empty _); reflexivity.
Qed.

Lemma BM25Index_init_built (docs : list article) (idx : BM25Index) :
  BM25Index_init docs = Ok idx -> idx = indexed docs.
Proof.
  rewrite BM25Index_init_cases. destruct (forallb is_empty _);
    [discriminate|]. intros [= <-]. reflexivity.
Qed.

Lemma BM25Index_init_nonempty (docs : list article) (idx : BM25Index) :
  BM25Index_init docs = Ok idx -> docs <> [].
Proof. intros H ->. discriminate H. Qed.

Section SparseFacts.
Variable term_weight : list (list string) -> string -> list string -> Q.

Lemma get_scores_length (docs : list article) (q : list string) :
  length (get_scores term_weight (_bm25 (indexed docs)) q)
  = length docs.
Proof. unfold get_scores. simpl. rewrite !length_map. reflexivity. Qed.

Lemma search_by_ranking (docs : list article) (query : string) (top_k : Z) :
  let scores :=
    get_scores term_weight (_bm25 (indexed docs)) (tokenize query) in
  search term_weight (indexed docs) query top_k =
  map (hit docs scores) (enumerate 1 (slice_to (ranking scores) top_k)).
Proof.
  intro scores. unfold search. fold scores.
  assert (Hlen : length (map a_doc_id docs) = length scores).
  { unfold scores. rewrite get_scores_length, length_map. reflexivity. }
  cbn [_doc_ids indexed].
  rewrite (combine_by_index _ _ "" 0%Q Hlen), sorted_desc_map.
  cbn [snd]. rewrite Hlen. fold (score_at scores). fold (ranking scores).
  set (f := fun i : nat => (nth i (map a_doc_id docs) "", nth i scores 0%Q)).
  assert (Hs : slice_to (map f (ranking scores)) top_k
               = map f (slice_to (ranking scores) top_k)).
  { unfold slice_to. rewrite length_map.
    destruct (0 <=? top_k); apply firstn_map. }
  rewrite Hs, enumerate_map, map_map.
  apply map_ext. intros [r i]. reflexivity.
Qed.

Lemma ranking_perm (scores : list Q) :
  Permutation (ranking scores) (seq 0 (length scores)).
Proof. apply sorted_desc_perm. Qed.

Lemma ranking_sorted (scores : list Q) :
  StronglySorted (ranks_before (score_at scores) lt) (ranking scores).
Proof. apply sorted_desc_sorted, seq_sorted. Qed.

Lemma get_scores_empty_query (docs : list article) :
  get_scores term_weight (_bm25 (indexed docs)) []
  = map (fun _ => 0%Q) docs.
Proof. unfold get_scores. simpl. rewrite map_map. reflexivity. Qed.

Lemma score_at_zeros {A : Type} (l : list A) (i : nat) :
  score_at (map (fun _ => 0%Q) l) i = 0%Q.
Proof.
  unfold score_at. revert i.
  induction l as [|x l IH]; intros [|i]; simpl; auto.
Qed.

Lemma ranking_zeros {A : Type} (l : list A) :
  ranking (map (fun _ => 0%Q) l) = seq 0 (length l).
Proof.
  unfold ranking. rewrite length_map. apply sorted_desc_flat.
  intros x y _ _. rewrite !score_at_zeros. reflexivity.
Qed.

Lemma enumerate_nth_seq {A : Type} (l : list A) (d : A) (m : nat)
    (start : Z) :
  map (fun p => (fst p, nth (snd p) l d))
      (enumerate start (firstn m (seq 0 (length l))))
  = enumerate start (firstn m l).
Proof.
  rewrite <- (enumerate_map (fun i => nth i l d)). f_equal.
  rewrite <- firstn_map. f_equal.
  clear. induction l as [|x l IH]; simpl; [reflexivity|].
  f_equal. rewrite <- seq_shift, map_map. exact IH.
Qed.

Lemma hits_of_zero_scores (docs : list article) (m : nat) (start : Z) :
  map (hit docs (map (fun _ => 0%Q) docs))
      (enumerate start (firstn m (seq 0 (length docs))))
  = map (fun p => mk_result (a_doc_id (snd p)) None 0%Q (fst p))
        (enumerate start (firstn m docs)).
Proof.
  set (blank := mk_article "" "" "" None None None None None None).
  rewrite <- (enumerate_nth_seq docs blank).
  rewrite map_map. apply map_ext_in. intros [r i] Hin.
  unfold hit. cbn [fst snd]. rewrite score_at_zeros. f_equal.
  assert (Hi : (i < length docs)%nat).
  { apply (in_map snd) in Hin. rewrite enumerate_snd in Hin.
    apply in_firstn in Hin. apply in_seq in Hin. simpl in Hin. lia. }
  rewrite (nth_indep _ "" (a_doc_id blank)) by (rewrite length_map; exact Hi).
  apply map_nth.
Qed.

Lemma slice_to_same_length {A B : Type} (l : list A) (l' : list B) (n : Z) :
  length l = length l' ->
  exists m, slice_to l n = firstn m l /\ slice_to l' n = firstn m l'.
Proof.
  intro H. unfold slice_to. rewrite H.
  destruct (0 <=? n); eexists; split; reflexivity.
Qed.

(** ** C1 *)

(** C1. On the index [BM25Index.__init__] returns for a corpus,
    [BM25Index.search] gives every loaded document a score and ranks them
    all: the corpus positions, in ranked order, are a permutation of
    the whole corpus sorted by descending score, and among equal scores by
    insertion position; the output is the slice [[:top_k]] of that ranking
    with ranks 1, 2, ....  For a result count [top_k >= 0] that is the first
    [top_k] of the ranking, [min top_k n] results in all, and the whole
    ranked corpus when [top_k] is at least the corpus size [n].  For a
    query whose token list is empty every score is zero and the output
    lists the documents in insertion order. *)
Theorem bm25_search_ranking
    (docs : list article) (idx : BM25Index) (query : string) (top_k : Z) :
  BM25Index_init docs = Ok idx ->
  let scores := get_scores term_weight (_bm25 idx) (tokenize query) in
  let out := search term_weight idx query top_k in
  exists order : list nat,
    Permutation order (seq 0 (length docs)) /\
    StronglySorted
      (fun i j =>
         (score_at scores j < score_at scores i)%Q \/
         ((score_at scores i == score_at scores j)%Q /\ (i < j)%nat))
      order /\
    out = map (hit docs scores) (enumerate 1 (slice_to order top_k)) /\
    contiguous_ranks out /\
    (0 <= top_k ->
     out = map (hit docs scores)
               (enumerate 1 (firstn (Z.to_nat top_k) order)) /\
     length out = Nat.min (Z.to_nat top_k) (length docs)) /\
    (Z.of_nat (length docs) <= top_k ->
     out = map (hit docs scores) (enumerate 1 order)) /\
    (tokenize query = [] ->
     scores = map (fun _ => 0%Q) docs /\
     out = map (fun p => mk_result (a_doc_id (snd p)) None 0%Q (fst p))
               (enumerate 1 (slice_to docs top_k))).
Proof.
  intros Hidx scores out.
  apply BM25Index_init_built in Hidx. subst idx.
  assert (Hlen : length scores = length docs)
    by apply get_scores_length.
  assert (Hrank : length (ranking scores) = length docs).
  { unfold ranking. rewrite sorted_desc_length, length_seq. exact Hlen. }
  assert (Hout : out = map (hit docs scores)
                   (enumerate 1 (slice_to (ranking scores) top_k))).
  { unfold out. rewrite search_by_ranking. reflexivity. }
  exists (ranking scores).
  split; [rewrite <- Hlen; apply ranking_perm|].
  split; [apply ranking_sorted|].
  split; [exact Hout|].
  split; [apply search_contiguous|].
  split; [|split].
  - intro Hk. rewrite Hout, slice_to_nonneg by exact Hk.
    split; [reflexivity|].
    rewrite length_map, enumerate_length, length_firstn, Hrank.
    reflexivity.
  - intro Hall. rewrite Hout, slice_to_nonneg by lia. do 2 f_equal.
    apply firstn_all2. lia.
  - intro Hq.
    assert (Hz : scores = map (fun _ => 0%Q) docs).
    { unfold scores. rewrite Hq. apply get_scores_empty_query. }
    split; [exact Hz|].
    rewrite Hout, Hz, ranking_zeros.
    destruct (slice_to_same_length (seq 0 (length docs)) docs top_k)
      as (m & -> & ->); [apply length_seq|].
    apply hits_of_zero_scores.
Qed.

End SparseFacts.

(* ================================================================== *)
(** * Dictionaries and loops                                          *)
(* ================================================================== *)

Lemma dict_get_set_same {V : Type} (k : string) (v : V) (d : dict V) :
  dict_get k (dict_set k v d) = Some v.
Proof.
  induction d as [|[k' v'] d IH]; simpl.
  - rewrite String.eqb_refl. reflexivity.
  - destruct (String.eqb k k') eqn:E; simpl.
    + rewrite String.eqb_refl. reflexivity.
    + rewrite E. exact IH.
Qed.

Lemma dict_get_set_other {V : Type} (k k' : string) (v : V) (d : dict V) :
  k' <> k -> dict_get k' (dict_set k v d) = dict_get k' d.
Proof.
  intro Hne. induction d as [|[k0 v0] d IH]; simpl.
  - apply String.eqb_neq in Hne. rewrite Hne. reflexivity.
  - destruct (String.eqb k k0) eqn:E; simpl.
    + apply String.eqb_eq in E. subst k0.
      apply String.eqb_neq in Hne. rewrite Hne. reflexivity.
    + destruct (String.eqb k' k0); [reflexivity | exact IH].
Qed.

Lemma dict_mem_keys {V : Type} (k : string) (d : dict V) :
  dict_mem k d = true <-> In k (dict_keys d).
Proof.
  unfold dict_mem. induction d as [|[k' v'] d IH]; simpl.
  - split; [discriminate | tauto].
  - destruct (String.eqb k k') eqn:E.
    + apply String.eqb_eq in E. subst. split; auto.
    + apply String.eqb_neq in E. rewrite IH. split; [auto|].
      intros [H|H]; [congruence | exact H].
Qed.

(** Writing a key leaves the key order alone, or appends a new key. *)
Lemma dict_keys_set {V : Type} (k : string) (v : V) (d : dict V) :
  dict_keys (dict_set k v d) =
  if dict_mem k d then dict_keys d else dict_keys d ++ [k].
Proof.
  unfold dict_mem. induction d as [|[k' v'] d IH]; simpl; [reflexivity|].
  destruct (String.eqb k k') eqn:E; simpl.
  - apply String.eqb_eq in E. subst. reflexivity.
  - rewrite IH. destruct (dict_get k d); reflexivity.
Qed.

Lemma fold_res_app {S A : Type} (f : S -> A -> res S) (l1 l2 : list A)
    (st : S) :
  fold_res f (l1 ++ l2) st = (st' <- fold_res f l1 st ;; fold_res f l2 st').
Proof.
  revert st. induction l1 as [|x l1 IH]; intro st; simpl; [reflexivity|].
  destruct (f st x); simpl; [apply IH | reflexivity].
Qed.

Lemma fold_res_concat {S A : Type} (f : S -> A -> res S)
    (ls : list (list A)) (st : S) :
  fold_res (fun st l => fold_res f l st) ls st = fold_res f (concat ls) st.
Proof.
  revert st. induction ls as [|l ls IH]; intro st; simpl; [reflexivity|].
  rewrite fold_res_app. destruct (fold_res f l st); simpl;
    [apply IH | reflexivity].
Qed.

Lemma StronglySorted_map {A B : Type} (R : B -> B -> Prop) (f : A -> B)
    (l : list A) :
  StronglySorted (fun x y => R (f x) (f y)) l -> StronglySorted R (map f l).
Proof.
  induction 1 as [|x l Hs IH Hx]; simpl; constructor; [exact IH|].
  apply Forall_map. exact Hx.
Qed.

Lemma StronglySorted_weaken {A : Type} (R R' : A -> A -> Prop) (l : list A) :
  (forall x y, In x l -> In y l -> R x y -> R' x y) ->
  StronglySorted R l -> StronglySorted R' l.
Proof.
  intros H Hs. induction Hs as [|x l Hs IH Hx]; constructor.
  - apply IH. intros; apply H; simpl; auto.
  - rewrite Forall_forall in *. intros y Hy.
    apply H; simpl; auto.
Qed.

Lemma StronglySorted_snoc {A : Type} (R : A -> A -> Prop) (l : list A)
    (x : A) :
  StronglySorted R l -> Forall (fun y => R y x) l ->
  StronglySorted R (l ++ [x]).
Proof.
  induction 1 as [|y l Hs IH Hy]; intro Hx; simpl.
  - constructor; constructor.
  - inversion Hx; subst. constructor; [apply IH; assumption|].
    apply Forall_app. split; [exact Hy | constructor; [assumption|constructor]].
Qed.

Lemma index_of_lt (d : string) (l : list string) :
  In d l -> (index_of d l < length l)%nat.
Proof.
  induction l as [|x l IH]; simpl; [tauto|].
  intro H. destruct (String.eqb x d) eqn:E; [lia|].
  apply String.eqb_neq in E. destruct H as [H|H]; [congruence|].
  specialize (IH H). lia.
Qed.

Lemma index_of_absent (d : string) (l : list string) :
  ~ In d l -> index_of d l = length l.
Proof.
  induction l as [|x l IH]; simpl; [reflexivity|].
  intro H. destruct (String.eqb x d) eqn:E.
  - apply String.eqb_eq in E. tauto.
  - rewrite IH; tauto.
Qed.

Lemma index_of_app (d : string) (l1 l2 : list string) :
  index_of d (l1 ++ l2) =
  if in_dec string_dec d l1 then index_of d l1
  else (length l1 + index_of d l2)%nat.
Proof.
  induction l1 as [|x l1 IH]; simpl; [reflexivity|].
  destruct (String.eqb x d) eqn:E.
  - apply String.eqb_eq in E. subst.
    destruct (string_dec d d); [|congruence].
    destruct (in_dec string_dec d l1); reflexivity.
  - apply String.eqb_neq in E. rewrite IH.
    destruct (string_dec x d); [congruence|].
    destruct (in_dec string_dec d l1); reflexivity.
Qed.

(* ================================================================== *)
(** * reciprocal_rank_fusion                                          *)
(* ================================================================== *)

Lemma contains_in (L : list result) (d : string) :
  contains L d = true <-> In d (map doc_id L).
Proof.
  unfold contains. rewrite existsb_exists, in_map_iff.
  split; intros [r [H1 H2]]; exists r.
  - apply String.eqb_eq in H2. auto.
  - split; [exact H2 | apply String.eqb_eq; exact H1].
Qed.

Lemma float_sum_snoc (l : list Q) (x : Q) :
  float_sum (l ++ [x]) = float_add (float_sum l) x.
Proof. unfold float_sum. rewrite fold_left_app. reflexivity. Qed.

(** One more result adds its quotient to the sum of its document and
    leaves the other sums alone. *)
Lemma total_snoc (k : Z) (items : list result) (r : result) (d : string) :
  total k (items ++ [r]) d =
  if String.eqb (doc_id r) d
  then float_add (total k items d) (rrf_term k (rank r))
  else total k items d.
Proof.
  unfold total. rewrite filter_app. cbn [filter].
  destruct (String.eqb (doc_id r) d).
  - rewrite map_app. apply float_sum_snoc.
  - rewrite app_nil_r. reflexivity.
Qed.

Lemma filter_absent (L : list result) (d : string) :
  ~ In d (map doc_id L) -> filter (fun r => String.eqb (doc_id r) d) L = [].
Proof.
  induction L as [|r L IH]; simpl; intro H; [reflexivity|].
  destruct (String.eqb (doc_id r) d) eqn:E.
  - apply String.eqb_eq in E. tauto.
  - apply IH. tauto.
Qed.

(** In a list that names no document twice, [d] collects its one term. *)
Lemma terms_one_list (k : Z) (L : list result) (d : string) :
  NoDup (map doc_id L) ->
  map (fun r => rrf_term k (rank r))
      (filter (fun r => String.eqb (doc_id r) d) L)
  = if contains L d then [rrf_term k (rank_in L d)] else [].
Proof.
  unfold contains, rank_in.
  induction L as [|r L IH]; simpl; intro Hnd; [reflexivity|].
  inversion Hnd as [|? ? Hnotin Hnd']; subst.
  destruct (String.eqb (doc_id r) d) eqn:E; simpl.
  - apply String.eqb_eq in E. subst d.
    rewrite (filter_absent L (doc_id r) Hnotin). reflexivity.
  - apply IH. exact Hnd'.
Qed.

Lemma total_concat (k : Z) (lists : list (list result)) (d : string) :
  Forall (fun L => NoDup (map doc_id L)) lists ->
  total k (concat lists) d = rrf_score k lists d.
Proof.
  unfold total, rrf_score. intro H. f_equal.
  induction H as [|L lists HL Hrest IH]; simpl; [reflexivity|].
  rewrite filter_app, map_app, IH, (terms_one_list k L d HL).
  destruct (contains L d); reflexivity.
Qed.

(** The sum of a document stays below the number of results added: no
    score of the fusion comes near the largest float. *)
Lemma total_size (k : Z) (items : list result) (d : string) :
  Forall (has_quotient k) items ->
  Z.of_nat (length items) <= 2 ^ 53 ->
  (Qabs (total k items d) <= inject_Z (Z.of_nat (length items)))%Q.
Proof.
  induction items as [|r items IH] using rev_ind; intros Hk Hlen.
  - apply Qle_refl.
  - apply Forall_app in Hk. destruct Hk as [Hk Hr].
    inversion Hr as [|? ? [Hnz _] _]; subst.
    rewrite length_app in *. cbn [length] in *.
    assert (IH' := IH Hk ltac:(lia)).
    rewrite total_snoc.
    replace (Z.of_nat (length items + 1)) with (Z.of_nat (length items) + 1)
      by lia.
    destruct (String.eqb (doc_id r) d).
    + apply float_add_size; [lia | exact IH' | apply rrf_term_size, Hnz].
    + eapply Qle_trans; [exact IH'|]. rewrite <- Zle_Qle. lia.
Qed.

Lemma rrf_accumulate_flat (lists : list (list result)) (k : Z) :
  rrf_accumulate lists k = fold_res (rrf_visit k) (concat lists) ([], []).
Proof. apply fold_res_concat. Qed.

(** The state of the fusion loop after any run of results. *)
Lemma rrf_loop_invariant (k : Z) (items : list result) :
  Forall (has_quotient k) items ->
  exists scores doc_data,
    fold_res (rrf_visit k) items ([], []) = Ok (scores, doc_data) /\
    NoDup (dict_keys scores) /\
    (forall d, In d (dict_keys scores) <-> In d (map doc_id items)) /\
    StronglySorted
      (fun a b => (index_of a (map doc_id items) <
                   index_of b (map doc_id items))%nat)
      (dict_keys scores) /\
    (forall d, score_of scores d = total k items d).
Proof.
  induction items as [|r items IH] using rev_ind; intro Hk.
  - exists [], []. simpl. repeat split; try tauto; constructor.
  - apply Forall_app in Hk. destruct Hk as [Hk Hr].
    inversion Hr as [|? ? [Hnz Hfit] _]; subst.
    destruct (IH Hk) as (scores & doc_data & Hfold & Hnd & Hin & Hsort & Hsc).
    rewrite fold_res_app, Hfold. cbn [bind fold_res rrf_visit].
    rewrite (reciprocal_defined k (rank r) Hnz Hfit). cbn [bind].
    eexists _, _. split; [reflexivity|].
    rewrite dict_keys_set, map_app. simpl.
    assert (Hmem : dict_mem (doc_id r) scores = true <->
                   In (doc_id r) (map doc_id items)).
    { rewrite dict_mem_keys. apply Hin. }
    assert (Hidx : forall a, In a (map doc_id items) ->
              index_of a (map doc_id items ++ [doc_id r])
              = index_of a (map doc_id items)).
    { intros a Ha. rewrite index_of_app.
      destruct (in_dec string_dec a (map doc_id items)); tauto. }
    repeat split.
    + destruct (dict_mem (doc_id r) scores) eqn:E; [exact Hnd|].
      apply NoDup_app; [exact Hnd | constructor; [tauto|constructor] |].
      intros x Hx [Hx'|[]]. subst x.
      apply Hin, Hmem in Hx. congruence.
    + intro H. apply in_or_app.
      destruct (dict_mem (doc_id r) scores) eqn:E.
      * left. apply Hin. exact H.
      * apply in_app_or in H. destruct H as [H|H]; [left; apply Hin|right];
          exact H.
    + intro H. apply in_app_or in H.
      destruct (dict_mem (doc_id r) scores) eqn:E.
      * destruct H as [H|[H|[]]]; [apply Hin; exact H|].
        subst d. apply Hin, Hmem. reflexivity.
      * apply in_or_app. destruct H as [H|H]; [left; apply Hin|right];
          exact H.
    + assert (Hsort' : StronglySorted
                (fun a b => (index_of a (map doc_id items ++ [doc_id r]) <
                             index_of b (map doc_id items ++ [doc_id r]))%nat)
                (dict_keys scores)).
      { eapply StronglySorted_weaken; [|exact Hsort].
        intros x y Hx Hy Hlt. cbv beta.
        rewrite !Hidx by (apply Hin; assumption). exact Hlt. }
      destruct (dict_mem (doc_id r) scores) eqn:E; [exact Hsort'|].
      apply StronglySorted_snoc; [exact Hsort'|].
      apply Forall_forall. intros y Hy.
      rewrite Hidx by (apply Hin; exact Hy).
      rewrite index_of_app.
      destruct (in_dec string_dec (doc_id r) (map doc_id items)) as [Hi|Hi].
      * apply Hmem in Hi. congruence.
      * simpl. rewrite String.eqb_refl.
        pose proof (index_of_lt y (map doc_id items)) as Hlt.
        specialize (Hlt (proj1 (Hin y) Hy)). lia.
    + intro d. rewrite total_snoc. unfold score_of at 1.
      destruct (String.eqb (doc_id r) d) eqn:E.
      * apply String.eqb_eq in E. subst d.
        rewrite dict_get_set_same. cbn [get_or]. rewrite Hsc. reflexivity.
      * apply String.eqb_neq in E.
        rewrite dict_get_set_other by congruence.
        fold (score_of scores d). apply Hsc.
Qed.

Lemma contains_dec_in (L : list result) (d : string) :
  contains L d = false <-> ~ In d (map doc_id L).
Proof.
  rewrite <- contains_in. destruct (contains L d); split; intro H;
    congruence || (exfalso; apply H; reflexivity) || discriminate.
Qed.

(** First appearance in the concatenation of the lists is first appearance
    by list, then by position within the list. *)
Lemma index_of_appears_before (lists : list (list result)) (a b : string) :
  In b (map doc_id (concat lists)) ->
  (index_of a (map doc_id (concat lists)) <
   index_of b (map doc_id (concat lists)))%nat ->
  appears_before lists a b.
Proof.
  unfold appears_before.
  induction lists as [|L lists IH]; simpl; [tauto|].
  rewrite map_app, !index_of_app. intros Hb Hlt.
  destruct (contains L a) eqn:Ea; destruct (contains L b) eqn:Eb.
  - right. split; [reflexivity|].
    apply contains_in in Ea, Eb.
    destruct (in_dec string_dec a (map doc_id L)); [|tauto].
    destruct (in_dec string_dec b (map doc_id L)); [|tauto].
    exact Hlt.
  - left. lia.
  - exfalso. apply contains_in in Eb. apply contains_dec_in in Ea.
    destruct (in_dec string_dec a (map doc_id L)); [tauto|].
    destruct (in_dec string_dec b (map doc_id L)); [|tauto].
    pose proof (index_of_lt b _ Eb). lia.
  - apply contains_dec_in in Ea, Eb.
    destruct (in_dec string_dec a (map doc_id L)); [tauto|].
    destruct (in_dec string_dec b (map doc_id L)); [tauto|].
    apply in_app_or in Hb. destruct Hb as [Hb|Hb]; [tauto|].
    destruct (IH Hb) as [H|[H1 H2]]; [lia | left; lia | right].
    split; [congruence | exact H2].
Qed.

Lemma first_list_holds (lists : list (list result)) (d : string) :
  In d (map doc_id (concat lists)) ->
  In (nth (first_list lists d) lists []) lists /\
  In d (map doc_id (nth (first_list lists d) lists [])).
Proof.
  induction lists as [|L lists IH]; simpl; [tauto|].
  rewrite map_app. intro H.
  destruct (contains L d) eqn:E.
  - split; [left; reflexivity | apply contains_in; exact E].
  - apply contains_dec_in in E. apply in_app_or in H.
    destruct H as [H|H]; [tauto|].
    destruct (IH H) as [H1 H2]. split; [right; exact H1 | exact H2].
Qed.

Lemma rank_in_member (L : list result) (d : string) :
  In d (map doc_id L) -> exists r, In r L /\ rank_in L d = rank r.
Proof.
  unfold rank_in. induction L as [|r L IH]; simpl; [tauto|].
  intro H. destruct (String.eqb (doc_id r) d) eqn:E.
  - exists r. auto.
  - apply String.eqb_neq in E. destruct H as [H|H]; [congruence|].
    destruct (IH H) as [r' [H1 H2]]. exists r'. auto.
Qed.

(** Where the ranks grow along a list, position and rank agree. *)
Lemma position_rank (L : list result) (a b : string) :
  StronglySorted (fun x y => rank x < rank y) L ->
  In b (map doc_id L) ->
  (position_in L a < position_in L b)%nat ->
  rank_in L a < rank_in L b.
Proof.
  unfold position_in.
  induction 1 as [|r L Hs IH Hr]; simpl; [tauto|].
  intros Hb Hlt. unfold rank_in. simpl.
  destruct (String.eqb (doc_id r) a) eqn:Ea;
    destruct (String.eqb (doc_id r) b) eqn:Eb; try lia.
  - apply String.eqb_neq in Eb. destruct Hb as [Hb|Hb]; [congruence|].
    destruct (rank_in_member L b Hb) as [r' [Hin Hrk]].
    unfold rank_in in Hrk. rewrite Hrk.
    rewrite Forall_forall in Hr. apply Hr. exact Hin.
  - apply String.eqb_neq in Eb. destruct Hb as [Hb|Hb]; [congruence|].
    apply IH; [exact Hb | lia].
Qed.

Lemma appears_before_outranks (lists : list (list result)) (a b : string) :
  Forall (StronglySorted (fun x y => rank x < rank y)) lists ->
  In a (map doc_id (concat lists)) ->
  In b (map doc_id (concat lists)) ->
  appears_before lists a b -> outranks lists a b.
Proof.
  intros Hs Ha Hb [H|[H1 H2]]; [left; exact H | right].
  split; [exact H1|].
  destruct (first_list_holds lists a Ha) as [HL _].
  destruct (first_list_holds lists b Hb) as [_ HbL].
  rewrite <- H1 in HbL.
  rewrite Forall_forall in Hs.
  apply position_rank; [apply Hs; exact HL | exact HbL | exact H2].
Qed.

Lemma in_concat_lists (lists : list (list result)) (d : string) :
  In d (map doc_id (concat lists)) <->
  exists L, In L lists /\ contains L d = true.
Proof.
  rewrite in_map_iff. split.
  - intros [r [H1 H2]]. apply in_concat in H2. destruct H2 as [L [HL Hr]].
    exists L. split; [exact HL|]. apply contains_in.
    rewrite <- H1. apply in_map. exact Hr.
  - intros [L [HL Hc]]. apply contains_in, in_map_iff in Hc.
    destruct Hc as [r [H1 H2]]. exists r. split; [exact H1|].
    apply in_concat. exists L. auto.
Qed.

(** Shape of the fused list in terms of the final [scores] dict. *)
Lemma fused_shape (scores : dict Q) (doc_data : dict (option display))
    (ids : list string) (start : Z) :
  let fused :=
    map (fun '(rank, doc_id) =>
           mk_result doc_id (get_or (dict_get doc_id doc_data) None)
                     (score_of scores doc_id) rank)
        (enumerate start ids) in
  map doc_id fused = ids /\
  map rank fused = counting start (length fused) /\
  (forall e, In e fused -> score e = score_of scores (doc_id e)).
Proof.
  revert start. induction ids as [|d ids IH]; intro start; simpl.
  - repeat split. intros e [].
  - destruct (IH (start + 1)) as (H1 & H2 & H3). repeat split.
    + f_equal. exact H1.
    + f_equal. exact H2.
    + intros e [He|He]; [subst e; reflexivity | apply H3; exact He].
Qed.

Lemma fused_order_lift (tie : string -> string -> Prop) (scores : dict Q)
    (fused : list result) :
  (forall e, In e fused -> score e = score_of scores (doc_id e)) ->
  StronglySorted (ranks_before (score_of scores) tie) (map doc_id fused) ->
  StronglySorted (fused_order tie) fused.
Proof.
  induction fused as [|e fused IH]; intros Hscore Hs; [constructor|].
  simpl in Hs. inversion Hs as [|? ? Hs' Hall]; subst.
  constructor.
  - apply IH; [intros; apply Hscore; right; assumption | exact Hs'].
  - rewrite Forall_map in Hall. rewrite Forall_forall in *.
    intros y Hy. specialize (Hall y Hy).
    unfold fused_order, ranks_before in *.
    rewrite (Hscore e (or_introl eq_refl)), (Hscore y (or_intror Hy)).
    exact Hall.
Qed.

(** What [reciprocal_rank_fusion] returns when every result has its
    quotient. *)
Lemma rrf_general (lists : list (list result)) (k : Z) :
  Forall (Forall (has_quotient k)) lists ->
  exists fused,
    reciprocal_rank_fusion lists k = Ok fused /\
    NoDup (map doc_id fused) /\
    (forall d, In d (map doc_id fused) <->
               exists L, In L lists /\ contains L d = true) /\
    (forall e, In e fused ->
               score e = total k (concat lists) (doc_id e) /\
               (Forall (fun L => NoDup (map doc_id L)) lists ->
                score e = rrf_score k lists (doc_id e)) /\
               (Z.of_nat (length (concat lists)) <= 2 ^ 53 ->
                (Qabs (score e)
                 <= inject_Z (Z.of_nat (length (concat lists))))%Q)) /\
    StronglySorted (fused_order (appears_before lists)) fused /\
    (Forall (StronglySorted (fun x y => rank x < rank y)) lists ->
     StronglySorted (fused_order (outranks lists)) fused) /\
    contiguous_ranks fused.
Proof.
  intros Hk.
  assert (Hk' : Forall (has_quotient k) (concat lists)).
  { apply Forall_concat. exact Hk. }
  destruct (rrf_loop_invariant k (concat lists) Hk')
    as (scores & doc_data & Hfold & Hkeys & Hin & Hsort & Hsc).
  unfold reciprocal_rank_fusion. rewrite rrf_accumulate_flat, Hfold. simpl.
  eexists. split; [reflexivity|].
  set (ids := sorted_desc (score_of scores) (dict_keys scores)).
  destruct (fused_shape scores doc_data ids 1) as (Hids & Hranks & Hscore).
  cbv zeta in Hids, Hranks, Hscore.
  set (fused := map _ (enumerate 1 ids)) in *.
  assert (Hperm : Permutation ids (dict_keys scores))
    by apply sorted_desc_perm.
  assert (Hmem : forall d, In d ids <-> In d (map doc_id (concat lists))).
  { intro d. rewrite <- Hin. split; apply Permutation_in;
      [exact Hperm | apply Permutation_sym; exact Hperm]. }
  assert (Hord : StronglySorted (fused_order (appears_before lists)) fused).
  { apply (fused_order_lift _ scores); [exact Hscore|].
    rewrite Hids.
    eapply StronglySorted_weaken; [|apply sorted_desc_sorted; exact Hsort].
    intros a b Ha Hb [Hlt|[Heq Hidx]]; [left; exact Hlt | right].
    split; [exact Heq|].
    apply index_of_appears_before; [apply Hmem; exact Hb | exact Hidx]. }
  split.
  { rewrite Hids. eapply Permutation_NoDup;
      [apply Permutation_sym; exact Hperm | exact Hkeys]. }
  split.
  { intro d. rewrite Hids, Hmem. apply in_concat_lists. }
  split.
  { intros e He. rewrite (Hscore e He), Hsc. split; [reflexivity|].
    split.
    - intro Hnd. apply total_concat. exact Hnd.
    - intro Hlen. apply total_size; assumption. }
  split; [exact Hord|].
  split; [|exact Hranks].
  intro Hrk. eapply StronglySorted_weaken; [|exact Hord].
  intros x y Hx Hy [Hlt|[Heq Hb]]; [left; exact Hlt | right].
  split; [exact Heq|].
  apply appears_before_outranks; try assumption;
    apply Hmem; rewrite <- Hids; apply in_map; assumption.
Qed.

(** The first result without a quotient stops the fusion: with the
    division error when [k + rank] is zero, with the overflow error when
    it does not convert to a float. *)
Lemma rrf_raises (lists : list (list result)) (k : Z)
    (pre post : list result) (r : result) :
  concat lists = pre ++ r :: post -> Forall (has_quotient k) pre ->
  (k + rank r = 0 ->
   reciprocal_rank_fusion lists k = Raise ZeroDivisionError) /\
  (float_max_int < Z.abs (k + rank r) ->
   reciprocal_rank_fusion lists k = Raise OverflowError).
Proof.
  intros Hcat Hpre.
  destruct (rrf_loop_invariant k pre Hpre) as (scores & dd & Hfold & _).
  unfold reciprocal_rank_fusion.
  rewrite rrf_accumulate_flat, Hcat, fold_res_app, Hfold.
  cbn [bind fold_res rrf_visit]. split; intro H.
  - rewrite (reciprocal_of_zero k (rank r) H). reflexivity.
  - rewrite (reciprocal_overflows k (rank r) H). reflexivity.
Qed.

(** The worked example: two lists ranking [d1], [d2] in opposite orders.
    Both documents get the float [0x1.0a6c92bff756p-5], which is the
    rounded sum of the rounded quotients in either order; it is not the
    rational [1/61 + 1/62], from which it differs by less than
    [2^-57]. *)
Lemma rrf_two_lists (sh1 sh2 sh3 sh4 : option display) (s1 s2 s3 s4 : Q) :
  exists e1 e2,
    reciprocal_rank_fusion_default
      [ [mk_result "d1" sh1 s1 1; mk_result "d2" sh2 s2 2];
        [mk_result "d2" sh3 s3 1; mk_result "d1" sh4 s4 2] ]
    = Ok [e1; e2] /\
    doc_id e1 = "d1" /\ doc_id e2 = "d2" /\
    score e1 = float_add (float_add 0 (rrf_term 60 1)) (rrf_term 60 2) /\
    score e2 = float_add (float_add 0 (rrf_term 60 2)) (rrf_term 60 1) /\
    (score e1 == score e2)%Q /\
    (score e1 == 146468205755307 # 4503599627370496)%Q /\
    ~ (score e1 == 1 / 61 + 1 / 62)%Q /\
    (Qabs (score e1 - (1 / 61 + 1 / 62)) < pow2 (-57))%Q /\
    rank e1 = 1 /\ rank e2 = 2.
Proof.
  eexists _, _. split; [vm_compute; reflexivity|].
  cbn [doc_id score rank].
  split; [reflexivity|]. split; [reflexivity|].
  split; [vm_compute; reflexivity|]. split; [vm_compute; reflexivity|].
  split; [vm_compute; reflexivity|]. split; [vm_compute; reflexivity|].
  split; [vm_compute; discriminate|]. split; [vm_compute; reflexivity|].
  split; reflexivity.
Qed.

(** The rounding of the model and the binary64 arithmetic the Standard
    Library specifies give the same floats: for the conversion of every
    checked denominator and its quotient, for the sums of two quotients,
    and at the largest [int] that converts. *)
Lemma float_arithmetic_is_binary64 :
  forallb (fun n =>
             binary64_holds (binary64_of_int n) (round_float (inject_Z n)) &&
             binary64_holds (binary64_reciprocal n) (rrf_term 0 n))
          checked_denominators = true /\
  forallb (fun '(a, b) =>
             binary64_holds
               (SFadd 53 1024 (binary64_reciprocal (60 + a))
                              (binary64_reciprocal (60 + b)))
               (float_add (rrf_term 60 a) (rrf_term 60 b)))
          checked_pairs = true /\
  binary64_holds (binary64_of_int float_max_int)
                 (round_float (inject_Z float_max_int)) = true /\
  binary64_of_int (float_max_int + 1) = S754_infinity false.
Proof.
  split; [vm_compute; reflexivity|].
  split; [vm_compute; reflexivity|].
  split; vm_compute; reflexivity.
Qed.

(** ** C2 *)


(* ================================================================== *)
(** * Ranks of the produced lists                                     *)
(* ================================================================== *)

Lemma rerank_contiguous (items : list result) :
  contiguous_ranks (rerank items).
Proof.
  unfold rerank. apply contiguous_enumerated. intros [r i]. reflexivity.
Qed.

Lemma rrf_contiguous (lists : list (list result)) (k : Z)
    (fused : list result) :
  reciprocal_rank_fusion lists k = Ok fused -> contiguous_ranks fused.
Proof.
  unfold reciprocal_rank_fusion.
  destruct (rrf_accumulate lists k) as [[scores doc_data]|e]; simpl;
    [|discriminate].
  intro H. injection H as <-.
  apply contiguous_enumerated. intros [r d]. reflexivity.
Qed.

Lemma chroma_contiguous (qr : query_result) :
  contiguous_ranks (_chroma_to_results qr).
Proof.
  unfold _chroma_to_results. apply contiguous_enumerated.
  intros [r [[[d t] m] x]]. reflexivity.
Qed.

Lemma enrich_contiguous (arts : dict article) (l : list result) :
  contiguous_ranks l -> contiguous_ranks (map (enrich arts) l).
Proof.
  unfold contiguous_ranks. rewrite map_map, length_map. simpl.
  intro H. exact H.
Qed.

Section EngineFacts.
Variable term_weight : list (list string) -> string -> list string -> Q.
Variable embed_query : string -> res (list Q).
Variable collection_query : list request -> request -> res query_result.

Lemma sparse_branch_contiguous (idx : BM25Index) (query : string)
    (top_k : Z) (where_ : option (dict json)) (out : list result) :
  sparse_branch term_weight idx query top_k where_ = Ok out ->
  contiguous_ranks out.
Proof.
  unfold sparse_branch. destruct (truthy where_).
  - destruct (apply_filters _ _ _) as [filtered|e]; simpl; [|discriminate].
    destruct (is_empty _) eqn:E; intro H; injection H as <-.
    + apply search_contiguous.
    + apply contiguous_slice, rerank_contiguous.
  - intro H. injection H as <-. apply search_contiguous.
Qed.

Lemma hybrid_fused_rrf (idx : BM25Index) (query : string) (top_k : Z)
    (where_ : option (dict json)) (rrf_k : Z) (log log' : list request)
    (fused : list result) :
  hybrid_fused term_weight embed_query collection_query idx query top_k
               where_ rrf_k log = (log', Ok fused) ->
  exists dense sparse,
    reciprocal_rank_fusion [dense; sparse] rrf_k = Ok fused.
Proof.
  unfold hybrid_fused, io_bind, io_lift.
  destruct (search_dense _ _ _ _ _ _) as [log1 [dense|e]]; [|discriminate].
  destruct (sparse_branch _ _ _ _ _) as [raw|e]; [|discriminate].
  intro H. injection H as _ H. eauto.
Qed.

Lemma search_hybrid_contiguous (depth : nat) (idx : BM25Index)
    (query : string) (top_k : Z) (where_ : option (dict json)) (rrf_k : Z)
    (log log' : list request) (out : list result) :
  search_hybrid term_weight embed_query collection_query depth idx query
                top_k where_ rrf_k log = (log', Some (Ok out)) ->
  contiguous_ranks out.
Proof.
  revert where_ log. induction depth as [|depth IH]; intros where_ log;
    simpl; [discriminate|].
  destruct (hybrid_fused _ _ _ _ _ _ _ _ _) as [log1 [fused|e]] eqn:Hf;
    [|discriminate].
  destruct (is_empty fused && truthy where_).
  - apply IH.
  - intro H. injection H as _ <-.
    apply contiguous_slice.
    destruct (hybrid_fused_rrf _ _ _ _ _ _ _ _ Hf) as (d & s & Hrrf).
    eapply rrf_contiguous. exact Hrrf.
Qed.

(** ** C9 *)

(** C9. Every ranked list the operations produce carries the ranks
    1, 2, ..., n in order: the output of [BM25Index.search], the re-ranked
    post-filter sparse subset and its truncation, the sparse branch as a
    whole, the dense and enriched sparse results, the output of
    [reciprocal_rank_fusion], and the final truncated result of
    [search_hybrid]. *)
Theorem produced_ranks_contiguous :
  (forall idx query top_k,
     contiguous_ranks (search term_weight idx query top_k)) /\
  (forall filtered n,
     contiguous_ranks (rerank filtered) /\
     contiguous_ranks (slice_to (rerank filtered) n)) /\
  (forall idx query top_k where_ out,
     sparse_branch term_weight idx query top_k where_ = Ok out ->
     contiguous_ranks out) /\
  (forall qr, contiguous_ranks (_chroma_to_results qr)) /\
  (forall idx query top_k,
     contiguous_ranks (search_sparse term_weight idx query top_k)) /\
  (forall lists k fused,
     reciprocal_rank_fusion lists k = Ok fused -> contiguous_ranks fused) /\
  (forall depth idx query top_k where_ rrf_k log log' out,
     search_hybrid term_weight embed_query collection_query depth idx query
                   top_k where_ rrf_k log = (log', Some (Ok out)) ->
     contiguous_ranks out).
Proof.
  repeat split.
  - intros. apply search_contiguous.
  - apply rerank_contiguous.
  - apply contiguous_slice, rerank_contiguous.
  - intros. eapply sparse_branch_contiguous. eassumption.
  - apply chroma_contiguous.
  - intros. unfold search_sparse. apply enrich_contiguous, search_contiguous.
  - intros. eapply rrf_contiguous. eassumption.
  - intros. eapply search_hybrid_contiguous. eassumption.
Qed.

End EngineFacts.

(* ================================================================== *)
(** * Filter evaluation                                               *)
(* ================================================================== *)

Lemma dict_case_missing {V R : Type} (k : string) (found : V -> R)
    (missing : R) (d : list (string * V)) :
  dict_mem k d = false -> dict_case k found missing d = missing.
Proof.
  unfold dict_mem. induction d as [|[k' v] d IH]; simpl; [reflexivity|].
  destruct (k =? k')%string; [discriminate | exact IH].
Qed.

(** A dict with neither ["$and"] nor ["$or"] is a field condition. *)
Lemma evaluate_plain (meta : dict mval) (d : list (string * json)) :
  dict_mem "$and" d = false -> dict_mem "$or" d = false ->
  evaluate_condition meta (JObj d) = eval_items meta d.
Proof.
  intros Hand Hor. cbn [evaluate_condition].
  rewrite (dict_case_missing "$and") by exact Hand.
  apply dict_case_missing. exact Hor.
Qed.

Lemma eval_leaf (meta : dict mval) (field : string)
    (ops : list (string * json)) :
  field <> "$and" -> field <> "$or" ->
  evaluate_condition meta (JObj [(field, JObj ops)])
  = eval_ops (dict_get field meta) ops.
Proof.
  intros H1 H2. rewrite evaluate_plain.
  - cbn [eval_items]. destruct (eval_ops _ ops) as [[|]|e]; reflexivity.
  - unfold dict_mem. cbn [dict_get].
    destruct (String.eqb_spec "$and" field); [congruence | reflexivity].
  - unfold dict_mem. cbn [dict_get].
    destruct (String.eqb_spec "$or" field); [congruence | reflexivity].
Qed.

Lemma op_holds_unrecognized (value : option mval) (op : string)
    (target : json) :
  ~ In op recognized_ops -> op_holds value op target = Ok true.
Proof.
  unfold recognized_ops, op_holds. simpl. intro H.
  repeat match goal with
         | |- context [(op =? ?s)%string] =>
             destruct (String.eqb_spec op s);
               [exfalso; apply H; subst; auto 12|]
         end.
  reflexivity.
Qed.

(** An entry with an operator outside the recognized ones might as well
    not be there. *)
Lemma eval_ops_skips (value : option mval) (ops1 ops2 : list (string * json))
    (op : string) (target : json) :
  ~ In op recognized_ops ->
  eval_ops value (ops1 ++ (op, target) :: ops2)
  = eval_ops value (ops1 ++ ops2).
Proof.
  intro H. induction ops1 as [|[o t] ops1 IH]; simpl.
  - rewrite op_holds_unrecognized by exact H. reflexivity.
  - destruct (op_holds value o t) as [[|]|e]; simpl; auto.
Qed.

Lemma flatten_meta_keys (a : article) :
  dict_keys (flatten_meta a) = metadata_fields.
Proof. reflexivity. Qed.

Lemma flatten_meta_missing (a : article) (field : string) :
  ~ In field metadata_fields -> dict_get field (flatten_meta a) = None.
Proof.
  unfold metadata_fields, flatten_meta. simpl. intro H.
  repeat match goal with
         | |- context [(field =? ?s)%string] =>
             destruct (String.eqb_spec field s);
               [exfalso; apply H; subst; auto 12|]
         end.
  reflexivity.
Qed.

(** How each operator treats a missing field. *)
Lemma op_holds_missing (op : string) (target : json) :
  op_holds None op target =
  if (op =? "$eq")%string then Ok (py_eq None target)
  else if (op =? "$ne")%string then Ok (negb (py_eq None target))
  else if (op =? "$gt")%string || (op =? "$gte")%string ||
          (op =? "$lt")%string || (op =? "$lte")%string then Ok false
  else if (op =? "$in")%string then py_in None target
  else if (op =? "$nin")%string then b <- py_in None target ;; Ok (negb b)
  else Ok true.
Proof.
  unfold op_holds.
  destruct (op =? "$eq")%string; [reflexivity|].
  destruct (op =? "$ne")%string; [reflexivity|].
  destruct (op =? "$gt")%string; [reflexivity|].
  destruct (op =? "$gte")%string; [reflexivity|].
  destruct (op =? "$lt")%string; [reflexivity|].
  destruct (op =? "$lte")%string; reflexivity.
Qed.

(** ** C6 *)

(** C6 (as the code has it). No malformed-predicate error exists: an entry
    whose operator is none of the eight recognized ones holds for every
    value, so a leaf evaluates as if the entry were not there; and a field
    that is no key of the flattened metadata record is read as [None], so
    its leaf evaluates like any leaf on a missing value: [$eq] holds only
    against [null], [$ne] is its negation, and the four order operators
    fail. *)
Theorem unrecognized_predicates_evaluate_silently :
  (forall value op target,
     ~ In op recognized_ops -> op_holds value op target = Ok true) /\
  (forall meta field ops1 op target ops2,
     ~ In op recognized_ops -> field <> "$and" -> field <> "$or" ->
     evaluate_condition meta
       (JObj [(field, JObj (ops1 ++ (op, target) :: ops2))])
     = evaluate_condition meta (JObj [(field, JObj (ops1 ++ ops2))])) /\
  (forall a field ops,
     ~ In field metadata_fields -> field <> "$and" -> field <> "$or" ->
     evaluate_condition (flatten_meta a) (JObj [(field, JObj ops)])
     = eval_ops None ops) /\
  (forall target,
     op_holds None "$eq" target = Ok (py_eq None target) /\
     op_holds None "$ne" target = Ok (negb (py_eq None target)) /\
     op_holds None "$gt" target = Ok false /\
     op_holds None "$gte" target = Ok false /\
     op_holds None "$lt" target = Ok false /\
     op_holds None "$lte" target = Ok false).
Proof.
  split; [exact op_holds_unrecognized|].
  split.
  { intros meta field ops1 op target ops2 Hop H1 H2.
    rewrite !eval_leaf by assumption. apply eval_ops_skips. exact Hop. }
  split.
  { intros a field ops Hf H1 H2.
    rewrite eval_leaf by assumption.
    rewrite flatten_meta_missing by exact Hf. reflexivity. }
  intro target. repeat split.
Qed.

(** ** C8 *)

(** C8 (as the code has it). The flattened metadata record holds the
    comma-joined error codes under the key [error_codes_str]; it has no key
    [error_codes].  A leaf on [error_codes_str] is evaluated against the
    joined string, a leaf on [error_codes] against a missing value. *)
Theorem error_codes_flattened_as_str (a : article) :
  let joined := join "," (get_or (a_error_codes a) []) in
  dict_keys (flatten_meta a) =
    ["region"; "product_version"; "category"; "deprecated";
     "effective_date"; "error_codes_str"] /\
  dict_get "error_codes_str" (flatten_meta a) = Some (MStr joined) /\
  dict_get "error_codes" (flatten_meta a) = None /\
  (forall ops,
     evaluate_condition (flatten_meta a) (JObj [("error_codes_str", JObj ops)])
     = eval_ops (Some (MStr joined)) ops) /\
  (forall ops,
     evaluate_condition (flatten_meta a) (JObj [("error_codes", JObj ops)])
     = eval_ops None ops).
Proof.
  intro joined. repeat split.
  - intro ops. rewrite eval_leaf by discriminate. reflexivity.
  - intro ops. rewrite eval_leaf by discriminate. reflexivity.
Qed.

(* ================================================================== *)
(** * apply_filters                                                   *)
(* ================================================================== *)

Lemma filter_results_ok (where_ : dict json) (arts : dict article)
    (results out : list result) :
  filter_results where_ arts results = Ok out ->
  out = filter (satisfies where_ arts) results.
Proof.
  revert out. induction results as [|r results IH]; cbn [filter_results filter];
    intros out H.
  - injection H as <-. reflexivity.
  - unfold satisfies at 1.
    destruct (dict_get (doc_id r) arts) as [a|]; [|apply IH; exact H].
    destruct (evaluate_condition (flatten_meta a) (JObj where_)) as [b|e];
      cbn [bind] in H; [|discriminate].
    destruct (filter_results where_ arts results) as [rest|e]; cbn [bind] in H;
      [|discriminate].
    injection H as <-. rewrite (IH rest eq_refl).
    destruct b; reflexivity.
Qed.

Lemma filter_results_total (where_ : dict json) (arts : dict article)
    (results : list result) :
  evaluates_on where_ arts results ->
  filter_results where_ arts results
  = Ok (filter (satisfies where_ arts) results).
Proof.
  unfold evaluates_on.
  induction results as [|r results IH]; cbn [filter_results filter]; intro H.
  - reflexivity.
  - assert (IH' := IH (fun r a Hin => H r a (or_intror Hin))).
    unfold satisfies at 1.
    destruct (dict_get (doc_id r) arts) as [a|] eqn:E; [|exact IH'].
    destruct (H r a (or_introl eq_refl) E) as [b Hb].
    rewrite Hb, IH'. cbn [bind]. destruct b; reflexivity.
Qed.

Lemma filter_results_raise (where_ : dict json) (arts : dict article)
    (results : list result) (e : exn) :
  filter_results where_ arts results = Raise e ->
  exists r a,
    In r results /\ dict_get (doc_id r) arts = Some a /\
    evaluate_condition (flatten_meta a) (JObj where_) = Raise e.
Proof.
  induction results as [|r results IH]; cbn [filter_results]; intro H;
    [discriminate|].
  destruct (dict_get (doc_id r) arts) as [a|] eqn:E.
  - destruct (evaluate_condition (flatten_meta a) (JObj where_))
      as [b|e'] eqn:Ev; cbn [bind] in H.
    + destruct (filter_results where_ arts results) as [rest|e''];
        cbn [bind] in H; [discriminate|].
      injection H as ->.
      destruct (IH eq_refl) as (r' & a' & H1 & H2 & H3).
      exists r', a'. repeat split; [right; exact H1 | exact H2 | exact H3].
    + injection H as ->. exists r, a.
      repeat split; [left; reflexivity | exact E | exact Ev].
  - destruct (IH H) as (r' & a' & H1 & H2 & H3). exists r', a'.
    repeat split; [right; exact H1 | exact H2 | exact H3].
Qed.

(** The loop raises exactly what the evaluation raises at the first
    result where it raises. *)
Lemma filter_results_raise_first (where_ : dict json) (arts : dict article)
    (results : list result) (e : exn) :
  filter_results where_ arts results = Raise e <->
  exists before r a after,
    results = before ++ r :: after /\
    evaluates_on where_ arts before /\
    dict_get (doc_id r) arts = Some a /\
    evaluate_condition (flatten_meta a) (JObj where_) = Raise e.
Proof.
  split.
  - induction results as [|r results IH]; cbn [filter_results]; intro H;
      [discriminate|].
    assert (Hrest : filter_results where_ arts results = Raise e ->
              forall (Hr : forall a, dict_get (doc_id r) arts = Some a ->
                         exists b, evaluate_condition (flatten_meta a)
                                     (JObj where_) = Ok b),
              exists before r0 a after,
                r :: results = before ++ r0 :: after /\
                evaluates_on where_ arts before /\
                dict_get (doc_id r0) arts = Some a /\
                evaluate_condition (flatten_meta a) (JObj where_) = Raise e).
    { intros Hres Hr.
      destruct (IH Hres) as (before & r0 & a & after & -> & Hev & Hget & He).
      exists (r :: before), r0, a, after.
      repeat split; [| exact Hget | exact He].
      intros x ax [<-|Hin] Hx; [apply Hr; exact Hx | eapply Hev; eassumption]. }
    destruct (dict_get (doc_id r) arts) as [a|] eqn:E.
    + destruct (evaluate_condition (flatten_meta a) (JObj where_))
        as [b|e'] eqn:Ev; cbn [bind] in H.
      * destruct (filter_results where_ arts results) as [rest|e''];
          cbn [bind] in H; [discriminate|].
        injection H as ->. apply Hrest; [reflexivity|].
        intros a' [= <-]. eauto.
      * injection H as ->. exists [], r, a, results.
        repeat split; [| exact E | exact Ev].
        intros x ax [].
    + apply Hrest; [exact H|]. intros a' Ha'. discriminate Ha'.
  - intros (before & r & a & after & -> & Hev & Hget & He).
    induction before as [|x before IH]; cbn [app filter_results].
    + rewrite Hget, He. reflexivity.
    + assert (IH' := IH (fun y ay Hin => Hev y ay (or_intror Hin))).
      destruct (dict_get (doc_id x) arts) as [ax|] eqn:Ex; [|exact IH'].
      destruct (Hev x ax (or_introl eq_refl) Ex) as [b Hb].
      rewrite Hb, IH'. reflexivity.
Qed.

(** What [apply_filters] returns under a non-empty where clause. *)
Lemma apply_filters_ok (results : list result) (where_ : dict json)
    (arts : dict article) (out : list result) :
  where_ <> [] -> apply_filters results where_ arts = Ok out ->
  out = filter (satisfies where_ arts) results.
Proof.
  unfold apply_filters. intros Hne H.
  destruct where_; [congruence|]. simpl in H.
  apply filter_results_ok. exact H.
Qed.

(** A listed result at which the evaluation raises keeps the loop from
    returning. *)
Lemma filter_results_raises (where_ : dict json) (arts : dict article)
    (results : list result) (r : result) (a : article) (e : exn) :
  In r results -> dict_get (doc_id r) arts = Some a ->
  evaluate_condition (flatten_meta a) (JObj where_) = Raise e ->
  exists e', filter_results where_ arts results = Raise e'.
Proof.
  intros Hin Hget He.
  induction results as [|x results IH]; [contradiction|].
  cbn [filter_results].
  destruct Hin as [->|Hin].
  - rewrite Hget, He. cbn [bind]. eauto.
  - destruct (IH Hin) as [e' He'].
    destruct (dict_get (doc_id x) arts) as [ax|]; [|eauto].
    destruct (evaluate_condition (flatten_meta ax) (JObj where_)) as [b|ex];
      cbn [bind]; [|eauto].
    rewrite He'. cbn [bind]. eauto.
Qed.

(** ** C10 *)

(** C10 (as the code has it). With an empty where clause [apply_filters]
    returns its input list.  With a non-empty one whose evaluation raises
    for none of the listed results, it returns, in input order and
    unchanged, exactly the results whose [doc_id] maps to an article whose
    flattened metadata satisfies the clause; a result whose [doc_id] the
    mapping lacks is dropped.  Whenever it returns a list, the list is that
    one.  When the evaluation raises on a listed result, [apply_filters]
    does not return: it raises, and what it raises is the exception of the
    first listed result at which the evaluation raises. *)
Theorem apply_filters_frame
    (results : list result) (where_ : dict json) (arts : dict article) :
  (where_ = [] -> apply_filters results where_ arts = Ok results) /\
  (where_ <> [] -> evaluates_on where_ arts results ->
   apply_filters results where_ arts
   = Ok (filter (satisfies where_ arts) results)) /\
  (forall out,
     where_ <> [] -> apply_filters results where_ arts = Ok out ->
     out = filter (satisfies where_ arts) results) /\
  (forall r, dict_get (doc_id r) arts = None ->
             satisfies where_ arts r = false) /\
  (forall e,
     apply_filters results where_ arts = Raise e ->
     where_ <> [] /\
     exists r a,
       In r results /\ dict_get (doc_id r) arts = Some a /\
       evaluate_condition (flatten_meta a) (JObj where_) = Raise e) /\
  (forall r a e,
     where_ <> [] -> In r results -> dict_get (doc_id r) arts = Some a ->
     evaluate_condition (flatten_meta a) (JObj where_) = Raise e ->
     exists e', apply_filters results where_ arts = Raise e') /\
  (forall e,
     apply_filters results where_ arts = Raise e <->
     where_ <> [] /\
     exists before r a after,
       results = before ++ r :: after /\
       evaluates_on where_ arts before /\
       dict_get (doc_id r) arts = Some a /\
       evaluate_condition (flatten_meta a) (JObj where_) = Raise e).
Proof.
  unfold apply_filters.
  split; [|split; [|split; [|split; [|split; [|split]]]]].
  - intros ->. reflexivity.
  - intros Hne Hev. destruct where_; [congruence|]. simpl.
    apply filter_results_total. exact Hev.
  - intros out Hne H. destruct where_; [congruence|]. simpl in H.
    apply filter_results_ok. exact H.
  - intros r H. unfold satisfies. rewrite H. reflexivity.
  - intros e H. split.
    + destruct where_; [discriminate | congruence].
    + destruct where_; simpl in H; [discriminate|].
      apply filter_results_raise. exact H.
  - intros r a e Hne Hin Hget He.
    destruct where_ as [|c where_]; [congruence|]. cbn [is_empty].
    eapply filter_results_raises; eassumption.
  - intro e. destruct where_ as [|c where_]; cbn [is_empty].
    + split; [discriminate | intros [H _]; congruence].
    + rewrite filter_results_raise_first. split.
      * intro H. split; [discriminate | exact H].
      * intros [_ H]. exact H.
Qed.

(* ================================================================== *)
(** * The search functions                                            *)
(* ================================================================== *)

Lemma rerank_fields (items : list result) :
  map doc_id (rerank items) = map doc_id items /\
  map shown (rerank items) = map shown items /\
  map score (rerank items) = map score items /\
  map rank (rerank items) = counting 1 (length items).
Proof.
  unfold rerank. rewrite !map_map.
  assert (H : forall (B : Type) (f : result -> B),
            (forall r n, f (set_rank r n) = f r) ->
            map (fun x : Z * result => f (let '(n, i) := x in set_rank i n))
                (enumerate 1 items) = map f items).
  { intros B f Hf. rewrite <- (enumerate_snd items 1) at 2.
    rewrite map_map. apply map_ext. intros [n i]. apply Hf. }
  repeat split; try (apply H; reflexivity).
  rewrite <- (enumerate_fst items 1). apply map_ext. intros [n i].
  reflexivity.
Qed.

Lemma rerank_length (items : list result) :
  length (rerank items) = length items.
Proof. unfold rerank. rewrite length_map. apply enumerate_length. Qed.

Lemma slice_to_empty {A : Type} (l : list A) (n : Z) :
  0 < n -> is_empty (slice_to l n) = is_empty l.
Proof.
  intro H. rewrite slice_to_nonneg by lia.
  destruct (Z.to_nat n) eqn:E; [lia|]. destruct l; reflexivity.
Qed.

Section SearchFacts.
Variable term_weight : list (list string) -> string -> list string -> Q.
Variable embed_query : string -> res (list Q).
Variable collection_query : list request -> request -> res query_result.

Lemma search_dense_unfold (query : string) (top_k : Z)
    (where_ : option (dict json)) (log : list request) (emb : list Q) :
  embed_query query = Ok emb ->
  let asked := mk_request [emb] top_k
                          (if truthy where_ then where_ else None) in
  let retried := mk_request [emb] top_k None in
  search_dense embed_query collection_query query top_k where_ log =
  match collection_query log asked with
  | Ok qr => (log ++ [asked], Ok (_chroma_to_results qr))
  | Raise e =>
      if truthy where_ then
        (log ++ [asked; retried],
         match collection_query (log ++ [asked]) retried with
         | Ok qr => Ok (_chroma_to_results qr)
         | Raise e' => Raise e'
         end)
      else (log ++ [asked], Raise e)
  end.
Proof.
  intros Hemb asked retried.
  unfold search_dense, io_bind, io_lift, call_query, io_ret.
  rewrite Hemb. cbn [query_embeddings n_results]. fold asked retried.
  destruct (collection_query log asked) as [qr|e]; [reflexivity|].
  destruct (truthy where_); [|reflexivity].
  rewrite <- app_assoc. cbn [app].
  destruct (collection_query (log ++ [asked]) retried); reflexivity.
Qed.

(** The only calls to the vector store in one pass of the hybrid
    procedure are those of its dense branch. *)
Lemma hybrid_fused_log (idx : BM25Index) (query : string) (top_k : Z)
    (where_ : option (dict json)) (rrf_k : Z) (log : list request) :
  fst (hybrid_fused term_weight embed_query collection_query idx query top_k
                    where_ rrf_k log)
  = fst (search_dense embed_query collection_query query (top_k * 3) where_
                      log).
Proof.
  unfold hybrid_fused, io_bind, io_lift.
  destruct (search_dense embed_query collection_query query (top_k * 3)
                         where_ log) as [log1 [dense|e]];
    [|reflexivity].
  destruct (sparse_branch term_weight idx query top_k where_); reflexivity.
Qed.

Lemma hybrid_fused_dense_fails (idx : BM25Index) (query : string)
    (top_k : Z) (where_ : option (dict json)) (rrf_k : Z)
    (log log1 : list request) (e : exn) :
  search_dense embed_query collection_query query (top_k * 3) where_ log
  = (log1, Raise e) ->
  hybrid_fused term_weight embed_query collection_query idx query top_k where_
               rrf_k log
  = (log1, Raise e).
Proof.
  intro H. unfold hybrid_fused, io_bind. rewrite H. reflexivity.
Qed.

(** ** C5 *)

(** C5. When the query embeds and the vector store call raises: with a
    filter present, [search_dense] calls the store exactly once more, with
    the same arguments minus the filter, and returns what that call
    returns or raises what it raises; with no filter present there is no
    second call, the exception leaves [search_dense], and [search_hybrid]
    as a whole raises it without producing results, as it does when the
    retry without the filter raises too. *)
Theorem dense_retries_once_without_filter
    (query : string) (top_k : Z) (where_ : option (dict json))
    (log : list request) (emb : list Q) (e : exn) :
  embed_query query = Ok emb ->
  (truthy where_ = true ->
   collection_query log (mk_request [emb] top_k where_) = Raise e ->
   search_dense embed_query collection_query query top_k where_ log =
   (log ++ [mk_request [emb] top_k where_; mk_request [emb] top_k None],
    match collection_query (log ++ [mk_request [emb] top_k where_])
                           (mk_request [emb] top_k None) with
    | Ok qr => Ok (_chroma_to_results qr)
    | Raise e' => Raise e'
    end)) /\
  (truthy where_ = false ->
   collection_query log (mk_request [emb] top_k None) = Raise e ->
   search_dense embed_query collection_query query top_k where_ log =
   (log ++ [mk_request [emb] top_k None], Raise e)) /\
  (truthy where_ = false ->
   collection_query log (mk_request [emb] (top_k * 3) None) = Raise e ->
   forall depth idx rrf_k,
     search_hybrid term_weight embed_query collection_query (S depth) idx
                   query top_k where_ rrf_k log =
     (log ++ [mk_request [emb] (top_k * 3) None], Some (Raise e))) /\
  (truthy where_ = true ->
   collection_query log (mk_request [emb] (top_k * 3) where_) = Raise e ->
   forall e',
     collection_query (log ++ [mk_request [emb] (top_k * 3) where_])
                      (mk_request [emb] (top_k * 3) None) = Raise e' ->
     forall depth idx rrf_k,
       search_hybrid term_weight embed_query collection_query (S depth) idx
                     query top_k where_ rrf_k log =
       (log ++ [mk_request [emb] (top_k * 3) where_;
                mk_request [emb] (top_k * 3) None],
        Some (Raise e'))).
Proof.
  intro Hemb. split; [|split; [|split]].
  - intros Hw Hfail. rewrite (search_dense_unfold _ _ _ _ _ Hemb).
    cbv zeta. rewrite Hw, Hfail. reflexivity.
  - intros Hw Hfail. rewrite (search_dense_unfold _ _ _ _ _ Hemb).
    cbv zeta. rewrite Hw, Hfail. reflexivity.
  - intros Hw Hfail depth idx rrf_k. cbn [search_hybrid].
    rewrite (hybrid_fused_dense_fails idx query top_k where_ rrf_k log
               (log ++ [mk_request [emb] (top_k * 3) None]) e);
      [reflexivity|].
    rewrite (search_dense_unfold _ _ _ _ _ Hemb).
    cbv zeta. rewrite Hw, Hfail. reflexivity.
  - intros Hw Hfail e' Hfail' depth idx rrf_k. cbn [search_hybrid].
    rewrite (hybrid_fused_dense_fails idx query top_k where_ rrf_k log
               (log ++ [mk_request [emb] (top_k * 3) where_;
                        mk_request [emb] (top_k * 3) None]) e');
      [reflexivity|].
    rewrite (search_dense_unfold _ _ _ _ _ Hemb).
    cbv zeta. rewrite Hw, Hfail, Hfail'. reflexivity.
Qed.

Lemma sparse_branch_filtered (idx : BM25Index) (query : string)
    (top_k : Z) (d : dict json) :
  d <> [] ->
  sparse_branch term_weight idx query top_k (Some d) =
  (filtered <- apply_filters (search term_weight idx query (top_k * 10)) d
                             (index_by_id (_documents idx)) ;;
   let kept := slice_to (rerank filtered) (top_k * 3) in
   Ok (if is_empty kept then search term_weight idx query (top_k * 3)
       else kept)).
Proof.
  intro Hd. unfold sparse_branch. destruct d as [|x d]; [congruence|].
  cbn [truthy get_or].
  destruct (apply_filters _ _ _) as [filtered|e]; cbn [bind];
    [|reflexivity].
  destruct (is_empty _); reflexivity.
Qed.

(** ** C3 *)


Lemma search_hybrid_step (depth : nat) (idx : BM25Index) (query : string)
    (top_k : Z) (where_ : option (dict json)) (rrf_k : Z)
    (log : list request) :
  search_hybrid term_weight embed_query collection_query (S depth) idx
                query top_k where_ rrf_k log =
  match hybrid_fused term_weight embed_query collection_query idx query
                     top_k where_ rrf_k log with
  | (log', Raise e) => (log', Some (Raise e))
  | (log', Ok fused) =>
      if is_empty fused && truthy where_ then
        search_hybrid term_weight embed_query collection_query depth idx
                      query top_k None rrf_k log'
      else (log', Some (Ok (slice_to fused top_k)))
  end.
Proof. reflexivity. Qed.

(** Without a filter one level of [search_hybrid] is all there is. *)
Lemma search_hybrid_unfiltered (depth : nat) (idx : BM25Index)
    (query : string) (top_k : Z) (rrf_k : Z) (log : list request) :
  search_hybrid term_weight embed_query collection_query (S depth) idx
                query top_k None rrf_k log =
  match hybrid_fused term_weight embed_query collection_query idx query
                     top_k None rrf_k log with
  | (log', Raise e) => (log', Some (Raise e))
  | (log', Ok fused) => (log', Some (Ok (slice_to fused top_k)))
  end.
Proof.
  rewrite search_hybrid_step.
  destruct (hybrid_fused _ _ _ _ _ _ _ _ _) as [log' [fused|e]];
    [|reflexivity].
  cbn [truthy]. rewrite andb_false_r. reflexivity.
Qed.

(** ** C4 *)

(** C4. [search_hybrid] runs the procedure once; if the fused list is
    empty and a filter was supplied it runs the procedure once more with
    the filter removed and returns what that run gives, truncated, be it
    empty; in every other case it returns the fused list truncated.  No
    run nests deeper than that: two levels of recursion always reach an
    answer, and more levels change nothing.  For [top_k >= 0] the
    truncation keeps the first [top_k] entries. *)
Theorem hybrid_falls_back_once
    (idx : BM25Index) (query : string) (top_k : Z)
    (where_ : option (dict json)) (rrf_k : Z) (log : list request) :
  let run w l :=
    hybrid_fused term_weight embed_query collection_query idx query top_k
                 w rrf_k l in
  let answer depth :=
    search_hybrid term_weight embed_query collection_query depth idx query
                  top_k where_ rrf_k log in
  (forall depth, answer (S (S depth)) = answer 2%nat) /\
  (exists log' outcome, answer 2%nat = (log', Some outcome)) /\
  (forall log1 e, run where_ log = (log1, Raise e) ->
                  answer 2%nat = (log1, Some (Raise e))) /\
  (forall log1 fused,
     run where_ log = (log1, Ok fused) ->
     fused <> [] \/ truthy where_ = false ->
     answer 2%nat = (log1, Some (Ok (slice_to fused top_k)))) /\
  (forall log1,
     run where_ log = (log1, Ok []) -> truthy where_ = true ->
     answer 2%nat =
     match run None log1 with
     | (log2, Ok retried) => (log2, Some (Ok (slice_to retried top_k)))
     | (log2, Raise e) => (log2, Some (Raise e))
     end) /\
  (forall log1 log2,
     run where_ log = (log1, Ok []) -> truthy where_ = true ->
     run None log1 = (log2, Ok []) ->
     answer 2%nat = (log2, Some (Ok []))) /\
  (forall fused : list result,
     0 <= top_k -> slice_to fused top_k = firstn (Z.to_nat top_k) fused).
Proof.
  intros run answer. unfold answer.
  repeat split.
  - intro depth. rewrite !search_hybrid_step. fold (run where_ log).
    destruct (run where_ log) as [log1 [fused|e]]; [|reflexivity].
    destruct (is_empty fused && truthy where_); [|reflexivity].
    rewrite !search_hybrid_unfiltered. reflexivity.
  - rewrite search_hybrid_step. fold (run where_ log).
    destruct (run where_ log) as [log1 [fused|e]]; [|eauto].
    destruct (is_empty fused && truthy where_); [|eauto].
    rewrite search_hybrid_unfiltered. fold (run None log1).
    destruct (run None log1) as [log2 [retried|e]]; eauto.
  - intros log1 e H. rewrite search_hybrid_step. fold (run where_ log).
    rewrite H. reflexivity.
  - intros log1 fused H Hcase. rewrite search_hybrid_step.
    fold (run where_ log). rewrite H.
    destruct Hcase as [Hne|Hw].
    + destruct fused; [congruence | reflexivity].
    + rewrite Hw, andb_false_r. reflexivity.
  - intros log1 H Hw. rewrite search_hybrid_step. fold (run where_ log).
    rewrite H, Hw. cbn [is_empty andb].
    apply search_hybrid_unfiltered.
  - intros log1 log2 H Hw H2. rewrite search_hybrid_step.
    fold (run where_ log). rewrite H, Hw. cbn [is_empty andb].
    rewrite search_hybrid_unfiltered. fold (run None log1). rewrite H2.
    unfold slice_to. destruct (0 <=? top_k); rewrite firstn_nil; reflexivity.
  - intros fused Hk. apply slice_to_nonneg. exact Hk.
Qed.

End SearchFacts.

(* ================================================================== *)
(** * tokenize                                                        *)
(* ================================================================== *)

Lemma findall_skip (r : regex) (s : list ascii) (n : nat) :
  findall_from r s n = findall_from r (skipn n s) 0.
Proof.
  revert n. induction s as [|c s IH]; intros [|n]; try reflexivity.
  cbn [findall_from skipn]. apply IH.
Qed.

Lemma findall_match (r : regex) (t rest : list ascii) :
  t <> [] ->
  re_match r (t ++ rest) Some = Some rest ->
  findall_from r (t ++ rest) 0 = t :: findall_from r rest 0.
Proof.
  destruct t as [|c t]; [congruence|]. intros _ H.
  change ((c :: t) ++ rest) with (c :: (t ++ rest)) in *.
  cbn [findall_from]. rewrite H.
  replace (length (c :: t ++ rest) - length rest)%nat with (S (length t))
    by (cbn [length]; rewrite length_app; lia).
  cbn [firstn]. rewrite firstn_app, firstn_all, Nat.sub_diag.
  cbn [firstn]. rewrite app_nil_r. f_equal.
  rewrite findall_skip. f_equal.
  replace (S (length t) - 1)%nat with (length t) by lia.
  rewrite skipn_app, skipn_all, Nat.sub_diag. reflexivity.
Qed.

Lemma findall_no_match (r : regex) (c : ascii) (s : list ascii) :
  re_match r (c :: s) Some = None ->
  findall_from r (c :: s) 0 = findall_from r s 0.
Proof. intro H. cbn [findall_from]. rewrite H. reflexivity. Qed.

Lemma is_word_not_alnum (c : ascii) :
  is_word c = true -> is_alnum c = false -> is_hyphen c = true.
Proof. unfold is_word. intros H1 H2. rewrite H2 in H1. exact H1. Qed.

Lemma hyphen_not_alnum (c : ascii) : is_hyphen c = true -> is_alnum c = false.
Proof.
  unfold is_hyphen. intro H. apply Ascii.eqb_eq in H. subst. reflexivity.
Qed.

Lemma not_word_not_hyphen (c : ascii) :
  is_word c = false -> is_hyphen c = false /\ is_alnum c = false.
Proof.
  unfold is_word. intro H. apply orb_false_iff in H. tauto.
Qed.

(** What the greedy star followed by one alphanumeric character does: it
    stops behind the last alphanumeric character of the longest run of
    [[a-z0-9-]], and fails when that run has none. *)
Lemma star_closing (s : list ascii) :
  match star_match is_word closing s with
  | Some rest =>
      exists u c,
        s = u ++ c :: rest /\ forallb is_word u = true /\
        is_alnum c = true /\ token_ends rest = true
  | None => token_ends s = true
  end.
Proof.
  induction s as [|c s IH]; [reflexivity|].
  cbn [star_match]. destruct (is_word c) eqn:Ew.
  - destruct (star_match is_word closing s) as [rest|].
    + destruct IH as (u & c' & Hs & Hu & Hc & Hr).
      exists (c :: u), c'. subst s. cbn [forallb]. rewrite Ew. auto.
    + unfold closing. cbn [re_match]. destruct (is_alnum c) eqn:Ea.
      * exists [], c. auto.
      * cbn [token_ends].
        rewrite (is_word_not_alnum c Ew Ea). exact IH.
  - destruct (not_word_not_hyphen c Ew) as [Eh Ea].
    unfold closing. cbn [re_match]. rewrite Ea.
    cbn [token_ends]. rewrite Eh, Ew. reflexivity.
Qed.

(** A match of the token pattern at an alphanumeric character. *)
Lemma token_re_unfold (c : ascii) (s : list ascii) :
  is_alnum c = true ->
  re_match token_re (c :: s) Some =
  match star_match is_word closing s with
  | Some rest => Some rest
  | None => Some s
  end.
Proof. intro Ec. cbn [token_re re_match]. rewrite Ec. reflexivity. Qed.

Lemma token_re_match (c : ascii) (s : list ascii) :
  is_alnum c = true ->
  exists t rest,
    c :: s = t ++ rest /\ re_match token_re (c :: s) Some = Some rest /\
    token_form t = true /\ token_ends rest = true.
Proof.
  intro Ec. rewrite (token_re_unfold c s Ec).
  pose proof (star_closing s) as H.
  destruct (star_match is_word closing s) as [rest|].
  - destruct H as (u & c' & Hs & Hu & Hc & Hr).
    exists (c :: u ++ [c']), rest. subst s.
    split; [|split; [|split]].
    + cbn [app]. rewrite <- app_assoc. reflexivity.
    + reflexivity.
    + unfold token_form.
      change (c :: u ++ [c']) with ((c :: u) ++ [c']).
      rewrite last_last, forallb_app. cbn [forallb].
      unfold is_word at 1 3. rewrite Ec, Hc, Hu. reflexivity.
    + exact Hr.
  - exists [c], s. split; [|split; [|split]].
    + reflexivity.
    + reflexivity.
    + unfold token_form. cbn [last forallb]. unfold is_word. rewrite Ec.
      reflexivity.
    + exact H.
Qed.

Lemma token_re_no_match (c : ascii) (s : list ascii) :
  is_alnum c = false -> re_match token_re (c :: s) Some = None.
Proof. intro Ec. cbn [token_re re_match]. rewrite Ec. reflexivity. Qed.

Lemma tokens_of_gap (c : ascii) (s : list ascii) (ts : list (list ascii)) :
  is_alnum c = false -> tokens_of s ts -> tokens_of (c :: s) ts.
Proof.
  intros Ec H. destruct H as [gap Hg|gap t rest ts Hg Ht Hr Hrest].
  - apply tokens_none. cbn [existsb]. rewrite Ec. exact Hg.
  - change (c :: gap ++ t ++ rest) with ((c :: gap) ++ t ++ rest).
    apply tokens_next; try assumption.
    cbn [existsb]. rewrite Ec. exact Hg.
Qed.

(** [findall] with the token pattern yields the maximal tokens. *)
Lemma findall_tokens (s : list ascii) : tokens_of s (findall token_re s).
Proof.
  unfold findall.
  remember (length s) as n eqn:Hn. revert s Hn.
  induction n as [n IH] using lt_wf_ind. intros s Hn.
  destruct s as [|c s].
  - apply tokens_none. reflexivity.
  - destruct (is_alnum c) eqn:Ec.
    + destruct (token_re_match c s Ec) as (t & rest & Hs & Hm & Ht & Hr).
      assert (Hne : t <> []) by (destruct t; [discriminate | congruence]).
      rewrite Hs in *. rewrite findall_match by assumption.
      apply (tokens_next [] t rest); try assumption; [reflexivity|].
      apply (IH (length rest)); [|reflexivity].
      subst n. rewrite length_app. destruct t; [congruence|].
      cbn [length]. lia.
    + rewrite findall_no_match by (apply token_re_no_match; exact Ec).
      apply tokens_of_gap; [exact Ec|].
      apply (IH (length s)); [subst n; cbn [length]; lia | reflexivity].
Qed.

(** Uniqueness of the decomposition into maximal tokens. *)

Lemma token_form_head (t : list ascii) :
  token_form t = true ->
  exists c t', t = c :: t' /\ is_alnum c = true /\
               forallb is_word t = true /\ is_alnum (last t c) = true.
Proof.
  destruct t as [|c t']; [discriminate|]. unfold token_form.
  intro H. apply andb_true_iff in H. destruct H as [H H3].
  apply andb_true_iff in H. destruct H as [H1 H2].
  exists c, t'. auto.
Qed.

Lemma gap_split (g g' x x' : list ascii) (c c' : ascii) :
  existsb is_alnum g = false -> existsb is_alnum g' = false ->
  is_alnum c = true -> is_alnum c' = true ->
  g ++ c :: x = g' ++ c' :: x' -> g = g' /\ c :: x = c' :: x'.
Proof.
  revert g'. induction g as [|a g IH]; intros [|a' g'] Hg Hg' Hc Hc' H;
    cbn [app existsb] in *.
  - auto.
  - injection H as -> _. rewrite Hc in Hg'. discriminate.
  - injection H as -> _. rewrite Hc' in Hg. discriminate.
  - injection H as -> H. apply orb_false_iff in Hg, Hg'.
    destruct (IH g' (proj2 Hg) (proj2 Hg') Hc Hc' H) as [-> H'].
    auto.
Qed.

(** A token cannot end where more of it follows. *)
Lemma token_ends_false (u x : list ascii) (d : ascii) :
  u <> [] -> forallb is_word u = true -> is_alnum (last u d) = true ->
  token_ends (u ++ x) = false.
Proof.
  induction u as [|c u IH]; [congruence|]. intros _ Hw Hl.
  cbn [forallb] in Hw. apply andb_true_iff in Hw. destruct Hw as [Hc Hw].
  cbn [app token_ends]. destruct (is_hyphen c) eqn:Eh.
  - destruct u as [|c' u].
    + cbn [last] in Hl. rewrite (hyphen_not_alnum c Eh) in Hl. discriminate.
    + apply IH; [discriminate | exact Hw | exact Hl].
  - rewrite Hc. reflexivity.
Qed.

Lemma forallb_suffix {A : Type} (p : A -> bool) (l1 l2 : list A) :
  forallb p (l1 ++ l2) = true -> forallb p l2 = true.
Proof. rewrite forallb_app. intro H. apply andb_true_iff in H. tauto. Qed.

Lemma last_suffix {A : Type} (l1 l2 : list A) (d d' : A) :
  l2 <> [] -> last (l1 ++ l2) d = last l2 d'.
Proof.
  intro H. destruct l2 as [|x l2] using rev_ind; [congruence|].
  rewrite app_assoc, !last_last. reflexivity.
Qed.

Lemma token_split (t t' rest rest' : list ascii) :
  token_form t = true -> token_form t' = true ->
  token_ends rest = true -> token_ends rest' = true ->
  t ++ rest = t' ++ rest' -> t = t' /\ rest = rest'.
Proof.
  intros Ht Ht' Hr Hr' H.
  destruct (token_form_head t Ht) as (c & t0 & Et & Hc & Hw & Hl).
  destruct (token_form_head t' Ht') as (c' & t0' & Et' & Hc' & Hw' & Hl').
  apply app_eq_app in H. destruct H as [u [[H1 H2]|[H1 H2]]].
  - destruct u as [|a u].
    + rewrite app_nil_r in H1. subst. auto.
    + exfalso. rewrite H2 in Hr'.
      rewrite (token_ends_false (a :: u) rest c) in Hr';
        [discriminate | discriminate | |].
      * rewrite H1 in Hw. exact (forallb_suffix _ _ _ Hw).
      * rewrite H1 in Hl.
        rewrite (last_suffix t' (a :: u) c c) in Hl by discriminate.
        exact Hl.
  - destruct u as [|a u].
    + rewrite app_nil_r in H1. subst. auto.
    + exfalso. rewrite H2 in Hr.
      rewrite (token_ends_false (a :: u) rest' c') in Hr;
        [discriminate | discriminate | |].
      * rewrite H1 in Hw'. exact (forallb_suffix _ _ _ Hw').
      * rewrite H1 in Hl'.
        rewrite (last_suffix t (a :: u) c' c') in Hl' by discriminate.
        exact Hl'.
Qed.

Lemma gap_has_no_token (gap g t rest : list ascii) :
  existsb is_alnum gap = false -> existsb is_alnum g = false ->
  token_form t = true -> gap <> g ++ t ++ rest.
Proof.
  intros Hgap Hg Ht H.
  destruct (token_form_head t Ht) as (c & t0 & -> & Hc & _ & _).
  assert (Hin : existsb is_alnum gap = true).
  { apply existsb_exists. exists c. split; [|exact Hc].
    rewrite H. apply in_or_app. right. left. reflexivity. }
  congruence.
Qed.

Lemma tokens_of_unique (s : list ascii) (ts ts' : list (list ascii)) :
  tokens_of s ts -> tokens_of s ts' -> ts = ts'.
Proof.
  intro H. revert ts'.
  induction H as [gap Hg|gap t rest ts Hg Ht Hr Hrest IH]; intros ts' H'.
  - inversion H' as [g Hg' E|g t' rest' ts0 Hg' Ht' Hr' Hrest' E];
      [reflexivity|].
    exfalso. symmetry in E. revert E.
    apply gap_has_no_token; assumption.
  - inversion H' as [g Hg' E|g t' rest' ts0 Hg' Ht' Hr' Hrest' E].
    + exfalso. subst g. revert Hg'. intro Hg'.
      apply (gap_has_no_token (gap ++ t ++ rest) gap t rest Hg' Hg Ht).
      reflexivity.
    + destruct (token_form_head t Ht) as (c & t0 & Et & Hc & _ & _).
      destruct (token_form_head t' Ht') as (c' & t0' & Et' & Hc' & _ & _).
      assert (Hsplit : g = gap /\ t' ++ rest' = t ++ rest).
      { rewrite Et, Et' in E. cbn [app] in E.
        destruct (gap_split g gap _ _ c' c Hg' Hg Hc' Hc E) as [-> E'].
        split; [reflexivity|]. rewrite Et, Et'. exact E'. }
      destruct Hsplit as [-> E2].
      destruct (token_split t' t rest' rest Ht' Ht Hr' Hr E2) as [-> ->].
      f_equal. apply IH. exact Hrest'.
Qed.

Lemma lower_char_idempotent_on_tokens (c : ascii) :
  is_word c = true -> lower_char c = c.
Proof.
  destruct c as [[] [] [] [] [] [] [] []]; try reflexivity; discriminate.
Qed.

Lemma tokenize_example :
  tokenize "Error E-4012, retry!" = ["error"; "e-4012"; "retry"].
Proof. reflexivity. Qed.

(** ** C7 *)

(** C7. [tokenize] works on the lowercased input, and what it returns are
    the maximal tokens of that text, left to right: the text reads gap,
    token, ..., gap, where each token is a non-empty run of [[a-z0-9-]] that
    begins and ends alphanumeric and is continued by neither neighbour, and
    no gap holds an alphanumeric character, so nothing is dropped or
    rewritten.  That decomposition is unique, so the result is a function
    of the text alone.  Every token consists of lowercase letters, digits
    and hyphens, and
    [tokenize "Error E-4012, retry!" = ["error"; "e-4012"; "retry"]]. *)
Theorem tokenize_maximal_tokens :
  (forall text : string,
     tokenize text =
     map string_of_list_ascii (tokenize_chars (list_ascii_of_string text))) /\
  (forall text : list ascii,
     tokens_of (lower text) (tokenize_chars text)) /\
  (forall (text : list ascii) (ts : list (list ascii)),
     tokens_of (lower text) ts -> ts = tokenize_chars text) /\
  (forall text : list ascii,
     Forall (fun t => token_form t = true /\ lower t = t)
            (tokenize_chars text)) /\
  tokenize "Error E-4012, retry!" = ["error"; "e-4012"; "retry"].
Proof.
  split; [reflexivity|].
  split; [intro text; apply findall_tokens|].
  split.
  { intros text ts H. eapply tokens_of_unique; [exact H|].
    apply findall_tokens. }
  split; [|exact tokenize_example].
  intro text. unfold tokenize_chars.
  generalize (findall_tokens (lower text)).
  generalize (findall token_re (lower text)) (lower text).
  intros ts s H.
  induction H as [gap Hg|gap t rest ts0 Hg Ht Hr Hrest IH]; constructor;
    [|exact IH].
  split; [exact Ht|].
  destruct (token_form_head t Ht) as (c & t0 & _ & _ & Hw & _).
  clear - Hw. induction t as [|a t IHt]; [reflexivity|].
  cbn [forallb] in Hw. apply andb_true_iff in Hw. destruct Hw as [Ha Hw].
  cbn [lower map]. rewrite (lower_char_idempotent_on_tokens a Ha).
  f_equal. apply IHt. exact Hw.
Qed.

(* ================================================================== *)
(** * Instances                                                       *)
(* ================================================================== *)

Lemma bm25_search_ranking_witness :
  BM25Index_init sample_docs = Ok sample_index /\
  search sample_weight sample_index "login error" 1 =
  map (hit sample_docs
           (get_scores sample_weight (_bm25 sample_index)
                       (tokenize "login error")))
      (enumerate 1 (firstn (Z.to_nat 1) [0%nat; 1%nat])) /\
  length (search sample_weight sample_index "login error" 1)
  = Nat.min (Z.to_nat 1) (length sample_docs).
Proof.
  assert (Hidx : BM25Index_init sample_docs = Ok sample_index)
    by (vm_compute; reflexivity).
  destruct (bm25_search_ranking sample_weight sample_docs sample_index
              "login error" 1 Hidx)
    as (order & _ & _ & _ & _ & Hfirst & _).
  destruct Hfirst as [_ Hlen]; [discriminate|].
  split; [exact Hidx|]. split; [reflexivity | exact Hlen].
Defined.




Lemma hybrid_falls_back_once_witness :
  BM25Index_init sample_docs = Ok sample_index /\
  search_hybrid sample_weight sample_embed store_counting 2
                sample_index "login" 0 (Some eu_only) 60 []
  = ([mk_request [[1%Q; 0%Q]] 0 (Some eu_only);
      mk_request [[1%Q; 0%Q]] 0 None],
     Some (Ok [])).
Proof.
  split; [vm_compute; reflexivity|].
  destruct (hybrid_falls_back_once sample_weight sample_embed
              store_counting sample_index "login" 0 (Some eu_only) 60 [])
    as (_ & _ & _ & _ & Hretry & _).
  rewrite (Hretry [mk_request [[1%Q; 0%Q]] 0 (Some eu_only)]);
    [|vm_compute; reflexivity | reflexivity].
  vm_compute. reflexivity.
Defined.

Lemma dense_retries_once_without_filter_witness :
  search_dense sample_embed store_down "login" 5 (Some eu_only) []
  = ([mk_request [[1%Q; 0%Q]] 5 (Some eu_only);
      mk_request [[1%Q; 0%Q]] 5 None],
     Raise (PortError "unreachable")) /\
  search_dense sample_embed store_down "login" 5 None []
  = ([mk_request [[1%Q; 0%Q]] 5 None], Raise (PortError "unreachable")).
Proof.
  destruct (dense_retries_once_without_filter sample_weight sample_embed
              store_down "login" 5 (Some eu_only) [] [1%Q; 0%Q]
              (PortError "unreachable") eq_refl) as (Hretry & _ & _ & _).
  destruct (dense_retries_once_without_filter sample_weight sample_embed
              store_down "login" 5 None [] [1%Q; 0%Q]
              (PortError "unreachable") eq_refl) as (_ & Hraise & _ & _).
  split.
  - rewrite Hretry; reflexivity.
  - rewrite Hraise; reflexivity.
Defined.

Lemma unrecognized_predicates_evaluate_silently_witness :
  op_holds (Some (MStr "EU")) "$regex" (JStr "^US") = Ok true /\
  evaluate_condition (flatten_meta sample_article)
    (JObj [("severity", JObj [("$eq", JStr "high")])])
  = eval_ops None [("$eq", JStr "high")].
Proof.
  destruct unrecognized_predicates_evaluate_silently as (Hop & _ & Hfield & _).
  split.
  - apply Hop. simpl. intuition discriminate.
  - apply Hfield; [simpl; intuition discriminate | discriminate | discriminate].
Defined.

(** An operator the evaluator does not know passes, a field it does not
    know fails, and neither raises. *)
Lemma unrecognized_predicates_not_surfaced :
  ~ In "$regex" recognized_ops /\
  evaluate_condition (flatten_meta sample_article)
    (JObj [("region", JObj [("$regex", JStr "^US")])]) = Ok true /\
  ~ In "severity" metadata_fields /\
  evaluate_condition (flatten_meta sample_article)
    (JObj [("severity", JObj [("$eq", JStr "high")])]) = Ok false /\
  ~ (forall meta field op target,
       ~ In op recognized_ops ->
       exists e,
         evaluate_condition meta (JObj [(field, JObj [(op, target)])])
         = Raise e).
Proof.
  assert (Hop : ~ In "$regex" recognized_ops)
    by (simpl; intuition discriminate).
  repeat split.
  - exact Hop.
  - simpl. intuition discriminate.
  - intro H.
    destruct (H (flatten_meta sample_article) "region" "$regex"
                (JStr "^US") Hop) as [e He].
    vm_compute in He. discriminate.
Qed.

(** The record built for an article with two error codes has no field
    [error_codes]; a leaf on that name does not see the joined string. *)
Lemma error_codes_field_is_absent :
  dict_get "error_codes" (flatten_meta sample_article)
    <> Some (MStr "E-1001,E-2002") /\
  evaluate_condition (flatten_meta sample_article)
    (JObj [("error_codes", JObj [("$eq", JStr "E-1001,E-2002")])])
  = Ok false /\
  evaluate_condition (flatten_meta sample_article)
    (JObj [("error_codes_str", JObj [("$eq", JStr "E-1001,E-2002")])])
  = Ok true.
Proof. repeat split. discriminate. Qed.

(** An order comparison of a string field with a number makes
    [apply_filters] raise instead of returning a list. *)
Lemma apply_filters_raises_on_mixed_types :
  apply_filters [sample_hit] [("region", JObj [("$gt", JNum 5)])]
                sample_articles
  = Raise TypeError /\
  ~ (forall results where_ arts,
       exists out, apply_filters results where_ arts = Ok out).
Proof.
  split; [reflexivity|].
  intro H.
  destruct (H [sample_hit] [("region", JObj [("$gt", JNum 5)])]
              sample_articles) as [out Hout].
  vm_compute in Hout. discriminate.
Qed.

Lemma apply_filters_frame_witness :
  apply_filters [sample_hit; mk_result "d9" None 1 2] eu_only sample_articles
  = Ok (filter (satisfies eu_only sample_articles)
               [sample_hit; mk_result "d9" None 1 2]) /\
  apply_filters [mk_result "d9" None 1 1; sample_hit]
                [("region", JObj [("$gt", JNum 5)])] sample_articles
  = Raise TypeError.
Proof.
  split.
  - apply (proj1 (proj2 (apply_filters_frame
                           [sample_hit; mk_result "d9" None 1 2] eu_only
                           sample_articles))).
    + discriminate.
    + intros r a [<-|[<-|[]]] Ha; vm_compute in Ha;
        [injection Ha as <-; eexists; vm_compute; reflexivity | discriminate].
  - apply (proj2 (proj2 (proj2 (proj2 (proj2 (proj2
             (apply_filters_frame
                [mk_result "d9" None 1 1; sample_hit]
                [("region", JObj [("$gt", JNum 5)])] sample_articles))))))).
    split; [discriminate|].
    exists [mk_result "d9" None 1 1], sample_hit, sample_article, [].
    split; [reflexivity|]. split; [|split; reflexivity].
    intros r a [<-|[]] Ha. vm_compute in Ha. discriminate.
Defined.

Lemma produced_ranks_contiguous_witness :
  (exists fused,
     reciprocal_rank_fusion [[sample_hit]; [sample_hit]] 60 = Ok fused /\
     contiguous_ranks fused) /\
  (exists log' out,
     search_hybrid sample_weight sample_embed store_rejecting_filters 2
                   sample_index "login" 2 (Some eu_only) 60 []
     = (log', Some (Ok out)) /\
     contiguous_ranks out).
Proof.
  destruct (produced_ranks_contiguous sample_weight sample_embed
              store_rejecting_filters) as (_ & _ & _ & _ & _ & Hrrf & Hhyb).
  split.
  - eexists. split; [vm_compute; reflexivity|].
    apply (Hrrf [[sample_hit]; [sample_hit]] 60). vm_compute. reflexivity.
  - eexists _, _. split; [vm_compute; reflexivity|].
    eapply (Hhyb 2%nat sample_index "login" 2 (Some eu_only)
                 60 []).
    vm_compute. reflexivity.
Defined.

Lemma tokenize_maximal_tokens_witness :
  [["h"; "i"; "-"; "5"]; ["x"]]%char
  = tokenize_chars ["H"; "i"; "-"; "5"; "-"; " "; "x"; "!"]%char.
Proof.
  apply (proj1 (proj2 (proj2 tokenize_maximal_tokens))).
  apply (tokens_next [] ["h"; "i"; "-"; "5"]%char
                     ["-"; " "; "x"; "!"]%char [["x"]%char]);
    try reflexivity.
  apply (tokens_next ["-"; " "]%char ["x"]%char ["!"]%char []);
    try reflexivity.
  apply tokens_none. reflexivity.
Defined.

(* ================================================================== *)
(** * tokenize: how texts compose                                     *)
(* ================================================================== *)

Lemma list_ascii_of_string_app (a b : string) :
  list_ascii_of_string (a ++ b)
  = list_ascii_of_string a ++ list_ascii_of_string b.
Proof. induction a as [|c a IH]; simpl; [reflexivity | now rewrite IH]. Qed.

Lemma tokens_of_gap_app (g s : list ascii) (ts : list (list ascii)) :
  existsb is_alnum g = false -> tokens_of s ts -> tokens_of (g ++ s) ts.
Proof.
  induction g as [|c g IH]; simpl; intros Hg Hs; [exact Hs|].
  apply orb_false_iff in Hg. destruct Hg as [Hc Hg].
  apply tokens_of_gap; auto.
Qed.

Lemma token_ends_app (rest x : list ascii) (sep : ascii) :
  token_ends rest = true -> is_word sep = false ->
  token_ends (rest ++ sep :: x) = true.
Proof.
  intros Hr Hsep. induction rest as [|c rest IH]; simpl in *.
  - destruct (not_word_not_hyphen sep Hsep) as [Hh _].
    rewrite Hh, Hsep. reflexivity.
  - destruct (is_hyphen c); auto.
Qed.

Lemma tokens_of_app (s1 s2 : list ascii) (ts1 ts2 : list (list ascii))
    (sep : ascii) :
  is_word sep = false -> tokens_of s1 ts1 -> tokens_of s2 ts2 ->
  tokens_of (s1 ++ sep :: s2) (ts1 ++ ts2).
Proof.
  intros Hsep H1 H2. induction H1 as [gap Hgap|gap t rest ts Hgap Ht Hr H1 IH].
  - simpl. apply tokens_of_gap_app; [exact Hgap|].
    apply tokens_of_gap; [|exact H2].
    apply (not_word_not_hyphen sep Hsep).
  - rewrite <- !app_assoc. simpl.
    apply tokens_next; auto. apply token_ends_app; assumption.
Qed.

Lemma tokenize_chars_unique (text : list ascii) (ts : list (list ascii)) :
  tokens_of (lower text) ts -> tokenize_chars text = ts.
Proof.
  intro H. apply (tokens_of_unique (lower text)); [|exact H].
  apply findall_tokens.
Qed.

Lemma tokenize_chars_app (a b : list ascii) (sep : ascii) :
  is_word (lower_char sep) = false ->
  tokenize_chars (a ++ sep :: b) = tokenize_chars a ++ tokenize_chars b.
Proof.
  intro Hsep. apply tokenize_chars_unique.
  unfold lower. rewrite map_app. simpl.
  apply tokens_of_app; [exact Hsep | apply findall_tokens ..].
Qed.

Lemma tokenize_space (a b : string) :
  tokenize (a ++ " " ++ b)%string = tokenize a ++ tokenize b.
Proof.
  unfold tokenize. rewrite list_ascii_of_string_app. simpl.
  rewrite tokenize_chars_app by reflexivity. apply map_app.
Qed.

(** ** X1 *)

(** X1. The tokens of two texts joined by a character that cannot be part
    of a token (its lowercase is outside [[a-z0-9-]]) are the tokens of the
    first followed by the tokens of the second.  [BM25Index.__init__] joins
    title and body with a space, so the token list a document has in the
    index it returns is the title's tokens followed by the body's. *)
Theorem tokenize_concatenation :
  (forall (a b : list ascii) (sep : ascii),
     is_word (lower_char sep) = false ->
     tokenize_chars (a ++ sep :: b) = tokenize_chars a ++ tokenize_chars b) /\
  (forall a b : string,
     tokenize (a ++ " " ++ b)%string = tokenize a ++ tokenize b) /\
  (forall (docs : list article) (idx : BM25Index),
     BM25Index_init docs = Ok idx ->
     okapi_corpus (_bm25 idx) =
     map (fun doc => tokenize (a_title doc) ++ tokenize (a_body doc)) docs).
Proof.
  split; [|split].
  - apply tokenize_chars_app.
  - apply tokenize_space.
  - intros docs idx Hidx. apply BM25Index_init_built in Hidx. subst idx.
    simpl. apply map_ext. intro doc. apply tokenize_space.
Qed.

Lemma lower_char_idempotent (c : ascii) :
  lower_char (lower_char c) = lower_char c.
Proof.
  destruct c as [[] [] [] [] [] [] [] []]; reflexivity.
Qed.

Lemma lower_idempotent (s : list ascii) : lower (lower s) = lower s.
Proof.
  unfold lower. rewrite map_map. apply map_ext, lower_char_idempotent.
Qed.

Lemma token_form_lower (t : list ascii) :
  token_form t = true -> lower t = t.
Proof.
  intro H. destruct (token_form_head t H) as (c & t' & _ & _ & Hw & _).
  unfold lower. rewrite <- (map_id t) at 2. apply map_ext_in.
  intros x Hx. apply lower_char_idempotent_on_tokens.
  rewrite forallb_forall in Hw. auto.
Qed.

Lemma tokenize_chars_token (t : list ascii) :
  token_form t = true -> tokenize_chars t = [t].
Proof.
  intro H. apply tokenize_chars_unique. rewrite (token_form_lower t H).
  rewrite <- (app_nil_r t) at 1.
  apply (tokens_next [] t [] []); auto.
  apply (tokens_none []). reflexivity.
Qed.

Lemma tokenize_chars_forms (text : list ascii) :
  Forall (fun t => token_form t = true) (tokenize_chars text).
Proof.
  unfold tokenize_chars.
  generalize (findall_tokens (lower text)).
  generalize (findall token_re (lower text)) as ts.
  generalize (lower text) as s.
  intros s ts H. induction H; constructor; auto.
Qed.

Lemma tokenize_joined (ts : list (list ascii)) :
  Forall (fun t => token_form t = true) ts ->
  tokenize_chars
    (list_ascii_of_string (join " " (map string_of_list_ascii ts)))
  = ts.
Proof.
  unfold join. induction 1 as [|t ts Ht Hts IH]; [reflexivity|].
  destruct ts as [|t' ts].
  - simpl. rewrite list_ascii_of_string_of_list_ascii.
    apply tokenize_chars_token, Ht.
  - change (String.concat " " (map string_of_list_ascii (t :: t' :: ts)))
      with (string_of_list_ascii t ++ " " ++
            String.concat " " (map string_of_list_ascii (t' :: ts)))%string.
    rewrite list_ascii_of_string_app, list_ascii_of_string_of_list_ascii.
    change (list_ascii_of_string
              (" " ++ String.concat " " (map string_of_list_ascii (t' :: ts))))
      with (" "%char ::
            list_ascii_of_string
              (String.concat " " (map string_of_list_ascii (t' :: ts)))).
    rewrite tokenize_chars_app by reflexivity.
    rewrite IH, (tokenize_chars_token t Ht). reflexivity.
Qed.

(** ** X2 *)

(** X2. Tokenizing is a normalisation that is stable under itself: a text
    and its lowercase have the same tokens, every token is tokenized to
    itself, and the tokens of a text joined by spaces tokenize back to the
    same list. *)
Theorem tokenize_round_trip (text : string) :
  tokenize_chars (lower (list_ascii_of_string text))
  = tokenize_chars (list_ascii_of_string text) /\
  Forall (fun t => tokenize t = [t]) (tokenize text) /\
  tokenize (join " " (tokenize text)) = tokenize text.
Proof.
  split; [|split].
  - unfold tokenize_chars. rewrite lower_idempotent. reflexivity.
  - unfold tokenize. apply Forall_map.
    eapply Forall_impl; [|apply tokenize_chars_forms].
    intros t Ht. simpl. rewrite list_ascii_of_string_of_list_ascii.
    rewrite (tokenize_chars_token t Ht). reflexivity.
  - unfold tokenize at 1 2.
    rewrite tokenize_joined by apply tokenize_chars_forms. reflexivity.
Qed.

(* ================================================================== *)
(** * BM25Index.search: the cut-off                                   *)
(* ================================================================== *)

Lemma enumerate_firstn {A : Type} (l : list A) (m : nat) (start : Z) :
  firstn m (enumerate start l) = enumerate start (firstn m l).
Proof.
  revert m start. induction l as [|x l IH]; intros [|m] start; simpl; auto.
  now rewrite IH.
Qed.

(** ** X3 *)

(** X3. Asking [BM25Index.search] for fewer results gives a prefix of what
    it gives for more, ranks included: the cut-off never changes which
    document is at which rank. *)
Theorem search_prefix
    (term_weight : list (list string) -> string -> list string -> Q)
    (idx : BM25Index) (query : string) (k1 k2 : Z) :
  0 <= k1 -> k1 <= k2 ->
  search term_weight idx query k1
  = firstn (Z.to_nat k1) (search term_weight idx query k2).
Proof.
  intros H1 H2. unfold search.
  rewrite !slice_to_nonneg by lia.
  rewrite firstn_map, enumerate_firstn, firstn_firstn.
  replace (Nat.min (Z.to_nat k1) (Z.to_nat k2)) with (Z.to_nat k1) by lia.
  reflexivity.
Qed.

(* ================================================================== *)
(** * _chroma_to_results: alignment of the four answer lists          *)
(* ================================================================== *)

Lemma zip4_length {A B C D : Type} (la : list A) (lb : list B) (lc : list C)
    (ld : list D) :
  length (zip4 la lb lc ld) =
  Nat.min (Nat.min (length la) (length lb))
          (Nat.min (length lc) (length ld)).
Proof.
  revert lb lc ld. induction la as [|a la IH]; intros [|b lb] [|c lc] [|d ld];
    simpl; try lia.
  rewrite IH. reflexivity.
Qed.

Lemma zip4_first {A B C D : Type} (la : list A) (lb : list B) (lc : list C)
    (ld : list D) :
  map (fun q : A * B * C * D => fst (fst (fst q))) (zip4 la lb lc ld)
  = firstn (length (zip4 la lb lc ld)) la.
Proof.
  revert lb lc ld. induction la as [|a la IH]; intros [|b lb] [|c lc] [|d ld];
    simpl; try reflexivity.
  rewrite IH. reflexivity.
Qed.

Lemma zip4_fourth {A B C D : Type} (la : list A) (lb : list B) (lc : list C)
    (ld : list D) :
  map (fun q : A * B * C * D => snd q) (zip4 la lb lc ld)
  = firstn (length (zip4 la lb lc ld)) ld.
Proof.
  revert lb lc ld. induction la as [|a la IH]; intros [|b lb] [|c lc] [|d ld];
    simpl; try reflexivity.
  rewrite IH. reflexivity.
Qed.

(** ** X4 *)


(* ================================================================== *)
(** * _evaluate_condition: the shape of a condition                   *)
(* ================================================================== *)

Lemma dict_case_found {V R : Type} (k : string) (found : V -> R)
    (missing : R) (d : list (string * V)) (v : V) :
  dict_get k d = Some v -> dict_case k found missing d = found v.
Proof.
  induction d as [|[k' v'] d IH]; simpl; [discriminate|].
  destruct (String.eqb k k'); [intros [= ->]; reflexivity | exact IH].
Qed.

Lemma dict_get_none_mem {V : Type} (k : string) (d : dict V) :
  dict_get k d = None -> dict_mem k d = false.
Proof. unfold dict_mem. intros ->. reflexivity. Qed.

Lemma bind_ok {A B : Type} (m : res A) (f : A -> res B) (y : B) :
  bind m f = Ok y <-> exists x, m = Ok x /\ f x = Ok y.
Proof.
  destruct m as [a|e]; simpl; split.
  - intro H. exists a. auto.
  - intros (x & [= ->] & H). exact H.
  - discriminate.
  - intros (x & H & _). discriminate.
Qed.

(** ** X5 *)

(** X5. A condition dict that has the key ["$and"] is evaluated as that
    conjunction alone: every other key beside it, field constraints and
    ["$or"] included, is ignored.  Without ["$and"], a key ["$or"] likewise
    hides all field constraints beside it. *)
Theorem logical_keys_take_precedence
    (meta : dict mval) (d : list (string * json)) (v : json) :
  (dict_get "$and" d = Some v ->
   evaluate_condition meta (JObj d)
   = evaluate_condition meta (JObj [("$and", v)])) /\
  (dict_get "$and" d = None -> dict_get "$or" d = Some v ->
   evaluate_condition meta (JObj d)
   = evaluate_condition meta (JObj [("$or", v)])).
Proof.
  split.
  - intro H. cbn [evaluate_condition].
    rewrite (dict_case_found _ _ _ _ _ H).
    rewrite (dict_case_found "$and" _ _ [("$and", v)] v eq_refl). reflexivity.
  - intros Hand Hor. cbn [evaluate_condition].
    rewrite (dict_case_missing "$and" _ _ d (dict_get_none_mem _ _ Hand)).
    rewrite (dict_case_missing "$and" _ _ [("$or", v)] eq_refl).
    rewrite (dict_case_found _ _ _ _ _ Hor).
    rewrite (dict_case_found "$or" _ _ [("$or", v)] v eq_refl). reflexivity.
Qed.

Lemma dict_mem_single_false {V : Type} (k field : string) (v : V) :
  field <> k -> dict_mem k [(field, v)] = false.
Proof.
  intro H. unfold dict_mem. simpl.
  destruct (String.eqb_spec k field); [congruence | reflexivity].
Qed.

Lemma dict_mem_cons_false {V : Type} (k : string) (item : string * V)
    (rest : dict V) :
  dict_mem k (item :: rest) = false ->
  dict_mem k [item] = false /\ dict_mem k rest = false.
Proof.
  destruct item as [f v]. unfold dict_mem. simpl.
  destruct (String.eqb k f); [discriminate|]. auto.
Qed.

Lemma py_all_pass (x : res bool) : py_all [x] = x.
Proof. destruct x as [[]|]; reflexivity. Qed.

(** ** X6 *)

(** X6. A field constraint that is not a dict is the shorthand for [$eq]:
    [{field: v}] and [{field: {"$eq": v}}] evaluate alike, to whether the
    field's value equals [v].  A dict of several field constraints is their
    conjunction, evaluated left to right and stopping at the first that
    fails or raises. *)
Theorem shorthand_and_conjunction (meta : dict mval) :
  (forall (field : string) (v : json),
     is_dict v = false -> field <> "$and" -> field <> "$or" ->
     evaluate_condition meta (JObj [(field, v)])
     = evaluate_condition meta (JObj [(field, JObj [("$eq", v)])]) /\
     evaluate_condition meta (JObj [(field, v)])
     = Ok (py_eq (dict_get field meta) v)) /\
  (forall (item : string * json) (rest : list (string * json)),
     dict_mem "$and" (item :: rest) = false ->
     dict_mem "$or" (item :: rest) = false ->
     evaluate_condition meta (JObj (item :: rest))
     = py_all [evaluate_condition meta (JObj [item]);
               evaluate_condition meta (JObj rest)]).
Proof.
  split.
  - intros field v Hv Ha Ho.
    rewrite !evaluate_plain by (apply dict_mem_single_false; assumption).
    cbn [eval_items eval_ops]. unfold op_holds. cbn [String.eqb Ascii.eqb Bool.eqb bind].
    destruct v; try discriminate Hv;
      destruct (py_eq (dict_get field meta) _); split; reflexivity.
  - intros item rest Ha Ho.
    destruct (dict_mem_cons_false _ _ _ Ha) as [Ha1 Ha2].
    destruct (dict_mem_cons_false _ _ _ Ho) as [Ho1 Ho2].
    rewrite !evaluate_plain by assumption.
    destruct item as [f c]. cbn [eval_items].
    destruct c as [| b | z | s | l | ops].
    1-5: destruct (py_eq (dict_get f meta) _); cbn [py_all];
         [apply eq_sym, py_all_pass | reflexivity].
    destruct (eval_ops (dict_get f meta) ops) as [[]|e]; cbn [bind py_all];
      [apply eq_sym, py_all_pass | reflexivity | reflexivity].
Qed.

(* ================================================================== *)
(** * apply_filters: repeated and combined filters                    *)
(* ================================================================== *)

Lemma filter_results_kept (where_ : dict json) (arts : dict article)
    (out : list result) :
  Forall (fun r => satisfies where_ arts r = true) out ->
  filter_results where_ arts out = Ok out.
Proof.
  induction 1 as [|r out Hr _ IH]; [reflexivity|].
  cbn [filter_results]. unfold satisfies in Hr.
  destruct (dict_get (doc_id r) arts) as [a|]; [|discriminate].
  destruct (evaluate_condition (flatten_meta a) (JObj where_)) as [b|e];
    [|discriminate].
  subst b. cbn [bind]. rewrite IH. reflexivity.
Qed.

(** ** X7 *)

(** X7. [apply_filters] only ever removes results: what it returns is the
    input with some items left out, in the input's order, and filtering
    the outcome again with the same where clause changes nothing and
    cannot raise. *)
Theorem apply_filters_idempotent
    (results : list result) (where_ : dict json) (arts : dict article)
    (out : list result) :
  apply_filters results where_ arts = Ok out ->
  apply_filters out where_ arts = Ok out /\
  (exists keep, out = filter keep results) /\
  (length out <= length results)%nat.
Proof.
  unfold apply_filters. destruct (is_empty where_) eqn:E.
  - intros [= <-]. split; [reflexivity|]. split; [|lia].
    exists (fun _ => true). symmetry. apply forallb_filter_id.
    apply forallb_forall. reflexivity.
  - intro H. apply filter_results_ok in H. subst out.
    split; [|split].
    + apply filter_results_kept. apply Forall_forall.
      intros r Hr. apply filter_In in Hr. tauto.
    + eexists. reflexivity.
    + apply filter_length_le.
Qed.

Lemma evaluate_and_pair (meta : dict mval) (c1 c2 : list (string * json)) :
  evaluate_condition meta (JObj [("$and", JArr [JObj c1; JObj c2])])
  = py_all [evaluate_condition meta (JObj c1);
            evaluate_condition meta (JObj c2)].
Proof. reflexivity. Qed.

Lemma filter_results_conjunction (c1 c2 : list (string * json))
    (arts : dict article) (results : list result) :
  forall out,
    filter_results [("$and", JArr [JObj c1; JObj c2])] arts results = Ok out
    <->
    exists mid, filter_results c1 arts results = Ok mid /\
                filter_results c2 arts mid = Ok out.
Proof.
  induction results as [|r rest IH]; intro out.
  - simpl. split.
    + intros [= <-]. exists []. split; reflexivity.
    + intros (mid & [= <-] & H). exact H.
  - cbn [filter_results].
    destruct (dict_get (doc_id r) arts) as [a|] eqn:Ea; [|apply IH].
    rewrite evaluate_and_pair.
    destruct (evaluate_condition (flatten_meta a) (JObj c1)) as [[]|e1].
    + replace (py_all [Ok true;
                       evaluate_condition (flatten_meta a) (JObj c2)])
        with (evaluate_condition (flatten_meta a) (JObj c2))
        by (symmetry; apply py_all_pass).
      cbn [bind].
      destruct (evaluate_condition (flatten_meta a) (JObj c2)) as [b|e2] eqn:E2;
        cbn [bind].
      * split.
        -- intro H. apply bind_ok in H. destruct H as (f & Hf & [= <-]).
           apply IH in Hf. destruct Hf as (m & Hm & Hf).
           exists (r :: m). rewrite Hm. cbn [bind]. split; [reflexivity|].
           cbn [filter_results]. rewrite Ea, E2. cbn [bind]. rewrite Hf.
           reflexivity.
        -- intros (mid & Hmid & Hout).
           apply bind_ok in Hmid. destruct Hmid as (m & Hm & [= <-]).
           cbn [filter_results] in Hout. rewrite Ea, E2 in Hout.
           cbn [bind] in Hout.
           apply bind_ok in Hout. destruct Hout as (f & Hf & [= <-]).
           assert (Hw : filter_results [("$and", JArr [JObj c1; JObj c2])]
                                       arts rest = Ok f).
           { apply IH. exists m. auto. }
           rewrite Hw. reflexivity.
      * split; [discriminate|].
        intros (mid & Hmid & Hout).
        apply bind_ok in Hmid. destruct Hmid as (m & Hm & [= <-]).
        cbn [filter_results] in Hout. rewrite Ea, E2 in Hout. discriminate.
    + cbn [py_all bind]. split.
      * intro H. apply bind_ok in H. destruct H as (f & Hf & [= <-]).
        apply IH in Hf. destruct Hf as (m & Hm & Hf).
        exists m. rewrite Hm. cbn [bind]. auto.
      * intros (mid & Hmid & Hout).
        apply bind_ok in Hmid. destruct Hmid as (m & Hm & [= <-]).
        assert (Hw : filter_results [("$and", JArr [JObj c1; JObj c2])]
                                    arts rest = Ok out).
        { apply IH. exists m. auto. }
        rewrite Hw. reflexivity.
    + cbn [py_all bind]. split; [discriminate|].
      intros (mid & Hmid & _). discriminate.
Qed.

(** ** X8 *)

(** X8. Filtering by the conjunction [{"$and": [c1, c2]}] of two non-empty
    conditions succeeds exactly when filtering by [c1] and then filtering
    the outcome by [c2] succeeds, and gives the same list. *)
Theorem apply_filters_conjunction
    (results : list result) (c1 c2 : list (string * json))
    (arts : dict article) (out : list result) :
  c1 <> [] -> c2 <> [] ->
  (apply_filters results [("$and", JArr [JObj c1; JObj c2])] arts = Ok out
   <->
   exists mid, apply_filters results c1 arts = Ok mid /\
               apply_filters mid c2 arts = Ok out).
Proof.
  intros H1 H2. unfold apply_filters.
  destruct c1 as [|i1 c1]; [congruence|].
  destruct c2 as [|i2 c2]; [congruence|].
  cbn [is_empty]. apply filter_results_conjunction.
Qed.

(* ================================================================== *)
(** * search_sparse: the mapping from ids to articles                 *)
(* ================================================================== *)

Lemma find_app_first {A : Type} (p : A -> bool) (l1 l2 : list A) :
  find p (l1 ++ l2) =
  match find p l1 with
  | Some x => Some x
  | None => find p l2
  end.
Proof.
  induction l1 as [|x l1 IH]; simpl; [reflexivity|].
  destruct (p x); [reflexivity | exact IH].
Qed.

Lemma fold_set_lookup (docs : list article) (d0 : dict article) (id : string) :
  dict_get id (fold_left (fun d a => dict_set (a_doc_id a) a d) docs d0) =
  match last_with_id docs id with
  | Some a => Some a
  | None => dict_get id d0
  end.
Proof.
  unfold last_with_id. revert d0.
  induction docs as [|a docs IH]; intro d0; [reflexivity|].
  cbn [fold_left rev]. rewrite IH, find_app_first.
  destruct (find _ (rev docs)); [reflexivity|]. cbn [find].
  destruct (String.eqb_spec (a_doc_id a) id) as [<-|Hne].
  - apply dict_get_set_same.
  - apply dict_get_set_other. congruence.
Qed.

Lemma index_by_id_last (docs : list article) (id : string) :
  dict_get id (index_by_id docs) = last_with_id docs id.
Proof.
  unfold index_by_id. rewrite fold_set_lookup.
  destruct (last_with_id docs id); reflexivity.
Qed.

Lemma last_with_id_some (docs : list article) (id : string) (a : article) :
  last_with_id docs id = Some a -> In a docs /\ a_doc_id a = id.
Proof.
  unfold last_with_id. intro H. apply find_some in H. destruct H as [Hin He].
  apply in_rev in Hin. apply String.eqb_eq in He. auto.
Qed.

Lemma last_with_id_none (docs : list article) (id : string) :
  last_with_id docs id = None <-> ~ In id (map a_doc_id docs).
Proof.
  unfold last_with_id. split.
  - intros H Hin. apply in_map_iff in Hin. destruct Hin as (a & <- & Hin).
    apply in_rev in Hin. apply (find_none _ _ H a) in Hin.
    rewrite String.eqb_refl in Hin. discriminate.
  - intro H. destruct (find _ (rev docs)) as [a|] eqn:E; [|reflexivity].
    apply find_some in E. destruct E as [Hin He].
    apply in_rev in Hin. apply String.eqb_eq in He.
    exfalso. apply H. rewrite <- He. apply in_map. exact Hin.
Qed.

Lemma nodup_map_injective {A B : Type} (f : A -> B) (l : list A) (x y : A) :
  NoDup (map f l) -> In x l -> In y l -> f x = f y -> x = y.
Proof.
  induction l as [|z l IH]; simpl; [tauto|].
  intros Hnd Hx Hy Hf. inversion Hnd as [|? ? Hz Hnd']; subst.
  destruct Hx as [<-|Hx], Hy as [<-|Hy]; auto.
  - exfalso. apply Hz. rewrite Hf. apply in_map. exact Hy.
  - exfalso. apply Hz. rewrite <- Hf. apply in_map. exact Hx.
Qed.

(** ** X9 *)

(** X9. The mapping [{a["doc_id"]: a for a in documents}] that
    [search_sparse], [search_hybrid] and [apply_filters] look articles up
    in: an id maps to the article loaded last under it, an id no article
    carries is absent, and when the ids are distinct every article is found
    under its own id. *)
Theorem index_by_id_lookup (docs : list article) :
  (forall id, dict_get id (index_by_id docs) = last_with_id docs id) /\
  (forall id a, dict_get id (index_by_id docs) = Some a ->
                In a docs /\ a_doc_id a = id) /\
  (forall id, dict_get id (index_by_id docs) = None <->
              ~ In id (map a_doc_id docs)) /\
  (NoDup (map a_doc_id docs) ->
   forall a, In a docs -> dict_get (a_doc_id a) (index_by_id docs) = Some a).
Proof.
  split; [|split; [|split]].
  - apply index_by_id_last.
  - intros id a. rewrite index_by_id_last. apply last_with_id_some.
  - intro id. rewrite index_by_id_last. apply last_with_id_none.
  - intros Hnd a Hin. rewrite index_by_id_last.
    destruct (last_with_id docs (a_doc_id a)) as [a'|] eqn:E.
    + apply last_with_id_some in E. destruct E as [Hin' He].
      f_equal. apply (nodup_map_injective a_doc_id docs); auto.
    + apply last_with_id_none in E. exfalso. apply E, in_map, Hin.
Qed.

Lemma enrich_known (arts : dict article) (r : result) (a : article) :
  dict_get (doc_id r) arts = Some a ->
  enrich arts r = mk_result (doc_id r) (Some (display_of a)) (score r) (rank r).
Proof. intro H. unfold enrich. rewrite H. reflexivity. Qed.

Lemma enrich_fields (arts : dict article) (l : list result) :
  map doc_id (map (enrich arts) l) = map doc_id l /\
  map score (map (enrich arts) l) = map score l /\
  map rank (map (enrich arts) l) = map rank l.
Proof. rewrite !map_map. repeat split. Qed.

Lemma in_slice_to {A : Type} (x : A) (l : list A) (n : Z) :
  In x (slice_to l n) -> In x l.
Proof.
  destruct (slice_to_prefix l n) as [m ->]. apply in_firstn.
Qed.

Lemma in_enumerate_snd {A : Type} (p : Z * A) (l : list A) (start : Z) :
  In p (enumerate start l) -> In (snd p) l.
Proof.
  intro H. rewrite <- (enumerate_snd l start). apply in_map. exact H.
Qed.

Lemma search_ids_known
    (term_weight : list (list string) -> string -> list string -> Q)
    (docs : list article) (query : string) (top_k : Z) (r : result) :
  In r (search term_weight (indexed docs) query top_k) ->
  In (doc_id r) (map a_doc_id docs).
Proof.
  rewrite search_by_ranking. cbv zeta. intro H.
  apply in_map_iff in H. destruct H as (p & <- & Hp).
  apply in_enumerate_snd, in_slice_to in Hp.
  apply (Permutation_in _ (ranking_perm _)) in Hp.
  apply in_seq in Hp. rewrite get_scores_length in Hp.
  cbn [hit doc_id]. apply nth_In. rewrite length_map. lia.
Qed.

(** ** X10 *)

(** X10. On an index [BM25Index.__init__] returned, [search_sparse]
    returns the BM25 hits with their ids, scores and ranks unchanged and
    adds to each the display fields of the article the index holds under
    the hit's id (the one loaded last, should an id occur twice); a missing
    metadata field shows as the empty string or [False]. *)
Theorem search_sparse_enriches
    (term_weight : list (list string) -> string -> list string -> Q)
    (docs : list article) (idx : BM25Index) (query : string) (top_k : Z) :
  BM25Index_init docs = Ok idx ->
  let hits := search term_weight idx query top_k in
  let out := search_sparse term_weight idx query top_k in
  map doc_id out = map doc_id hits /\
  map score out = map score hits /\
  map rank out = map rank hits /\
  Forall (fun r => exists a, last_with_id docs (doc_id r) = Some a /\
                             In a docs /\ a_doc_id a = doc_id r /\
                             shown r = Some (display_of a)) out.
Proof.
  intros Hidx. apply BM25Index_init_built in Hidx. subst idx.
  intros hits out. unfold out, search_sparse. fold hits.
  destruct (enrich_fields (index_by_id (_documents (indexed docs))) hits)
    as (H1 & H2 & H3).
  split; [exact H1|]. split; [exact H2|]. split; [exact H3|].
  apply Forall_map, Forall_forall. intros r Hr.
  apply search_ids_known in Hr.
  cbn [_documents indexed].
  destruct (last_with_id docs (doc_id r)) as [a|] eqn:E.
  - exists a. destruct (last_with_id_some _ _ _ E) as [Hin He].
    rewrite (enrich_known _ r a) by (rewrite index_by_id_last; exact E).
    auto.
  - apply last_with_id_none in E. contradiction.
Qed.

(* ================================================================== *)
(** * reciprocal_rank_fusion: what is kept of a document              *)
(* ================================================================== *)

Lemma rrf_fold_ok_nonzero (k : Z) (items : list result) (st st' : rrf_state) :
  fold_res (rrf_visit k) items st = Ok st' ->
  Forall (has_quotient k) items.
Proof.
  revert st. induction items as [|r items IH]; intros st H; [constructor|].
  cbn [fold_res] in H. destruct st as [scores dd]. unfold rrf_visit in H.
  destruct (reciprocal k (rank r)) as [t|e] eqn:E; [|discriminate].
  apply reciprocal_ok_inv in E. destruct E as (Hnz & Hfit & _).
  constructor; [split; assumption | eapply IH; exact H].
Qed.

(** The fusion returns only when every result has its quotient. *)
Lemma rrf_ok_nonzero (lists : list (list result)) (k : Z)
    (fused : list result) :
  reciprocal_rank_fusion lists k = Ok fused ->
  Forall (Forall (has_quotient k)) lists.
Proof.
  unfold reciprocal_rank_fusion. intro H.
  apply bind_ok in H. destruct H as (st & Hst & _).
  rewrite rrf_accumulate_flat in Hst. apply rrf_fold_ok_nonzero in Hst.
  clear - Hst. induction lists as [|L lists IH]; [constructor|].
  simpl in Hst. apply Forall_app in Hst. destruct Hst as [H1 H2].
  constructor; auto.
Qed.

Lemma first_with_id_snoc (items : list result) (r : result) (d : string) :
  first_with_id (items ++ [r]) d =
  match first_with_id items d with
  | Some x => Some x
  | None => if String.eqb (doc_id r) d then Some r else None
  end.
Proof. unfold first_with_id. rewrite find_app_first. reflexivity. Qed.

Lemma first_with_id_in (items : list result) (d : string) :
  In d (map doc_id items) -> exists r, first_with_id items d = Some r.
Proof.
  unfold first_with_id. intro H.
  destruct (find _ items) as [r|] eqn:E; [eauto|].
  apply in_map_iff in H. destruct H as (r & <- & Hin).
  apply (find_none _ _ E) in Hin. rewrite String.eqb_refl in Hin.
  discriminate.
Qed.

Lemma rrf_doc_data_invariant (k : Z) (items : list result) :
  forall scores doc_data,
    fold_res (rrf_visit k) items ([], []) = Ok (scores, doc_data) ->
    forall d, dict_get d doc_data = option_map shown (first_with_id items d).
Proof.
  induction items as [|r items IH] using rev_ind; intros scores dd H d.
  - injection H as <- <-. reflexivity.
  - rewrite fold_res_app in H. apply bind_ok in H.
    destruct H as ([s0 d0] & H0 & Hr).
    specialize (IH s0 d0 H0). cbn [fold_res] in Hr. unfold rrf_visit in Hr.
    destruct (reciprocal k (rank r)) as [t|e]; [|discriminate].
    cbn [bind] in Hr. injection Hr as <- <-. rewrite first_with_id_snoc.
    destruct (dict_mem (doc_id r) d0) eqn:Em.
    + rewrite IH. destruct (first_with_id items d) eqn:Ef; [reflexivity|].
      destruct (String.eqb_spec (doc_id r) d) as [<-|Hne]; [|reflexivity].
      unfold dict_mem in Em. rewrite IH, Ef in Em. discriminate.
    + destruct (String.eqb_spec (doc_id r) d) as [<-|Hne].
      * rewrite dict_get_set_same.
        unfold dict_mem in Em. rewrite IH in Em.
        destruct (first_with_id items (doc_id r)); [discriminate|reflexivity].
      * rewrite dict_get_set_other by congruence. rewrite IH.
        destruct (first_with_id items d); reflexivity.
Qed.

Lemma rrf_fused_entries (lists : list (list result)) (k : Z)
    (fused : list result) :
  reciprocal_rank_fusion lists k = Ok fused ->
  Forall (fun e => exists r, first_with_id (concat lists) (doc_id e) = Some r /\
                             shown e = shown r) fused.
Proof.
  intro H. pose proof (rrf_ok_nonzero _ _ _ H) as Hnz.
  unfold reciprocal_rank_fusion in H. apply bind_ok in H.
  destruct H as ([scores dd] & Hst & Hf). injection Hf as <-.
  rewrite rrf_accumulate_flat in Hst.
  assert (Hnz' : Forall (has_quotient k) (concat lists)).
  { clear - Hnz. induction Hnz; simpl; [constructor|].
    apply Forall_app. auto. }
  destruct (rrf_loop_invariant k _ Hnz') as (s' & d' & Hst' & _ & Hkeys & _).
  rewrite Hst in Hst'. injection Hst' as <- <-.
  pose proof (rrf_doc_data_invariant k _ _ _ Hst) as Hdd.
  apply Forall_map, Forall_forall. intros [rk id] Hin.
  apply in_enumerate_snd in Hin. cbn [snd] in Hin.
  apply (Permutation_in _ (sorted_desc_perm _ _)) in Hin.
  apply Hkeys in Hin. destruct (first_with_id_in _ _ Hin) as [r Hr].
  exists r. cbn [doc_id shown]. split; [exact Hr|].
  rewrite Hdd, Hr. reflexivity.
Qed.

(** ** X11 *)


(* ================================================================== *)
(** * reciprocal_rank_fusion: one list                                *)
(* ================================================================== *)

Lemma dict_set_fresh {V : Type} (k : string) (v : V) (d : dict V) :
  dict_get k d = None -> dict_set k v d = d ++ [(k, v)].
Proof.
  induction d as [|[k' v'] d IH]; simpl; [reflexivity|].
  destruct (String.eqb k k'); [discriminate|].
  intro H. rewrite IH by exact H. reflexivity.
Qed.

Lemma dict_get_app {V : Type} (k : string) (d1 d2 : dict V) :
  dict_get k (d1 ++ d2) =
  match dict_get k d1 with
  | Some v => Some v
  | None => dict_get k d2
  end.
Proof.
  induction d1 as [|[k' v'] d1 IH]; simpl; [reflexivity|].
  destruct (String.eqb k k'); [reflexivity | exact IH].
Qed.

Lemma dict_get_map_absent {V : Type} (f : result -> V) (L : list result)
    (d : string) :
  ~ In d (map doc_id L) ->
  dict_get d (map (fun r => (doc_id r, f r)) L) = None.
Proof.
  induction L as [|r L IH]; simpl; [reflexivity|].
  intro H. destruct (String.eqb_spec d (doc_id r)) as [->|Hne]; [tauto|].
  apply IH. tauto.
Qed.

Lemma dict_get_map_member {V : Type} (f : result -> V) (L : list result)
    (r : result) :
  NoDup (map doc_id L) -> In r L ->
  dict_get (doc_id r) (map (fun r => (doc_id r, f r)) L) = Some (f r).
Proof.
  induction L as [|x L IH]; simpl; [tauto|].
  intros Hnd [->|Hin].
  - rewrite String.eqb_refl. reflexivity.
  - inversion Hnd as [|? ? Hx Hnd']; subst.
    destruct (String.eqb_spec (doc_id r) (doc_id x)) as [E|_].
    + exfalso. apply Hx. rewrite <- E. apply in_map. exact Hin.
    + apply IH; assumption.
Qed.

Lemma rrf_fold_fresh (k : Z) (L : list result) :
  NoDup (map doc_id L) -> Forall (has_quotient k) L ->
  forall scores doc_data,
    (forall r, In r L -> dict_get (doc_id r) scores = None) ->
    (forall r, In r L -> dict_get (doc_id r) doc_data = None) ->
    fold_res (rrf_visit k) L (scores, doc_data) =
    Ok (scores ++
        map (fun r => (doc_id r, float_add 0 (rrf_term k (rank r)))) L,
        doc_data ++ map (fun r => (doc_id r, shown r)) L).
Proof.
  induction L as [|r L IH]; intros Hnd Hnz scores dd Hs Hd.
  - simpl. rewrite !app_nil_r. reflexivity.
  - inversion Hnd as [|? ? Hr Hnd']; subst.
    inversion Hnz as [|? ? [Hz Hfit] Hnz']; subst.
    cbn [fold_res]. unfold rrf_visit.
    rewrite (reciprocal_defined k (rank r) Hz Hfit). cbn [bind].
    unfold dict_mem, score_of.
    rewrite (Hs r (or_introl eq_refl)), (Hd r (or_introl eq_refl)).
    cbn [get_or]. rewrite !dict_set_fresh by auto using in_eq.
    rewrite IH; auto.
    + cbn [map]. rewrite <- !app_assoc. reflexivity.
    + intros r' Hr'. rewrite dict_get_app, Hs by (right; exact Hr').
      simpl. destruct (String.eqb_spec (doc_id r') (doc_id r)) as [E|_];
        [|reflexivity].
      exfalso. apply Hr. rewrite <- E. apply in_map. exact Hr'.
    + intros r' Hr'. rewrite dict_get_app, Hd by (right; exact Hr').
      simpl. destruct (String.eqb_spec (doc_id r') (doc_id r)) as [E|_];
        [|reflexivity].
      exfalso. apply Hr. rewrite <- E. apply in_map. exact Hr'.
Qed.

Lemma insert_desc_front {A : Type} (key : A -> Q) (x : A) (l : list A) :
  Forall (fun y => Qltb (key x) (key y) = false) l ->
  insert_desc key x l = x :: l.
Proof.
  destruct l as [|y l]; [reflexivity|].
  intro H. inversion H as [|? ? Hy _]; subst. simpl. rewrite Hy. reflexivity.
Qed.

Lemma sorted_desc_already {A : Type} (key : A -> Q) (l : list A) :
  StronglySorted (fun x y => Qltb (key x) (key y) = false) l ->
  sorted_desc key l = l.
Proof.
  induction 1 as [|x l _ IH Hx]; [reflexivity|].
  unfold sorted_desc in *. cbn [fold_right]. rewrite IH.
  apply insert_desc_front, Hx.
Qed.

(** Adding a float to 0.0 returns it. *)
Lemma float_add_0_l (x : Q) :
  (float_add 0 (round_float x) == round_float x)%Q.
Proof.
  unfold float_add.
  rewrite (round_float_comp (0 + round_float x) (round_float x))
    by apply Qplus_0_l.
  apply round_float_idempotent.
Qed.

Lemma descending_by_rank (key : string -> Q) (k : Z) (L : list result) :
  StronglySorted (fun x y => rank x < rank y) L ->
  Forall (fun r => 0 < k + rank r) L ->
  (forall r, In r L -> key (doc_id r) = float_add 0 (rrf_term k (rank r))) ->
  StronglySorted
    (fun x y => Qltb (key (doc_id x)) (key (doc_id y)) = false) L.
Proof.
  induction 1 as [|x l Hl IH Hx]; intros Hpos Hkey; constructor.
  - apply IH.
    + inversion Hpos; assumption.
    + intros r Hr. apply Hkey. right. exact Hr.
  - apply Forall_forall. intros y Hy.
    rewrite Forall_forall in Hx. specialize (Hx y Hy).
    rewrite (Hkey x (or_introl eq_refl)), (Hkey y (or_intror Hy)).
    apply Qltb_ge. apply round_float_le. apply Qplus_le_r.
    apply rrf_term_antitone; [|lia].
    inversion Hpos; assumption.
Qed.

Lemma fused_scores_along (scores : dict Q) (dd : dict (option display))
    (k : Z) (L : list result) :
  (forall r, In r L ->
             score_of scores (doc_id r) = float_add 0 (rrf_term k (rank r))) ->
  forall start,
    Forall2 (fun e r => (score e == rrf_term k (rank r))%Q)
      (map (fun x : Z * result =>
              mk_result (doc_id (snd x))
                (get_or (dict_get (doc_id (snd x)) dd) None)
                (score_of scores (doc_id (snd x))) (fst x))
           (enumerate start L)) L.
Proof.
  induction L as [|r L IH]; intros Hscore start; cbn [enumerate map];
    constructor.
  - cbn [score snd]. rewrite (Hscore r (or_introl eq_refl)).
    apply float_add_0_l.
  - apply IH. intros r' Hr'. apply Hscore. right. exact Hr'.
Qed.

(** ** X12 *)

(** X12. Fusing a single ranked list whose documents are distinct, whose
    ranks increase down the list and all have a [k + rank] that is positive
    and converts to a float gives the list back in its own order: same
    documents, same display fields, the float quotient [1.0 / (k + rank)]
    as score, and the ranks renumbered 1, 2, ....  The rounded quotients
    never increase where the denominators grow. *)
Theorem rrf_single_list_keeps_order (L : list result) (k : Z) :
  NoDup (map doc_id L) ->
  StronglySorted (fun x y => rank x < rank y) L ->
  Forall (fun r => 0 < k + rank r <= float_max_int) L ->
  exists fused,
    reciprocal_rank_fusion [L] k = Ok fused /\
    map doc_id fused = map doc_id L /\
    map shown fused = map shown L /\
    Forall2 (fun e r => (score e == rrf_term k (rank r))%Q) fused L /\
    map rank fused = counting 1 (length L).
Proof.
  intros Hnd Hsorted Hfit.
  assert (Hpos : Forall (fun r => 0 < k + rank r) L)
    by (eapply Forall_impl; [|exact Hfit]; simpl; intros; lia).
  set (scores :=
         map (fun r => (doc_id r, float_add 0 (rrf_term k (rank r)))) L).
  set (dd := map (fun r => (doc_id r, shown r)) L).
  assert (Hacc : rrf_accumulate [L] k = Ok (scores, dd)).
  { unfold rrf_accumulate. cbn [fold_res].
    rewrite (rrf_fold_fresh k L Hnd); [reflexivity | | |]; try reflexivity.
    eapply Forall_impl; [|exact Hfit]. unfold has_quotient. simpl. intros; lia. }
  assert (Hkeys : dict_keys scores = map doc_id L).
  { unfold scores, dict_keys. rewrite map_map. reflexivity. }
  assert (Hscore : forall r, In r L ->
            score_of scores (doc_id r) = float_add 0 (rrf_term k (rank r))).
  { intros r Hr. unfold score_of, scores.
    rewrite (dict_get_map_member _ L r Hnd Hr). reflexivity. }
  assert (Hsame : sorted_desc (score_of scores) (dict_keys scores)
                  = map doc_id L).
  { rewrite Hkeys, sorted_desc_map. f_equal.
    apply sorted_desc_already.
    apply (descending_by_rank (score_of scores) k L); assumption. }
  unfold reciprocal_rank_fusion. rewrite Hacc. cbn [bind]. rewrite Hsame.
  eexists. split; [reflexivity|].
  destruct (fused_shape scores dd (map doc_id L) 1) as (Hids & Hranks & _).
  cbv zeta in Hids, Hranks.
  split; [exact Hids|]. split; [|split].
  - rewrite enumerate_map, !map_map.
    rewrite <- (enumerate_snd L 1) at 2. rewrite map_map.
    apply map_ext_in. intros [rk r] Hin. cbn [fst snd shown].
    apply in_enumerate_snd in Hin. cbn [snd] in Hin. unfold dd.
    rewrite (dict_get_map_member _ L r Hnd Hin). reflexivity.
  - rewrite enumerate_map, map_map.
    apply fused_scores_along, Hscore.
  - rewrite Hranks, length_map, enumerate_length, length_map. reflexivity.
Qed.

(* ================================================================== *)
(** * The search functions: calls made and results returned          *)
(* ================================================================== *)

Lemma chroma_shown (qr : query_result) :
  Forall (fun r => shown r <> None) (_chroma_to_results qr).
Proof.
  unfold _chroma_to_results. apply Forall_map, Forall_forall.
  intros [rk [[[i t] m] d]] _. discriminate.
Qed.

Lemma nodup_firstn {A : Type} (n : nat) (l : list A) :
  NoDup l -> NoDup (firstn n l).
Proof.
  intro H. rewrite <- (firstn_skipn n l) in H.
  apply NoDup_app_remove_r in H. exact H.
Qed.

Lemma slice_to_nonempty {A : Type} (l : list A) (n : Z) :
  0 < n -> l <> [] -> slice_to l n <> [].
Proof.
  intros Hn Hl E. pose proof (slice_to_empty l n Hn) as H.
  rewrite E in H. destruct l; [congruence | discriminate].
Qed.

Section OrchestratorFacts.
Variable term_weight : list (list string) -> string -> list string -> Q.
Variable embed_query : string -> res (list Q).
Variable collection_query : list request -> request -> res query_result.

(** The calls one run of [search_dense] adds to the log. *)
Lemma search_dense_log (query : string) (top_k : Z)
    (where_ : option (dict json)) (log : list request) :
  exists calls,
    fst (search_dense embed_query collection_query query top_k where_ log)
    = log ++ calls /\
    (length calls <= 2)%nat /\
    (truthy where_ = false -> (length calls <= 1)%nat) /\
    Forall (fun rq =>
              n_results rq = top_k /\
              (exists emb, embed_query query = Ok emb /\
                           query_embeddings rq = [emb]) /\
              (where_arg rq = None \/
               (truthy where_ = true /\ where_arg rq = where_))) calls /\
    (forall e, embed_query query = Raise e ->
               calls = [] /\
               snd (search_dense embed_query collection_query query top_k
                                 where_ log) = Raise e).
Proof.
  destruct (embed_query query) as [emb|e0] eqn:Hemb.
  - rewrite (search_dense_unfold embed_query collection_query query top_k
               where_ log emb Hemb). cbv zeta.
    assert (Hfirst :
      n_results (mk_request [emb] top_k
                   (if truthy where_ then where_ else None)) = top_k /\
      (exists emb0, Ok emb = Ok emb0 /\
         query_embeddings (mk_request [emb] top_k
                   (if truthy where_ then where_ else None)) = [emb0]) /\
      (where_arg (mk_request [emb] top_k
                   (if truthy where_ then where_ else None)) = None \/
       (truthy where_ = true /\
        where_arg (mk_request [emb] top_k
                   (if truthy where_ then where_ else None)) = where_))).
    { split; [reflexivity|]. split; [eauto|]. cbn [where_arg].
      destruct (truthy where_); auto. }
    destruct (collection_query log _) as [qr|e].
    + eexists. split; [reflexivity|]. cbn [length].
      split; [lia|]. split; [lia|]. split; [|discriminate].
      constructor; [exact Hfirst | constructor].
    + destruct (truthy where_) eqn:Et.
      * eexists. split; [reflexivity|]. cbn [length].
        split; [lia|]. split; [discriminate|]. split; [|discriminate].
        constructor; [exact Hfirst|]. constructor; [|constructor].
        split; [reflexivity|]. split; [eauto|]. left. reflexivity.
      * eexists. split; [reflexivity|]. cbn [length].
        split; [lia|]. split; [lia|]. split; [|discriminate].
        constructor; [exact Hfirst | constructor].
  - exists []. unfold search_dense, io_bind, io_lift. rewrite Hemb.
    cbn [fst snd]. rewrite app_nil_r. split; [reflexivity|].
    cbn [length]. split; [lia|]. split; [lia|]. split; [constructor|].
    intros e [= <-]. auto.
Qed.

Lemma search_dense_ok (query : string) (top_k : Z)
    (where_ : option (dict json)) (log log' : list request)
    (dense : list result) :
  search_dense embed_query collection_query query top_k where_ log
  = (log', Ok dense) ->
  exists qr, dense = _chroma_to_results qr.
Proof.
  destruct (embed_query query) as [emb|e0] eqn:Hemb.
  - rewrite (search_dense_unfold embed_query collection_query query top_k
               where_ log emb Hemb). cbv zeta.
    destruct (collection_query log _) as [qr|e].
    + intros [= _ <-]. eauto.
    + destruct (truthy where_); [|discriminate].
      destruct (collection_query _ _) as [qr|e']; [|discriminate].
      intros [= _ <-]. eauto.
  - unfold search_dense, io_bind, io_lift. rewrite Hemb. discriminate.
Qed.

(** ** X13 *)

(** X13. What [search_dense] asks of the vector store: nothing at all when
    the query cannot be embedded; otherwise one request, or two when a
    filter is present and the first request raised.  Every request asks for
    [top_k] results with the one query embedding, and carries either no
    where clause or the caller's non-empty one: an empty dict is never
    sent.  When the first request succeeds its answer is the result and
    no second request is made. *)
Theorem search_dense_requests (query : string) (top_k : Z)
    (where_ : option (dict json)) (log : list request) :
  (exists calls,
     fst (search_dense embed_query collection_query query top_k where_ log)
     = log ++ calls /\
     (length calls <= 2)%nat /\
     (truthy where_ = false -> (length calls <= 1)%nat) /\
     Forall (fun rq =>
               n_results rq = top_k /\
               (exists emb, embed_query query = Ok emb /\
                            query_embeddings rq = [emb]) /\
               (where_arg rq = None \/
                (truthy where_ = true /\ where_arg rq = where_))) calls /\
     Forall (fun rq => where_arg rq <> Some []) calls /\
     (forall e, embed_query query = Raise e ->
                calls = [] /\
                snd (search_dense embed_query collection_query query top_k
                                  where_ log) = Raise e)) /\
  (forall emb qr,
     embed_query query = Ok emb ->
     collection_query log
       (mk_request [emb] top_k (if truthy where_ then where_ else None))
     = Ok qr ->
     search_dense embed_query collection_query query top_k where_ log
     = (log ++ [mk_request [emb] top_k
                           (if truthy where_ then where_ else None)],
        Ok (_chroma_to_results qr))).
Proof.
  split.
  - destruct (search_dense_log query top_k where_ log)
      as (calls & H1 & H2 & H3 & H4 & H5).
    exists calls. repeat (split; [assumption|]). split; [|exact H5].
    eapply Forall_impl; [|exact H4].
    intros rq (_ & _ & [E|[Et E]]); rewrite E; [discriminate|].
    intros ->. discriminate.
  - intros emb qr Hemb Hq.
    rewrite (search_dense_unfold embed_query collection_query query top_k
               where_ log emb Hemb). cbv zeta. rewrite Hq. reflexivity.
Qed.

Lemma hybrid_fused_ok (idx : BM25Index) (query : string) (top_k : Z)
    (where_ : option (dict json)) (rrf_k : Z) (log log' : list request)
    (fused : list result) :
  hybrid_fused term_weight embed_query collection_query idx query top_k
               where_ rrf_k log = (log', Ok fused) ->
  exists dense raw,
    search_dense embed_query collection_query query (top_k * 3) where_ log
    = (log', Ok dense) /\
    sparse_branch term_weight idx query top_k where_ = Ok raw /\
    reciprocal_rank_fusion
      [dense; map (enrich (index_by_id (_documents idx))) raw] rrf_k
    = Ok fused.
Proof.
  unfold hybrid_fused, io_bind, io_lift.
  destruct (search_dense _ _ _ _ _ _) as [log1 [dense|e]]; [|discriminate].
  destruct (sparse_branch _ _ _ _ _) as [raw|e]; [|discriminate].
  intro H. injection H as <- H. exists dense, raw. auto.
Qed.

Lemma rrf_nodup (lists : list (list result)) (k : Z) (fused : list result) :
  reciprocal_rank_fusion lists k = Ok fused -> NoDup (map doc_id fused).
Proof.
  intro H. destruct (rrf_general lists k (rrf_ok_nonzero _ _ _ H))
    as (fused' & H' & Hnd & _).
  rewrite H in H'. injection H' as <-. exact Hnd.
Qed.

Lemma rrf_members (lists : list (list result)) (k : Z) (fused : list result)
    (d : string) :
  reciprocal_rank_fusion lists k = Ok fused ->
  (In d (map doc_id fused) <-> exists L, In L lists /\ contains L d = true).
Proof.
  intro H. destruct (rrf_general lists k (rrf_ok_nonzero _ _ _ H))
    as (fused' & H' & _ & Hmem & _).
  rewrite H in H'. injection H' as <-. apply Hmem.
Qed.

Lemma hybrid_fused_shown (idx : BM25Index) (query : string) (top_k : Z)
    (where_ : option (dict json)) (rrf_k : Z) (log log' : list request)
    (fused : list result) :
  hybrid_fused term_weight embed_query collection_query idx query top_k
               where_ rrf_k log = (log', Ok fused) ->
  Forall (fun r => shown r <> None) fused.
Proof.
  intro H. destruct (hybrid_fused_ok _ _ _ _ _ _ _ _ H)
    as (dense & raw & Hd & _ & Hrrf).
  destruct (search_dense_ok _ _ _ _ _ _ Hd) as [qr ->].
  eapply Forall_impl; [|apply (rrf_fused_entries _ _ _ Hrrf)].
  intros e (r & Hr & ->). apply find_some in Hr. destruct Hr as [Hin _].
  cbn [concat] in Hin. rewrite app_nil_r in Hin.
  apply in_app_or in Hin. destruct Hin as [Hin|Hin].
  - pose proof (chroma_shown qr) as Hs. rewrite Forall_forall in Hs. auto.
  - apply in_map_iff in Hin. destruct Hin as (r0 & <- & _). discriminate.
Qed.

(** ** X14 *)

(** X14. Whatever [search_hybrid] returns holds no document twice, gives
    every result its display fields, and for [top_k >= 0] has at most
    [top_k] results. *)
Theorem search_hybrid_results (depth : nat) (idx : BM25Index)
    (query : string) (top_k : Z) (where_ : option (dict json)) (rrf_k : Z)
    (log log' : list request) (out : list result) :
  search_hybrid term_weight embed_query collection_query depth idx query
                top_k where_ rrf_k log = (log', Some (Ok out)) ->
  NoDup (map doc_id out) /\
  Forall (fun r => shown r <> None) out /\
  (0 <= top_k -> (length out <= Z.to_nat top_k)%nat).
Proof.
  revert where_ log. induction depth as [|depth IH]; intros where_ log;
    [discriminate|].
  rewrite search_hybrid_step.
  destruct (hybrid_fused _ _ _ _ _ _ _ _ _) as [log1 [fused|e]] eqn:Hf;
    [|discriminate].
  destruct (is_empty fused && truthy where_); [apply IH|].
  intros [= _ <-].
  destruct (hybrid_fused_ok _ _ _ _ _ _ _ _ Hf) as (dense & raw & _ & _ & Hrrf).
  pose proof (hybrid_fused_shown _ _ _ _ _ _ _ _ Hf) as Hshown.
  split; [|split].
  - destruct (slice_to_prefix fused top_k) as [m ->].
    rewrite <- firstn_map. apply nodup_firstn. eapply rrf_nodup, Hrrf.
  - apply Forall_forall. intros r Hr. apply in_slice_to in Hr.
    rewrite Forall_forall in Hshown. auto.
  - intro Hk. rewrite slice_to_nonneg by exact Hk. apply firstn_le_length.
Qed.

(** ** X15 *)

(** X15. One [search_hybrid] makes at most three requests to the vector
    store, and at most one when called without a filter.  Each asks for
    [3 * top_k] results and carries either no where clause or the caller's
    non-empty one. *)
Theorem search_hybrid_requests (depth : nat) (idx : BM25Index)
    (query : string) (top_k : Z) (where_ : option (dict json)) (rrf_k : Z)
    (log : list request) :
  exists calls,
    fst (search_hybrid term_weight embed_query collection_query depth idx
                       query top_k where_ rrf_k log) = log ++ calls /\
    (length calls <= 3)%nat /\
    (truthy where_ = false -> (length calls <= 1)%nat) /\
    Forall (fun rq =>
              n_results rq = top_k * 3 /\
              (where_arg rq = None \/
               (truthy where_ = true /\ where_arg rq = where_))) calls.
Proof.
  assert (Hpass : forall w l,
    exists calls,
      fst (hybrid_fused term_weight embed_query collection_query idx query
                        top_k w rrf_k l) = l ++ calls /\
      (length calls <= 2)%nat /\
      (truthy w = false -> (length calls <= 1)%nat) /\
      Forall (fun rq =>
                n_results rq = top_k * 3 /\
                (where_arg rq = None \/
                 (truthy w = true /\ where_arg rq = w))) calls).
  { intros w l. rewrite hybrid_fused_log.
    destruct (search_dense_log query (top_k * 3) w l)
      as (calls & H1 & H2 & H3 & H4 & _).
    exists calls. repeat (split; [assumption|]).
    eapply Forall_impl; [|exact H4]. intros rq (Hn & _ & Hw). auto. }
  destruct depth as [|depth].
  { exists []. cbn [search_hybrid fst length]. rewrite app_nil_r.
    split; [reflexivity|]. split; [lia|]. split; [lia|]. constructor. }
  rewrite search_hybrid_step.
  destruct (Hpass where_ log) as (c1 & H1 & H2 & H3 & H4).
  destruct (hybrid_fused _ _ _ _ _ _ _ _ _) as [log1 [fused|e]] eqn:Hf;
    cbn [fst] in H1; subst log1.
  - destruct (is_empty fused && truthy where_) eqn:Eb.
    + apply andb_true_iff in Eb. destruct Eb as [_ Et].
      destruct depth as [|depth].
      * exists c1. cbn [search_hybrid fst].
        split; [reflexivity|]. split; [lia|]. split; [exact H3 | exact H4].
      * rewrite search_hybrid_unfiltered.
        destruct (Hpass None (log ++ c1)) as (c2 & G1 & G2 & G3 & G4).
        specialize (G3 eq_refl).
        exists (c1 ++ c2). rewrite app_assoc.
        split.
        { destruct (hybrid_fused _ _ _ _ _ _ None _ _) as [l2 [f2|e2]];
            cbn [fst] in *; exact G1. }
        rewrite length_app. split; [lia|].
        split; [intro Ef; congruence|].
        apply Forall_app. split; [exact H4|].
        eapply Forall_impl; [|exact G4].
        intros rq (Hn & [E|[Ebad _]]); [auto | discriminate].
    + exists c1. cbn [fst]. split; [reflexivity|]. split; [lia|]. auto.
  - exists c1. cbn [fst]. split; [reflexivity|]. split; [lia|]. auto.
Qed.

Lemma search_nonempty (docs : list article) (query : string) (top_k : Z) :
  docs <> [] -> 0 < top_k ->
  search term_weight (indexed docs) query top_k <> [].
Proof.
  intros Hd Hk. rewrite search_by_ranking. cbv zeta.
  set (scores := get_scores term_weight _ _).
  assert (Hr : ranking scores <> []).
  { intro E. apply (f_equal (@length nat)) in E.
    unfold ranking in E. rewrite sorted_desc_length, length_seq in E.
    unfold scores in E. rewrite get_scores_length in E.
    destruct docs; [congruence | discriminate]. }
  pose proof (slice_to_nonempty _ top_k Hk Hr) as Hs.
  destruct (slice_to (ranking scores) top_k); [congruence|]. discriminate.
Qed.

Lemma sparse_branch_nonempty (docs : list article) (query : string)
    (top_k : Z) (where_ : option (dict json)) (raw : list result) :
  docs <> [] -> 0 < top_k ->
  sparse_branch term_weight (indexed docs) query top_k where_ = Ok raw ->
  raw <> [].
Proof.
  intros Hd Hk. unfold sparse_branch.
  pose proof (search_nonempty docs query (top_k * 3) Hd ltac:(lia)) as Hs.
  destruct (truthy where_).
  - destruct (apply_filters _ _ _) as [filtered|e]; cbn [bind];
      [|discriminate].
    destruct (is_empty (slice_to (rerank filtered) (top_k * 3))) eqn:E;
      intros [= <-]; [exact Hs|].
    intro E'. rewrite E' in E. discriminate.
  - intros [= <-]. exact Hs.
Qed.

Lemma hybrid_fused_nonempty (docs : list article) (query : string)
    (top_k : Z) (where_ : option (dict json)) (rrf_k : Z)
    (log log' : list request) (fused : list result) :
  docs <> [] -> 0 < top_k ->
  hybrid_fused term_weight embed_query collection_query (indexed docs)
               query top_k where_ rrf_k log = (log', Ok fused) ->
  fused <> [].
Proof.
  intros Hd Hk Hf.
  destruct (hybrid_fused_ok _ _ _ _ _ _ _ _ Hf) as (dense & raw & _ & Hs & Hrrf).
  apply (sparse_branch_nonempty docs) in Hs; try assumption.
  destruct raw as [|r raw]; [congruence|].
  assert (Hin : In (doc_id r) (map doc_id fused)).
  { apply (rrf_members _ _ _ (doc_id r) Hrrf).
    eexists. split; [right; left; reflexivity|].
    cbn [map contains existsb enrich doc_id]. rewrite String.eqb_refl.
    reflexivity. }
  intros ->. exact Hin.
Qed.

(** ** X16 *)

(** X16. On an index [BM25Index.__init__] built, whose corpus is then not
    empty, and with [top_k >= 1] the sparse branch never comes back empty,
    so the fused list is never empty:
    [search_hybrid] then never re-runs itself without the filter, and
    whenever it returns it returns at least one result, also when no
    document satisfies the filter. *)
Theorem hybrid_never_empty_over_corpus (depth : nat) (docs : list article)
    (idx : BM25Index) (query : string) (top_k : Z)
    (where_ : option (dict json)) (rrf_k : Z) (log : list request) :
  BM25Index_init docs = Ok idx -> 0 < top_k ->
  (forall raw,
     sparse_branch term_weight idx query top_k where_
     = Ok raw -> raw <> []) /\
  search_hybrid term_weight embed_query collection_query (S depth)
                idx query top_k where_ rrf_k log =
  match hybrid_fused term_weight embed_query collection_query
                     idx query top_k where_ rrf_k log with
  | (log', Ok fused) => (log', Some (Ok (slice_to fused top_k)))
  | (log', Raise e) => (log', Some (Raise e))
  end /\
  (forall log' out,
     search_hybrid term_weight embed_query collection_query (S depth)
                   idx query top_k where_ rrf_k log
     = (log', Some (Ok out)) -> out <> []).
Proof.
  intros Hidx Hk.
  pose proof (BM25Index_init_nonempty docs idx Hidx) as Hd.
  apply BM25Index_init_built in Hidx. subst idx.
  assert (Hstep :
    search_hybrid term_weight embed_query collection_query (S depth)
                  (indexed docs) query top_k where_ rrf_k log =
    match hybrid_fused term_weight embed_query collection_query
                       (indexed docs) query top_k where_ rrf_k log with
    | (log', Ok fused) => (log', Some (Ok (slice_to fused top_k)))
    | (log', Raise e) => (log', Some (Raise e))
    end).
  { rewrite search_hybrid_step.
    destruct (hybrid_fused _ _ _ _ _ _ _ _ _) as [log1 [fused|e]] eqn:Hf;
      [|reflexivity].
    pose proof (hybrid_fused_nonempty _ _ _ _ _ _ _ _ Hd Hk Hf) as Hne.
    destruct fused; [congruence | reflexivity]. }
  split; [|split].
  - intros raw. apply sparse_branch_nonempty; assumption.
  - exact Hstep.
  - intros log' out. rewrite Hstep.
    destruct (hybrid_fused _ _ _ _ _ _ _ _ _) as [log1 [fused|e]] eqn:Hf;
      [|discriminate].
    intros [= _ <-]. apply slice_to_nonempty; [exact Hk|].
    eapply hybrid_fused_nonempty; eassumption.
Qed.

End OrchestratorFacts.

(* ================================================================== *)
(** * convert_to_chromadb_where                                       *)
(* ================================================================== *)

Lemma convert_unfold (filters : dict json) :
  convert_to_chromadb_where filters =
  let conditions :=
    append_eq "deprecated" filters
      (append_eq "category" filters
         (append_eq "product_version" filters
            (append_eq "region" filters []))) in
  match conditions with
  | [] => []
  | [condition] => condition
  | _ => [("$and", JArr (map JObj conditions))]
  end.
Proof.
  unfold convert_to_chromadb_where. destruct filters; reflexivity.
Qed.

Lemma convert_by_lookups (filters filters' : dict json) :
  (forall field, In field filter_fields ->
                 dict_get field filters = dict_get field filters') ->
  convert_to_chromadb_where filters = convert_to_chromadb_where filters'.
Proof.
  intro H. rewrite !convert_unfold. cbv zeta. unfold append_eq.
  rewrite !H by (unfold filter_fields; simpl; tauto). reflexivity.
Qed.

(** ** X17 *)

(** X17. [convert_to_chromadb_where] looks at four keys only: region,
    product_version, category and deprecated.  Its result is the empty
    dict exactly when none of them is present, so an "error_codes" entry
    alone gives no where clause; two filter dicts that agree on the four
    keys convert alike, so that an "error_codes" entry, which
    [get_error_code_filter] reads, changes nothing; and the result holds no
    key besides the four and "$and". *)
Theorem convert_where_shape (filters : dict json) :
  (convert_to_chromadb_where filters = [] <->
   forall field, In field filter_fields -> dict_get field filters = None) /\
  (forall filters',
     (forall field, In field filter_fields ->
                    dict_get field filters = dict_get field filters') ->
     convert_to_chromadb_where filters = convert_to_chromadb_where filters') /\
  (forall v, convert_to_chromadb_where (dict_set "error_codes" v filters)
             = convert_to_chromadb_where filters /\
             get_error_code_filter (dict_set "error_codes" v filters)
             = Some v) /\
  (forall key, In key (dict_keys (convert_to_chromadb_where filters)) ->
               In key filter_fields \/ key = "$and").
Proof.
  split; [|split; [|split]].
  - rewrite convert_unfold. cbv zeta. unfold append_eq, filter_fields.
    destruct (dict_get "region" filters) as [v1|] eqn:E1;
    destruct (dict_get "product_version" filters) as [v2|] eqn:E2;
    destruct (dict_get "category" filters) as [v3|] eqn:E3;
    destruct (dict_get "deprecated" filters) as [v4|] eqn:E4;
    cbn [app map];
    (split;
     [ intro H; try discriminate H;
       intros field [<-|[<-|[<-|[<-|[]]]]]; assumption
     | intro H;
       try (rewrite (H "region") in E1 by (simpl; tauto); discriminate E1);
       try (rewrite (H "product_version") in E2 by (simpl; tauto);
            discriminate E2);
       try (rewrite (H "category") in E3 by (simpl; tauto); discriminate E3);
       try (rewrite (H "deprecated") in E4 by (simpl; tauto);
            discriminate E4);
       reflexivity ]).
  - apply convert_by_lookups.
  - intro v. split; [|apply dict_get_set_same].
    apply convert_by_lookups. unfold filter_fields.
    intros field Hf. apply dict_get_set_other.
    destruct Hf as [<-|[<-|[<-|[<-|[]]]]]; discriminate.
  - rewrite convert_unfold. cbv zeta. unfold append_eq, filter_fields.
    destruct (dict_get "region" filters) as [v1|];
    destruct (dict_get "product_version" filters) as [v2|];
    destruct (dict_get "category" filters) as [v3|];
    destruct (dict_get "deprecated" filters) as [v4|];
    cbn [app map dict_keys fst]; intros key Hk;
    repeat (destruct Hk as [<-|Hk]; [simpl; tauto|]); destruct Hk.
Qed.

Lemma convert_evaluates (filters : dict json) (meta : dict mval) :
  evaluate_condition meta (JObj (convert_to_chromadb_where filters))
  = Ok (matches_filters filters meta).
Proof.
  rewrite convert_unfold. cbv zeta.
  unfold append_eq, matches_filters, filter_fields.
  cbn [forallb].
  destruct (dict_get "region" filters) as [v1|];
  destruct (dict_get "product_version" filters) as [v2|];
  destruct (dict_get "category" filters) as [v3|];
  destruct (dict_get "deprecated" filters) as [v4|];
  cbv - [py_eq dict_get];
  repeat match goal with
         | |- context [py_eq ?a ?b] => destruct (py_eq a b)
         end; reflexivity.
Qed.

Lemma convert_filters_results (filters : dict json) (arts : dict article)
    (results : list result) :
  filter_results (convert_to_chromadb_where filters) arts results
  = Ok (filter (satisfies (convert_to_chromadb_where filters) arts) results).
Proof.
  apply filter_results_total. intros r a _ _.
  rewrite convert_evaluates. eauto.
Qed.

(** ** X18 *)

(** X18. The where clause [convert_to_chromadb_where] builds is one the
    local evaluator always understands: on any metadata record it
    evaluates without raising, to whether the record equals the extracted
    value on each of the kept fields.  So [apply_filters] with it never
    raises and keeps exactly the known documents that match, and the sparse
    branch of [search_hybrid] never raises on it. *)
Theorem convert_where_evaluates (filters : dict json) :
  (forall meta,
     evaluate_condition meta (JObj (convert_to_chromadb_where filters))
     = Ok (matches_filters filters meta)) /\
  (forall results arts,
     apply_filters results (convert_to_chromadb_where filters) arts =
     Ok (if is_empty (convert_to_chromadb_where filters) then results
         else filter (fun r =>
                        match dict_get (doc_id r) arts with
                        | Some a => matches_filters filters (flatten_meta a)
                        | None => false
                        end) results)) /\
  (forall term_weight idx query top_k,
     exists raw,
       sparse_branch term_weight idx query top_k
                     (Some (convert_to_chromadb_where filters)) = Ok raw).
Proof.
  split; [|split].
  - apply convert_evaluates.
  - intros results arts. unfold apply_filters.
    destruct (is_empty _); [reflexivity|].
    rewrite convert_filters_results. f_equal. apply filter_ext.
    intro r. unfold satisfies.
    destruct (dict_get (doc_id r) arts); [|reflexivity].
    rewrite convert_evaluates. reflexivity.
  - intros term_weight idx query top_k. unfold sparse_branch.
    destruct (truthy _); [|eauto].
    cbn [get_or]. unfold apply_filters.
    destruct (is_empty (convert_to_chromadb_where filters)); cbn [bind].
    + destruct (is_empty _); eauto.
    + rewrite convert_filters_results. cbn [bind].
      destruct (is_empty _); eauto.
Qed.

Lemma convert_unscoped (filters : dict json) :
  (forall field, In field filter_fields -> dict_get field filters = None) ->
  convert_to_chromadb_where filters = [].
Proof.
  intro H. rewrite convert_unfold. cbv zeta. unfold append_eq.
  rewrite !H by (unfold filter_fields; simpl; tauto). reflexivity.
Qed.

Section UnfilteredFacts.
Variable term_weight : list (list string) -> string -> list string -> Q.
Variable embed_query : string -> res (list Q).
Variable collection_query : list request -> request -> res query_result.

Lemma search_hybrid_empty_filter (depth : nat) (idx : BM25Index)
    (query : string) (top_k rrf_k : Z) (log : list request) :
  search_hybrid term_weight embed_query collection_query depth idx query
                top_k (Some []) rrf_k log
  = search_hybrid term_weight embed_query collection_query depth idx query
                  top_k None rrf_k log.
Proof.
  destruct depth as [|depth]; [reflexivity|].
  rewrite !search_hybrid_step.
  change (hybrid_fused term_weight embed_query collection_query idx query
                       top_k (Some []) rrf_k log)
    with (hybrid_fused term_weight embed_query collection_query idx query
                       top_k None rrf_k log).
  destruct (hybrid_fused _ _ _ _ _ _ None _ _) as [log1 [fused|e]];
    [|reflexivity].
  cbn [truthy]. rewrite !andb_false_r. reflexivity.
Qed.

(** ** X19 *)

(** X19. An empty where clause is no where clause: [search_dense], the
    sparse branch and [search_hybrid] behave for [where={}] exactly as for
    [where=None], requests to the vector store included.  Hence a search
    with the where clause converted from extracted filters that name none
    of region, product_version, category and deprecated is the unfiltered
    search. *)
Theorem empty_filter_is_no_filter :
  (forall query top_k log,
     search_dense embed_query collection_query query top_k (Some []) log
     = search_dense embed_query collection_query query top_k None log) /\
  (forall idx query top_k,
     sparse_branch term_weight idx query top_k (Some [])
     = sparse_branch term_weight idx query top_k None) /\
  (forall depth idx query top_k rrf_k log,
     search_hybrid term_weight embed_query collection_query depth idx query
                   top_k (Some []) rrf_k log
     = search_hybrid term_weight embed_query collection_query depth idx query
                     top_k None rrf_k log) /\
  (forall filters depth idx query top_k rrf_k log,
     (forall field, In field filter_fields ->
                    dict_get field filters = None) ->
     search_hybrid term_weight embed_query collection_query depth idx query
                   top_k (Some (convert_to_chromadb_where filters)) rrf_k log
     = search_hybrid term_weight embed_query collection_query depth idx query
                     top_k None rrf_k log).
Proof.
  split; [reflexivity|]. split; [reflexivity|].
  split; [apply search_hybrid_empty_filter|].
  intros filters depth idx query top_k rrf_k log H.
  rewrite (convert_unscoped filters H). apply search_hybrid_empty_filter.
Qed.

End UnfilteredFacts.

(* ================================================================== *)
(** * run_evals.py: recall and reciprocal rank                        *)
(* ================================================================== *)

Lemma in_set_In (x : string) (l : list string) :
  in_set x l = true <-> In x l.
Proof.
  unfold in_set. rewrite existsb_exists. split.
  - intros (y & Hy & E). apply String.eqb_eq in E. subst. exact Hy.
  - intro H. exists x. split; [exact H | apply String.eqb_refl].
Qed.

Lemma filter_length_mono {A : Type} (p q : A -> bool) (l : list A) :
  (forall x, In x l -> p x = true -> q x = true) ->
  (length (filter p l) <= length (filter q l))%nat.
Proof.
  induction l as [|x l IH]; intro H; simpl; [lia|].
  assert (IH' : (length (filter p l) <= length (filter q l))%nat).
  { apply IH. intros y Hy. apply H. right. exact Hy. }
  destruct (p x) eqn:Ep.
  - rewrite (H x (or_introl eq_refl) Ep). simpl. lia.
  - destruct (q x); simpl; lia.
Qed.

Lemma filter_length_all {A : Type} (p : A -> bool) (l : list A) :
  length (filter p l) = length l <-> forallb p l = true.
Proof.
  induction l as [|x l IH]; simpl; [tauto|].
  pose proof (filter_length_le p l) as Hle.
  destruct (p x); simpl.
  - rewrite <- IH. split; intro H; [injection H as H; exact H | now rewrite H].
  - split; [intro H; exfalso; lia | discriminate].
Qed.

Lemma ratio_bounds (a b : nat) :
  (a <= b)%nat -> (0 < b)%nat ->
  (0 <= inject_Z (Z.of_nat a) / inject_Z (Z.of_nat b) <= 1)%Q.
Proof.
  intros Hab Hb.
  assert (Hpos : (0 < inject_Z (Z.of_nat b))%Q).
  { change 0%Q with (inject_Z 0). rewrite <- Zlt_Qlt. lia. }
  split.
  - apply Qle_shift_div_l; [exact Hpos|]. rewrite Qmult_0_l.
    change 0%Q with (inject_Z 0). rewrite <- Zle_Qle. lia.
  - apply Qle_shift_div_r; [exact Hpos|]. rewrite Qmult_1_l.
    rewrite <- Zle_Qle. lia.
Qed.

Lemma ratio_mono (a a' b : nat) :
  (a <= a')%nat -> (0 < b)%nat ->
  (inject_Z (Z.of_nat a) / inject_Z (Z.of_nat b)
   <= inject_Z (Z.of_nat a') / inject_Z (Z.of_nat b))%Q.
Proof.
  intros Ha Hb. unfold Qdiv. apply Qmult_le_compat_r.
  - rewrite <- Zle_Qle. lia.
  - apply Qinv_le_0_compat. change 0%Q with (inject_Z 0).
    rewrite <- Zle_Qle. lia.
Qed.

Lemma ratio_one (a b : nat) :
  (0 < b)%nat ->
  ((inject_Z (Z.of_nat a) / inject_Z (Z.of_nat b) == 1)%Q <-> a = b).
Proof.
  intro Hb.
  assert (Hnz : ~ (inject_Z (Z.of_nat b) == 0)%Q).
  { change 0%Q with (inject_Z 0). rewrite inject_Z_injective. lia. }
  split.
  - intro H. apply (Qmult_inj_r _ _ (inject_Z (Z.of_nat b)) Hnz) in H.
    rewrite Qmult_1_l in H. unfold Qdiv in H.
    rewrite <- Qmult_assoc, (Qmult_comm (/ _)), Qmult_inv_r in H by exact Hnz.
    rewrite Qmult_1_r in H. rewrite inject_Z_injective in H. lia.
  - intros ->. apply Qmult_inv_r. exact Hnz.
Qed.

Lemma ratio_positive (a b : nat) :
  (0 < b)%nat ->
  ((0 < inject_Z (Z.of_nat a) / inject_Z (Z.of_nat b))%Q <-> (0 < a)%nat).
Proof.
  intro Hb.
  assert (Hpos : (0 < inject_Z (Z.of_nat b))%Q).
  { change 0%Q with (inject_Z 0). rewrite <- Zlt_Qlt. lia. }
  split.
  - intro H. destruct a; [|lia]. exfalso.
    unfold Qdiv in H. cbn in H. rewrite Qmult_0_l in H.
    apply (Qlt_irrefl 0). exact H.
  - intro Ha. apply Qlt_shift_div_l; [exact Hpos|]. rewrite Qmult_0_l.
    change 0%Q with (inject_Z 0). rewrite <- Zlt_Qlt. lia.
Qed.

Lemma nonempty_length {A : Type} (l : list A) :
  is_empty l = false -> (0 < length l)%nat.
Proof. destruct l; [discriminate | simpl; lia]. Qed.

Lemma slice_to_grows {A : Type} (l : list A) (k1 k2 : Z) (x : A) :
  0 <= k1 -> k1 <= k2 -> In x (slice_to l k1) -> In x (slice_to l k2).
Proof.
  intros H1 H2. rewrite !slice_to_nonneg by lia.
  replace (Z.to_nat k1) with (Nat.min (Z.to_nat k1) (Z.to_nat k2)) by lia.
  rewrite <- firstn_firstn. apply in_firstn.
Qed.

(** ** X20 *)

(** X20. [recall_at_k] lies between 0 and 1, is 1 for an empty set of
    expected ids, equals 1 otherwise exactly when every expected id is
    among the first [k] retrieved, and does not decrease when [k] grows:
    the recall at 5 never exceeds the recall at 10. *)
Theorem recall_at_k_properties (retrieved expected : list string) :
  (forall k, (0 <= recall_at_k retrieved expected k <= 1)%Q) /\
  (forall k, expected = [] -> recall_at_k retrieved expected k = 1%Q) /\
  (forall k, expected <> [] ->
     ((recall_at_k retrieved expected k == 1)%Q <->
      forall eid, In eid expected -> In eid (slice_to retrieved k))) /\
  (forall k1 k2, 0 <= k1 -> k1 <= k2 ->
     (recall_at_k retrieved expected k1
      <= recall_at_k retrieved expected k2)%Q) /\
  (recall_at_k retrieved expected 5 <= recall_at_k retrieved expected 10)%Q.
Proof.
  assert (Hmono : forall k1 k2, 0 <= k1 -> k1 <= k2 ->
     (recall_at_k retrieved expected k1
      <= recall_at_k retrieved expected k2)%Q).
  { intros k1 k2 H1 H2. unfold recall_at_k.
    destruct (is_empty expected) eqn:E; [apply Qle_refl|].
    apply ratio_mono; [|apply nonempty_length, E].
    apply filter_length_mono. intros eid _ Hin.
    apply in_set_In. apply in_set_In in Hin.
    eapply slice_to_grows; eassumption. }
  split; [|split; [|split; [|split]]].
  - intro k. unfold recall_at_k.
    destruct (is_empty expected) eqn:E.
    + split; discriminate.
    + apply ratio_bounds; [apply filter_length_le | apply nonempty_length, E].
  - intros k ->. reflexivity.
  - intros k Hne. unfold recall_at_k.
    destruct (is_empty expected) eqn:E; [destruct expected; [congruence|discriminate]|].
    rewrite ratio_one by (apply nonempty_length, E).
    rewrite filter_length_all, forallb_forall.
    split; intros H eid Hin; apply in_set_In; auto.
  - exact Hmono.
  - apply Hmono; lia.
Qed.

Lemma first_relevant_enumerate (expected : list string) (l : list string)
    (start : Z) :
  first_relevant expected (enumerate start l) =
  match position_of_first (fun d => in_set d expected) l with
  | Some p => (1 / inject_Z (start + Z.of_nat p))%Q
  | None => 0%Q
  end.
Proof.
  revert start. induction l as [|x l IH]; intro start; [reflexivity|].
  cbn [enumerate first_relevant position_of_first].
  destruct (in_set x expected).
  - cbn [Z.of_nat]. rewrite Z.add_0_r. reflexivity.
  - rewrite IH. destruct (position_of_first _ l) as [p|]; [|reflexivity].
    cbn [option_map]. do 2 f_equal. lia.
Qed.

Lemma position_none (p : string -> bool) (l : list string) :
  position_of_first p l = None <-> forall x, In x l -> p x = false.
Proof.
  induction l as [|x l IH]; simpl; [tauto|].
  destruct (p x) eqn:E.
  - split; [discriminate|]. intro H. rewrite (H x) in E by auto.
    discriminate.
  - destruct (position_of_first p l); simpl.
    + split; [discriminate|]. intro H.
      assert (Hn : Some n = None).
      { apply IH. intros y Hy. apply H. auto. }
      discriminate.
    + split; [|reflexivity]. intros _ y [<-|Hy]; [exact E|].
      apply IH; auto.
Qed.

Lemma position_firstn (p : string -> bool) (l : list string) (k : nat) :
  position_of_first p (firstn k l) =
  match position_of_first p l with
  | Some n => if (n <? k)%nat then Some n else None
  | None => None
  end.
Proof.
  revert k. induction l as [|x l IH]; intros [|k]; simpl; try reflexivity.
  - destruct (p x); [reflexivity|].
    destruct (position_of_first p l); reflexivity.
  - destruct (p x); [reflexivity|]. rewrite IH.
    destruct (position_of_first p l) as [n|]; [|reflexivity]. simpl.
    change (S n <? S k)%nat with (n <? k)%nat.
    destruct (n <? k)%nat; reflexivity.
Qed.

Lemma position_head (p : string -> bool) (l : list string) :
  position_of_first p l = Some O <->
  exists d rest, l = d :: rest /\ p d = true.
Proof.
  destruct l as [|x l]; simpl.
  - split; [discriminate|]. intros (d & rest & H & _). discriminate.
  - destruct (p x) eqn:E.
    + split; [eauto|reflexivity].
    + split.
      * destruct (position_of_first p l); discriminate.
      * intros (d & rest & [= <- <-] & H). congruence.
Qed.

Lemma unit_fraction (n : Z) :
  1 <= n ->
  (0 < 1 / inject_Z n)%Q /\ (1 / inject_Z n <= 1)%Q /\
  ((1 / inject_Z n == 1)%Q <-> n = 1) /\
  (forall k, 1 <= k -> ((1 / inject_Z k <= 1 / inject_Z n)%Q <-> n <= k)).
Proof.
  intro Hn. destruct n as [|p|p]; try lia.
  split; [|split; [|split]].
  - unfold Qlt, Qdiv, Qmult, Qinv, inject_Z. simpl. lia.
  - unfold Qle, Qdiv, Qmult, Qinv, inject_Z. simpl. lia.
  - unfold Qeq, Qdiv, Qmult, Qinv, inject_Z. simpl. lia.
  - intros k Hk. destruct k as [|q|q]; try lia.
    unfold Qle, Qdiv, Qmult, Qinv, inject_Z. simpl. lia.
Qed.

Lemma filter_nonempty {A : Type} (q : A -> bool) (l : list A) :
  (0 < length (filter q l))%nat <-> exists x, In x l /\ q x = true.
Proof.
  split.
  - intro H. destruct (filter q l) as [|x f] eqn:E; [simpl in H; lia|].
    exists x. apply filter_In. rewrite E. left. reflexivity.
  - intros (x & Hx). apply filter_In in Hx.
    destruct (filter q l); [contradiction | simpl; lia].
Qed.

(** ** X21 *)


(* ================================================================== *)
(** * embeddings.py: retries and batches                              *)
(* ================================================================== *)

Lemma removelast_snoc {A : Type} (l : list A) (x : A) :
  removelast (l ++ [x]) = l.
Proof. apply removelast_last. Qed.

Lemma firstn_plus {A : Type} (a b : nat) (l : list A) :
  firstn (a + b) l = firstn a l ++ firstn b (skipn a l).
Proof.
  revert l. induction a as [|a IH]; intro l; [reflexivity|].
  destruct l as [|x l]; simpl.
  - rewrite firstn_nil. reflexivity.
  - rewrite IH. reflexivity.
Qed.

Lemma chunks_concat {A : Type} (l : list A) (n c : nat) :
  concat (map (fun j => slice_at l (j * n) n) (seq 0 c)) = firstn (c * n) l.
Proof.
  induction c as [|c IH]; [reflexivity|].
  rewrite seq_S, map_app, concat_app, IH. cbn [map concat Nat.add].
  rewrite app_nil_r. unfold slice_at.
  replace (S c * n)%nat with (c * n + n)%nat by lia.
  symmetry. apply firstn_plus.
Qed.

Lemma ceil_div_covers (len n : nat) :
  (0 < n)%nat -> (len <= (len + n - 1) / n * n)%nat.
Proof.
  intro Hn. pose proof (Nat.mul_succ_div_gt (len + n - 1) n ltac:(lia)).
  nia.
Qed.

Lemma ceil_div_tight (len n j : nat) :
  (0 < n)%nat -> (j < (len + n - 1) / n)%nat -> (j * n < len)%nat.
Proof.
  intros Hn Hj. pose proof (Nat.Div0.mul_div_le (len + n - 1) n).
  nia.
Qed.

Lemma range_by_positive (stop : nat) (step : Z) :
  1 <= step ->
  range_by stop step =
  Returns (map (fun j => (j * Z.to_nat step)%nat)
               (seq 0 ((stop + Z.to_nat step - 1) / Z.to_nat step))).
Proof.
  intro H. unfold range_by.
  destruct (Z.eqb_spec step 0); [lia|].
  destruct (Z.ltb_spec step 0); [lia|]. reflexivity.
Qed.

Lemma chunks_cover {A : Type} (l : list A) (n : nat) :
  (0 < n)%nat ->
  concat (map (fun i => slice_at l i n)
              (map (fun j => (j * n)%nat)
                   (seq 0 ((length l + n - 1) / n)))) = l.
Proof.
  intro Hn. rewrite map_map, chunks_concat.
  apply firstn_all2. apply ceil_div_covers. exact Hn.
Qed.

Lemma chunks_sizes {A : Type} (l : list A) (n : nat) :
  (0 < n)%nat ->
  Forall (fun chunk : list A => chunk <> [] /\ (length chunk <= n)%nat)
         (map (fun i => slice_at l i n)
              (map (fun j => (j * n)%nat)
                   (seq 0 ((length l + n - 1) / n)))).
Proof.
  intro Hn. rewrite map_map. apply Forall_map, Forall_forall.
  intros j Hj. apply in_seq in Hj. unfold slice_at. split.
  - intro E. apply (f_equal (@length A)) in E.
    rewrite length_firstn, length_skipn in E. cbn [length] in E.
    pose proof (ceil_div_tight (length l) n j Hn ltac:(lia)). lia.
  - apply firstn_le_length.
Qed.

Section EmbeddingFacts.
Variable embeddings_create : list Embeddings.event -> list string -> outcome (list (list Q)).

Lemma embed_with_retry_cases (texts : list string)
    (trace : list Embeddings.event) :
  let run := Embeddings._embed_with_retry embeddings_create texts trace in
  exists added : list Embeddings.event,
    fst run = trace ++ added /\
    (added = [Embeddings.Create texts] \/
     added = [Embeddings.Create texts; Embeddings.Sleep 1;
              Embeddings.Create texts] \/
     added = [Embeddings.Create texts; Embeddings.Sleep 1;
              Embeddings.Create texts; Embeddings.Sleep 2;
              Embeddings.Create texts]) /\
    snd run = embeddings_create (removelast (fst run)) texts /\
    (forall e, snd run = Raises e -> length added = 5%nat).
Proof.
  unfold Embeddings._embed_with_retry.
  change (map Z.of_nat (seq 0 (Z.to_nat Embeddings._MAX_RETRIES)))
    with [0; 1; 2].
  cbn [Embeddings.retry_loop].
  destruct (embeddings_create trace texts) as [v|e] eqn:E1.
  { eexists. cbn [fst snd]. split; [reflexivity|]. split; [auto|].
    rewrite removelast_snoc. split; [auto|]. discriminate. }
  change (0 =? Embeddings._MAX_RETRIES - 1) with false. cbv iota.
  change (Embeddings._BACKOFF_BASE * 2 ^ 0) with 1.
  destruct (embeddings_create (trace ++ _) texts) as [v|e2] eqn:E2.
  { eexists. cbn [fst snd]. rewrite <- app_assoc. cbn [app].
    split; [reflexivity|]. split; [auto|].
    change (trace ++ [Embeddings.Create texts; Embeddings.Sleep 1;
                      Embeddings.Create texts])
      with (trace ++ [Embeddings.Create texts; Embeddings.Sleep 1]
                  ++ [Embeddings.Create texts]).
    rewrite app_assoc, removelast_snoc. split; [auto|]. discriminate. }
  change (1 =? Embeddings._MAX_RETRIES - 1) with false. cbv iota.
  change (Embeddings._BACKOFF_BASE * 2 ^ 1) with 2.
  change (2 =? Embeddings._MAX_RETRIES - 1) with true.
  destruct (embeddings_create ((trace ++ _) ++ _) texts) as [v|e3] eqn:E3;
    cbv iota; cbn [fst snd].
  - eexists. rewrite <- !app_assoc. cbn [app].
    split; [reflexivity|]. split; [auto|].
    change (trace ++ [Embeddings.Create texts; Embeddings.Sleep 1;
                      Embeddings.Create texts; Embeddings.Sleep 2;
                      Embeddings.Create texts])
      with (trace ++ [Embeddings.Create texts; Embeddings.Sleep 1;
                      Embeddings.Create texts; Embeddings.Sleep 2]
                  ++ [Embeddings.Create texts]).
    rewrite app_assoc, removelast_snoc.
    rewrite <- !app_assoc in E3. cbn [app] in E3.
    split; [auto|]. discriminate.
  - eexists. rewrite <- !app_assoc. cbn [app].
    split; [reflexivity|]. split; [auto|].
    change (trace ++ [Embeddings.Create texts; Embeddings.Sleep 1;
                      Embeddings.Create texts; Embeddings.Sleep 2;
                      Embeddings.Create texts])
      with (trace ++ [Embeddings.Create texts; Embeddings.Sleep 1;
                      Embeddings.Create texts; Embeddings.Sleep 2]
                  ++ [Embeddings.Create texts]).
    rewrite app_assoc, removelast_snoc.
    rewrite <- !app_assoc in E3. cbn [app] in E3.
    split; [auto|]. reflexivity.
Qed.

(** ** X22 *)

(** X22. [_embed_with_retry] sends the same texts between one and three
    times, pausing 1 second after the first failure and 2 seconds after the
    second, never after the third.  Its outcome is the service's answer to
    the last request it made, and it raises only after three requests.
    [embed_query] sends the single text "query: " + text under this policy
    and returns the first vector of the answer, raising [IndexError] when
    the answer holds none. *)
Theorem embed_with_retry_policy (texts : list string)
    (trace : list Embeddings.event) :
  let run := Embeddings._embed_with_retry embeddings_create texts trace in
  (exists added n,
     fst run = trace ++ added /\
     (1 <= n <= 3)%nat /\
     embedding_requests added = repeat texts n /\
     embedding_pauses added = firstn (n - 1) [1; 2] /\
     last added (Embeddings.Sleep 0) = Embeddings.Create texts /\
     (forall e, snd run = Raises e -> n = 3%nat)) /\
  snd run = embeddings_create (removelast (fst run)) texts /\
  (forall text,
     let asked :=
       Embeddings._embed_with_retry embeddings_create
         ["query: " ++ text]%string trace in
     Embeddings.embed_query embeddings_create text trace =
     (fst asked,
      match snd asked with
      | Returns (v :: _) => Returns v
      | Returns [] => Raises IndexError
      | Raises e => Raises e
      end)).
Proof.
  intro run.
  destruct (embed_with_retry_cases texts trace)
    as (added & Hfst & Hadded & Hsnd & Hraise).
  fold run in Hfst, Hsnd, Hraise.
  split; [|split; [exact Hsnd|]].
  - destruct Hadded as [-> | [-> | ->]].
    + exists [Embeddings.Create texts], 1%nat.
      split; [exact Hfst|]. repeat split; try reflexivity; try lia.
      intros e He. specialize (Hraise e He). discriminate.
    + exists [Embeddings.Create texts; Embeddings.Sleep 1;
              Embeddings.Create texts], 2%nat.
      split; [exact Hfst|]. repeat split; try reflexivity; try lia.
      intros e He. specialize (Hraise e He). discriminate.
    + exists [Embeddings.Create texts; Embeddings.Sleep 1;
              Embeddings.Create texts; Embeddings.Sleep 2;
              Embeddings.Create texts], 3%nat.
      split; [exact Hfst|]. repeat split; try reflexivity; lia.
  - intros text asked. unfold Embeddings.embed_query. fold asked.
    destruct asked as [trace' [[|v vs]|e]]; reflexivity.
Qed.

Lemma embed_with_retry_answered (embed : string -> list Q)
    (texts : list string) (trace : list Embeddings.event) :
  (forall tr input, embeddings_create tr input = Returns (map embed input)) ->
  Embeddings._embed_with_retry embeddings_create texts trace
  = (trace ++ [Embeddings.Create texts], Returns (map embed texts)).
Proof.
  intro H. unfold Embeddings._embed_with_retry.
  change (map Z.of_nat (seq 0 (Z.to_nat Embeddings._MAX_RETRIES)))
    with [0; 1; 2].
  cbn [Embeddings.retry_loop]. rewrite H. reflexivity.
Qed.

Lemma embed_with_retry_failing (e : error) (texts : list string)
    (trace : list Embeddings.event) :
  (forall tr input, embeddings_create tr input = Raises e) ->
  Embeddings._embed_with_retry embeddings_create texts trace
  = (trace ++ [Embeddings.Create texts; Embeddings.Sleep 1;
               Embeddings.Create texts; Embeddings.Sleep 2;
               Embeddings.Create texts],
     Raises e).
Proof.
  intro H. unfold Embeddings._embed_with_retry.
  change (map Z.of_nat (seq 0 (Z.to_nat Embeddings._MAX_RETRIES)))
    with [0; 1; 2].
  cbn [Embeddings.retry_loop]. rewrite !H.
  change (0 =? Embeddings._MAX_RETRIES - 1) with false.
  change (1 =? Embeddings._MAX_RETRIES - 1) with false.
  change (2 =? Embeddings._MAX_RETRIES - 1) with true.
  cbv iota. rewrite <- !app_assoc. reflexivity.
Qed.

Lemma embed_batches_answered (embed : string -> list Q)
    (texts : list string) (batch_size : Z) (offsets : list nat) :
  (forall tr input, embeddings_create tr input = Returns (map embed input)) ->
  forall all trace,
    let batches :=
      map (fun i => map (fun t => "passage: " ++ t)%string
                        (slice_at texts i (Z.to_nat batch_size))) offsets in
    Embeddings.embed_batches embeddings_create offsets texts batch_size all
                             trace
    = (trace ++ map Embeddings.Create batches,
       Returns (all ++ map embed (concat batches))).
Proof.
  intro H. induction offsets as [|i offsets IH]; intros all trace.
  - cbn. rewrite !app_nil_r. reflexivity.
  - cbn [Embeddings.embed_batches map concat].
    rewrite (embed_with_retry_answered embed _ _ H).
    cbv zeta in IH. rewrite IH.
    rewrite <- !app_assoc, map_app. reflexivity.
Qed.

(** ** X23 *)

(** X23. Batching in [embed_documents] is invisible to the caller when the
    service answers every request and embeds each text on its own: for any
    [batch_size >= 1] the result is the embedding of "passage: " + t for
    each text t, in order, obtained with one request per batch, the batches
    being non-empty, at most [batch_size] long and together exactly the
    prefixed texts.  With a service that fails every request, the first
    batch is requested three times and its exception raised, and no other
    batch is requested.  A [batch_size] of 0 raises [ValueError] and a
    negative one returns no embeddings at all, in both cases without any
    request. *)
Theorem embed_documents_batches (texts : list string) (batch_size : Z)
    (trace : list Embeddings.event) :
  (forall embed : string -> list Q,
     (forall tr input,
        embeddings_create tr input = Returns (map embed input)) ->
     1 <= batch_size ->
     exists batches,
       Embeddings.embed_documents embeddings_create texts batch_size trace
       = (trace ++ map Embeddings.Create batches,
          Returns (map (fun t => embed ("passage: " ++ t)%string) texts)) /\
       concat batches = map (fun t => "passage: " ++ t)%string texts /\
       Forall (fun batch : list string =>
                 batch <> [] /\
                 (length batch <= Z.to_nat batch_size)%nat) batches) /\
  (forall e,
     (forall tr input, embeddings_create tr input = Raises e) ->
     1 <= batch_size -> texts <> [] ->
     let batch :=
       map (fun t => "passage: " ++ t)%string
           (firstn (Z.to_nat batch_size) texts) in
     Embeddings.embed_documents embeddings_create texts batch_size trace
     = (trace ++ [Embeddings.Create batch; Embeddings.Sleep 1;
                  Embeddings.Create batch; Embeddings.Sleep 2;
                  Embeddings.Create batch],
        Raises e)) /\
  (batch_size = 0 ->
   Embeddings.embed_documents embeddings_create texts batch_size trace
   = (trace, Raises ValueError)) /\
  (batch_size < 0 ->
   Embeddings.embed_documents embeddings_create texts batch_size trace
   = (trace, Returns [])).
Proof.
  split; [|split; [|split]].
  - intros embed H Hb. unfold Embeddings.embed_documents.
    rewrite range_by_positive by exact Hb.
    rewrite (embed_batches_answered embed _ _ _ H). cbv zeta.
    set (n := Z.to_nat batch_size).
    assert (Hn : (0 < n)%nat) by (unfold n; lia).
    set (offsets := map (fun j => (j * n)%nat)
                        (seq 0 ((length texts + n - 1) / n))).
    assert (Hcover :
      concat (map (fun i => map (fun t => "passage: " ++ t)%string
                                (slice_at texts i n)) offsets)
      = map (fun t => "passage: " ++ t)%string texts).
    { rewrite <- (map_map (fun i => slice_at texts i n)
                          (map (fun t => "passage: " ++ t)%string)).
      rewrite <- concat_map. unfold offsets.
      rewrite (chunks_cover texts n Hn). reflexivity. }
    exists (map (fun i => map (fun t => "passage: " ++ t)%string
                              (slice_at texts i n)) offsets).
    split; [|split].
    + cbn [app]. rewrite Hcover.
      rewrite (map_map (fun t => "passage: " ++ t)%string embed).
      reflexivity.
    + exact Hcover.
    + rewrite <- (map_map (fun i => slice_at texts i n)
                          (map (fun t => "passage: " ++ t)%string)).
      apply Forall_map. eapply Forall_impl; [|apply chunks_sizes, Hn].
      intros chunk [Hne Hlen]. rewrite length_map. split; [|exact Hlen].
      destruct chunk; [congruence | discriminate].
  - intros e H Hb Hne batch. unfold Embeddings.embed_documents.
    rewrite range_by_positive by exact Hb.
    set (n := Z.to_nat batch_size) in *.
    assert (Hn : (0 < n)%nat) by (unfold n; lia).
    destruct ((length texts + n - 1) / n)%nat as [|c] eqn:Ec.
    { exfalso. pose proof (ceil_div_covers (length texts) n Hn) as Hc.
      rewrite Ec in Hc. destruct texts; [congruence | simpl in Hc; lia]. }
    cbn [seq map Embeddings.embed_batches Nat.mul].
    unfold slice_at. cbn [skipn]. fold batch.
    rewrite (embed_with_retry_failing e _ _ H). reflexivity.
  - intros ->. reflexivity.
  - intro Hneg. unfold Embeddings.embed_documents, range_by.
    destruct (Z.eqb_spec batch_size 0); [lia|].
    destruct (Z.ltb_spec batch_size 0); [|lia]. reflexivity.
Qed.

End EmbeddingFacts.

(* ================================================================== *)
(** * reranker.py                                                     *)
(* ================================================================== *)

Lemma py_index_in {A : Type} (l : list A) (i : Z) (a : A) :
  py_index l i = Returns a -> In a l.
Proof.
  unfold py_index.
  destruct ((0 <=? i) && (i <? Z.of_nat (length l))).
  - destruct (nth_error l (Z.to_nat i)) eqn:E; [|discriminate].
    intros [= <-]. eapply nth_error_In, E.
  - destruct ((- Z.of_nat (length l) <=? i) && (i <? 0)); [|discriminate].
    destruct (nth_error l _) eqn:E; [|discriminate].
    intros [= <-]. eapply nth_error_In, E.
Qed.

Lemma py_index_valid {A : Type} (l : list A) (i : Z) (d : A) :
  0 <= i < Z.of_nat (length l) ->
  py_index l i = Returns (nth (Z.to_nat i) l d).
Proof.
  intro H. unfold py_index.
  destruct (Z.leb_spec 0 i); [|lia].
  destruct (Z.ltb_spec i (Z.of_nat (length l))); [|lia]. cbn [andb].
  rewrite (nth_error_nth' l d) by lia. reflexivity.
Qed.

Lemma py_index_out_of_range {A : Type} (l : list A) (i : Z) :
  i < - Z.of_nat (length l) \/ Z.of_nat (length l) <= i ->
  py_index l i = Raises IndexError.
Proof.
  intro H. unfold py_index.
  destruct (Z.leb_spec 0 i); destruct (Z.ltb_spec i (Z.of_nat (length l)));
    cbn [andb]; try lia;
    destruct (Z.leb_spec (- Z.of_nat (length l)) i);
    destruct (Z.ltb_spec i 0); cbn [andb]; try lia; reflexivity.
Qed.

Lemma py_index_raises {A : Type} (l : list A) (i : Z) (e : error) :
  py_index l i = Raises e -> e = IndexError.
Proof.
  unfold py_index.
  destruct ((0 <=? i) && (i <? Z.of_nat (length l))).
  - destruct (nth_error l _); [discriminate | congruence].
  - destruct ((- Z.of_nat (length l) <=? i) && (i <? 0)); [|congruence].
    destruct (nth_error l _); [discriminate | congruence].
Qed.

Lemma and_then_returns {A B : Type} (m : outcome A) (f : A -> outcome B)
    (y : B) :
  and_then m f = Returns y <-> exists x, m = Returns x /\ f x = Returns y.
Proof.
  destruct m as [a|e]; simpl; split.
  - eauto.
  - intros (x & [= ->] & H). exact H.
  - discriminate.
  - intros (x & H & _). discriminate.
Qed.

Lemma scored_results_members (results : list result)
    (scores : list Reranker.tei_item) (scored : list result) :
  Reranker.scored_results results scores = Returns scored ->
  Forall2 (fun r item =>
             exists r0, In r0 results /\
                        r = Reranker.with_score r0 (Reranker.item_score item))
          scored scores.
Proof.
  revert scored. induction scores as [|item scores IH]; intros scored H.
  - injection H as <-. constructor.
  - cbn [Reranker.scored_results] in H.
    apply and_then_returns in H. destruct H as (r0 & Hr0 & H).
    apply and_then_returns in H. destruct H as (more & Hmore & [= <-]).
    constructor; [|apply IH, Hmore].
    exists r0. split; [eapply py_index_in, Hr0 | reflexivity].
Qed.

Lemma scored_results_raises (results : list result)
    (scores : list Reranker.tei_item) (e : error) :
  Reranker.scored_results results scores = Raises e -> e = IndexError.
Proof.
  induction scores as [|item scores IH]; [discriminate|].
  cbn [Reranker.scored_results].
  destruct (py_index results (Reranker.index item)) eqn:E; cbn [and_then].
  - destruct (Reranker.scored_results results scores); cbn [and_then];
      [discriminate|]. intros [= <-]. apply IH. reflexivity.
  - intros [= <-]. eapply py_index_raises, E.
Qed.

Lemma scored_results_out_of_range (results : list result)
    (scores : list Reranker.tei_item) :
  Exists (fun item =>
            Reranker.index item < - Z.of_nat (length results) \/
            Z.of_nat (length results) <= Reranker.index item) scores ->
  Reranker.scored_results results scores = Raises IndexError.
Proof.
  induction 1 as [item scores H|item scores _ IH];
    cbn [Reranker.scored_results].
  - rewrite py_index_out_of_range by exact H. reflexivity.
  - destruct (py_index results (Reranker.index item)) eqn:E; cbn [and_then].
    + rewrite IH. reflexivity.
    + f_equal. eapply py_index_raises, E.
Qed.

Lemma scored_results_valid (results : list result)
    (scores : list Reranker.tei_item) (d : result) :
  Forall (fun item => 0 <= Reranker.index item < Z.of_nat (length results))
         scores ->
  Reranker.scored_results results scores =
  Returns (map (fun item =>
                  Reranker.with_score
                    (nth (Z.to_nat (Reranker.index item)) results d)
                    (Reranker.item_score item)) scores).
Proof.
  induction 1 as [|item scores H _ IH]; [reflexivity|].
  cbn [Reranker.scored_results map].
  rewrite (py_index_valid results _ d H), IH. reflexivity.
Qed.

Lemma strongly_sorted_any {A : Type} (l : list A) :
  StronglySorted (fun _ _ => True) l.
Proof.
  induction l; constructor; auto. apply Forall_forall. auto.
Qed.

Lemma strongly_sorted_firstn {A : Type} (R : A -> A -> Prop) (n : nat)
    (l : list A) :
  StronglySorted R l -> StronglySorted R (firstn n l).
Proof.
  intro H. revert n. induction H as [|x l Hl IH Hx]; intros [|n]; simpl;
    try constructor; auto.
  apply Forall_forall. intros y Hy. apply in_firstn in Hy.
  rewrite Forall_forall in Hx. auto.
Qed.

Lemma ranks_from_zero (l : list result) (start : Z) :
  map rank (map (fun '(i, r) => set_rank r (i + 1)) (enumerate start l))
  = counting (start + 1) (length l).
Proof.
  revert start. induction l as [|r l IH]; intro start; [reflexivity|].
  cbn [enumerate map length counting set_rank rank]. rewrite IH. reflexivity.
Qed.

Lemma nth_seq_all {A : Type} (l : list A) (d : A) :
  map (fun j => nth j l d) (seq 0 (length l)) = l.
Proof.
  induction l as [|x l IH]; [reflexivity|].
  cbn [length seq map nth]. rewrite <- seq_shift, map_map. cbn [nth].
  rewrite IH. reflexivity.
Qed.

Section RerankerFacts.
Variable httpx_post : list Reranker.event -> string -> list string -> outcome (list Reranker.tei_item).

Lemma rerank_unfold (query : string) (results : list result) (top_k : Z)
    (trace trace' : list Reranker.event) (out : list result) :
  results <> [] ->
  Reranker.rerank httpx_post query results top_k trace
  = (trace', Returns out) ->
  exists scores scored,
    Reranker._call_tei httpx_post query (map Reranker.text_of results) trace
    = (trace', Returns scores) /\
    Reranker.scored_results results scores = Returns scored /\
    out = map (fun '(i, r) => set_rank r (i + 1))
              (enumerate 0 (slice_to (sorted_desc score scored) top_k)).
Proof.
  intros Hne. unfold Reranker.rerank.
  destruct results as [|r0 results]; [congruence|]. cbn [is_empty].
  destruct (Reranker._call_tei _ _ _ _) as [t [scores|e]]; [|discriminate].
  destruct (Reranker.scored_results _ scores) as [scored|e] eqn:Es;
    cbn [and_then]; [|discriminate].
  intros [= <- <-]. exists scores, scored. auto.
Qed.

(** ** X24 *)

(** X24. [Reranker.rerank] makes no request for an empty result list.
    Whatever it returns is ranked 1, 2, ... without a gap, is in descending
    order of the new scores, holds only copies of input results (same
    document, same display fields) and, for [top_k >= 0], at most [top_k]
    of them. *)
Theorem reranked_results (query : string) (top_k : Z) :
  (forall trace,
     Reranker.rerank httpx_post query [] top_k trace = (trace, Returns [])) /\
  (forall results trace trace' out,
     Reranker.rerank httpx_post query results top_k trace
     = (trace', Returns out) ->
     contiguous_ranks out /\
     StronglySorted (fun a b => (score b <= score a)%Q) out /\
     Forall (fun r => exists r0, In r0 results /\ doc_id r = doc_id r0 /\
                                 shown r = shown r0) out /\
     (0 <= top_k -> (length out <= Z.to_nat top_k)%nat)).
Proof.
  split; [reflexivity|].
  intros results trace trace' out H.
  destruct results as [|r0 results].
  { cbn in H. injection H as _ <-. repeat split.
    - constructor.
    - constructor.
    - cbn. lia. }
  assert (Hne : r0 :: results <> []) by discriminate.
  destruct (rerank_unfold _ _ _ _ _ _ Hne H)
    as (scores & scored & _ & Hs & ->).
  pose proof (scored_results_members _ _ _ Hs) as Hm.
  set (sorted := sorted_desc score scored).
  split; [|split; [|split]].
  - unfold contiguous_ranks. rewrite ranks_from_zero.
    rewrite length_map, enumerate_length. reflexivity.
  - assert (Hsorted : StronglySorted (fun a b => (score b <= score a)%Q)
                                     (slice_to sorted top_k)).
    { destruct (slice_to_prefix sorted top_k) as [m ->].
      apply strongly_sorted_firstn.
      eapply StronglySorted_weaken;
        [|apply (sorted_desc_sorted score (fun _ _ => True)),
                strongly_sorted_any].
      intros x y _ _ [Hlt|[Heq _]].
      - apply Qlt_le_weak, Hlt.
      - rewrite Heq. apply Qle_refl. }
    clear - Hsorted. generalize 0 as start.
    induction Hsorted as [|x l Hl IH Hx]; intro start;
      cbn [enumerate map]; constructor.
    + apply IH.
    + apply Forall_map, Forall_forall. intros [i y] Hy.
      apply in_enumerate_snd in Hy. cbn [snd] in Hy.
      rewrite Forall_forall in Hx. cbn [set_rank score]. auto.
  - apply Forall_map, Forall_forall. intros [i r] Hr.
    apply in_enumerate_snd, in_slice_to in Hr. cbn [snd] in Hr.
    apply (Permutation_in _ (sorted_desc_perm score scored)) in Hr.
    clear - Hm Hr. induction Hm as [|x item l l' Hx _ IH]; [contradiction|].
    destruct Hr as [<-|Hr]; [|auto].
    destruct Hx as (r1 & Hin & ->). exists r1. auto.
  - intro Hk. rewrite length_map, enumerate_length.
    rewrite slice_to_nonneg by exact Hk. apply firstn_le_length.
Qed.

(** ** X25 *)

(** X25. When the endpoint's answer names every input position exactly
    once and [top_k] is at least the number of results, reranking loses
    and duplicates nothing: the output holds the input documents, one
    each, with the scores of the answer.  When the answer names a position
    outside the input, [rerank] raises [IndexError], after the request has
    been made. *)
Theorem rerank_keeps_all (query : string) (results : list result)
    (top_k : Z) (trace trace' : list Reranker.event)
    (scores : list Reranker.tei_item) :
  results <> [] ->
  Reranker._call_tei httpx_post query (map Reranker.text_of results) trace
  = (trace', Returns scores) ->
  (Permutation (map Reranker.index scores)
               (map Z.of_nat (seq 0 (length results))) ->
   Z.of_nat (length results) <= top_k ->
   exists out,
     Reranker.rerank httpx_post query results top_k trace
     = (trace', Returns out) /\
     Permutation (map doc_id out) (map doc_id results) /\
     Permutation (map score out) (map Reranker.item_score scores)) /\
  (Exists (fun item =>
             Reranker.index item < - Z.of_nat (length results) \/
             Z.of_nat (length results) <= Reranker.index item) scores ->
   Reranker.rerank httpx_post query results top_k trace
   = (trace', Raises IndexError)).
Proof.
  intros Hne Hcall.
  assert (Hrun : Reranker.rerank httpx_post query results top_k trace =
    (trace',
     scored <-- Reranker.scored_results results scores ;;
     Returns (map (fun '(i, r) => set_rank r (i + 1))
                  (enumerate 0 (slice_to (sorted_desc score scored) top_k))))).
  { unfold Reranker.rerank. destruct results; [congruence|].
    cbn [is_empty]. rewrite Hcall. reflexivity. }
  split.
  - intros Hperm Hk.
    destruct results as [|d results'] eqn:Er; [congruence|].
    rewrite <- Er in *.
    assert (Hvalid : Forall (fun item =>
              0 <= Reranker.index item < Z.of_nat (length results)) scores).
    { apply Forall_forall. intros item Hin.
      apply (in_map Reranker.index) in Hin.
      apply (Permutation_in _ Hperm) in Hin.
      apply in_map_iff in Hin. destruct Hin as (j & <- & Hj).
      apply in_seq in Hj. lia. }
    rewrite Hrun, (scored_results_valid results scores d Hvalid).
    cbn [and_then]. eexists. split; [reflexivity|].
    set (scored := map _ scores).
    assert (Hlen : length scored = length results).
    { unfold scored. rewrite length_map.
      rewrite <- (length_map Reranker.index).
      rewrite (Permutation_length Hperm), length_map, length_seq.
      reflexivity. }
    assert (Hslice : slice_to (sorted_desc score scored) top_k
                     = sorted_desc score scored).
    { rewrite slice_to_nonneg by lia. apply firstn_all2.
      rewrite sorted_desc_length. lia. }
    rewrite Hslice.
    split.
    + transitivity (map doc_id (sorted_desc score scored)).
      { rewrite map_map.
        rewrite <- (enumerate_snd (sorted_desc score scored) 0) at 2.
        rewrite map_map. apply Permutation_refl'.
        apply map_ext. intros [i r]. reflexivity. }
      transitivity (map doc_id scored).
      { apply Permutation_map, sorted_desc_perm. }
      unfold scored. rewrite map_map. cbn [Reranker.with_score doc_id].
      rewrite <- (map_map Reranker.index
                    (fun i => doc_id (nth (Z.to_nat i) results d))).
      transitivity (map (fun i => doc_id (nth (Z.to_nat i) results d))
                        (map Z.of_nat (seq 0 (length results)))).
      { apply Permutation_map, Hperm. }
      rewrite map_map.
      replace (map doc_id results)
        with (map doc_id (map (fun j => nth j results d)
                              (seq 0 (length results))))
        by (rewrite nth_seq_all; reflexivity).
      rewrite map_map.
      apply Permutation_refl'. apply map_ext. intro j.
      rewrite Nat2Z.id. reflexivity.
    + transitivity (map score (sorted_desc score scored)).
      { rewrite map_map.
        rewrite <- (enumerate_snd (sorted_desc score scored) 0) at 2.
        rewrite map_map. apply Permutation_refl'.
        apply map_ext. intros [i r]. reflexivity. }
      transitivity (map score scored).
      { apply Permutation_map, sorted_desc_perm. }
      unfold scored. rewrite map_map. apply Permutation_refl'.
      apply map_ext. reflexivity.
  - intro Hbad. rewrite Hrun.
    rewrite (scored_results_out_of_range results scores Hbad). reflexivity.
Qed.

(** ** X26 *)

(** X26. [_call_tei] posts the same payload between one and three times,
    pausing 1 second after the first caught failure and 2 seconds after the
    second, never after the last request.  Its outcome is the endpoint's
    answer to the last request; it raises either what the third request
    raised or, at once and without a retry, an exception that is not one of
    the three [httpx] classes it catches. *)
Theorem call_tei_policy (query : string) (texts : list string)
    (trace : list Reranker.event) :
  let run := Reranker._call_tei httpx_post query texts trace in
  (exists added n,
     fst run = trace ++ added /\
     (1 <= n <= 3)%nat /\
     rerank_requests added = repeat (query, texts) n /\
     rerank_pauses added = firstn (n - 1) [1; 2] /\
     last added (Reranker.Sleep 0) = Reranker.Post query texts /\
     (forall e, snd run = Raises e -> n = 3%nat \/ Reranker.caught e = false)) /\
  snd run = httpx_post (removelast (fst run)) query texts /\
  (forall e, httpx_post trace query texts = Raises e ->
             Reranker.caught e = false ->
             run = (trace ++ [Reranker.Post query texts], Raises e)).
Proof.
  intro run. unfold run, Reranker._call_tei. cbn [Reranker.call_loop].
  destruct (httpx_post trace query texts) as [v|e] eqn:E1.
  { split; [|split].
    - exists [Reranker.Post query texts], 1%nat. cbn [fst snd].
      repeat split; try reflexivity; try lia. discriminate.
    - cbn [fst snd]. rewrite removelast_snoc. auto.
    - discriminate. }
  destruct (Reranker.caught e) eqn:C1.
  2:{ split; [|split].
      - exists [Reranker.Post query texts], 1%nat. cbn [fst snd].
        repeat split; try reflexivity; try lia.
        intros e' [= <-]. auto.
      - cbn [fst snd]. rewrite removelast_snoc. auto.
      - intros e' [= <-] _. reflexivity. }
  change (0 <? 2) with true. cbv iota. change (2 ^ 0) with 1.
  assert (Hthird : forall e', @Raises (list Reranker.tei_item) e = Raises e' ->
                              Reranker.caught e' = false -> False).
  { intros e' [= <-] C. congruence. }
  destruct (httpx_post (trace ++ _) query texts) as [v|e2] eqn:E2.
  { split; [|split].
    - exists [Reranker.Post query texts; Reranker.Sleep 1;
              Reranker.Post query texts], 2%nat.
      cbn [fst snd]. rewrite <- app_assoc.
      repeat split; try reflexivity; try lia. discriminate.
    - cbn [fst snd]. rewrite removelast_snoc. auto.
    - intros e' He' C'. exfalso. eapply Hthird; eassumption. }
  destruct (Reranker.caught e2) eqn:C2.
  2:{ split; [|split].
      - exists [Reranker.Post query texts; Reranker.Sleep 1;
                Reranker.Post query texts], 2%nat.
        cbn [fst snd]. rewrite <- app_assoc.
        repeat split; try reflexivity; try lia.
        intros e' [= <-]. auto.
      - cbn [fst snd]. rewrite removelast_snoc. auto.
      - intros e' He' C'. exfalso. eapply Hthird; eassumption. }
  change (1 <? 2) with true. cbv iota. change (2 ^ 1) with 2.
  change (2 <? 2) with false.
  assert (Hlast : forall r : outcome (list Reranker.tei_item),
    (exists added n,
       fst (((trace ++ [Reranker.Post query texts; Reranker.Sleep 1]) ++
             [Reranker.Post query texts; Reranker.Sleep 2]) ++
            [Reranker.Post query texts], r) = trace ++ added /\
       (1 <= n <= 3)%nat /\
       rerank_requests added = repeat (query, texts) n /\
       rerank_pauses added = firstn (n - 1) [1; 2] /\
       last added (Reranker.Sleep 0) = Reranker.Post query texts /\
       (forall e0, snd (((trace ++ [Reranker.Post query texts;
                                    Reranker.Sleep 1]) ++
                         [Reranker.Post query texts; Reranker.Sleep 2]) ++
                        [Reranker.Post query texts], r) = Raises e0 ->
                   n = 3%nat \/ Reranker.caught e0 = false))).
  { intro r.
    exists [Reranker.Post query texts; Reranker.Sleep 1;
            Reranker.Post query texts; Reranker.Sleep 2;
            Reranker.Post query texts], 3%nat.
    cbn [fst snd]. rewrite <- !app_assoc.
    repeat split; try reflexivity; try lia. }
  destruct (httpx_post ((trace ++ _) ++ _) query texts) as [v|e3] eqn:E3.
  - split; [apply Hlast|]. split.
    + cbn [fst snd]. rewrite removelast_snoc. auto.
    + intros e' He' C'. exfalso. eapply Hthird; eassumption.
  - assert (Hsame : (if Reranker.caught e3
                     then (((trace ++ [Reranker.Post query texts;
                                       Reranker.Sleep 1]) ++
                            [Reranker.Post query texts; Reranker.Sleep 2]) ++
                           [Reranker.Post query texts],
                           @Raises (list Reranker.tei_item) e3)
                     else (((trace ++ [Reranker.Post query texts;
                                       Reranker.Sleep 1]) ++
                            [Reranker.Post query texts; Reranker.Sleep 2]) ++
                           [Reranker.Post query texts], Raises e3))
                    = (((trace ++ [Reranker.Post query texts;
                                   Reranker.Sleep 1]) ++
                        [Reranker.Post query texts; Reranker.Sleep 2]) ++
                       [Reranker.Post query texts], Raises e3)).
    { destruct (Reranker.caught e3); reflexivity. }
    rewrite Hsame. split; [apply Hlast|]. split.
    + cbn [fst snd]. rewrite removelast_snoc. auto.
    + intros e' He' C'. exfalso. eapply Hthird; eassumption.
Qed.

End RerankerFacts.

(* ================================================================== *)
(** * indexer.py: the stored records                                  *)
(* ================================================================== *)

Lemma metadata_complete (a : article) :
  complete a = true -> Indexer.metadata_of a = Returns (stored_metadata a).
Proof.
  unfold complete, Indexer.metadata_of, stored_metadata.
  destruct (a_region a), (a_product_version a), (a_effective_date a),
           (a_category a), (a_deprecated a); try discriminate.
  reflexivity.
Qed.

Lemma metadata_incomplete (a : article) :
  complete a = false ->
  exists key, In key required_keys /\
              Indexer.metadata_of a = Raises (KeyError key).
Proof.
  unfold complete, Indexer.metadata_of, required_keys.
  destruct (a_region a); [|intros _; eexists; split; [|reflexivity];
                           simpl; tauto].
  destruct (a_product_version a);
    [|intros _; eexists; split; [|reflexivity]; simpl; tauto].
  destruct (a_effective_date a);
    [|intros _; eexists; split; [|reflexivity]; simpl; tauto].
  destruct (a_category a);
    [|intros _; eexists; split; [|reflexivity]; simpl; tauto].
  destruct (a_deprecated a);
    [discriminate|intros _; eexists; split; [|reflexivity]; simpl; tauto].
Qed.

Lemma traverse_total {A B : Type} (f : A -> outcome B) (g : A -> B)
    (l : list A) :
  Forall (fun a => f a = Returns (g a)) l ->
  traverse f l = Returns (map g l).
Proof.
  induction 1 as [|a l Ha _ IH]; [reflexivity|].
  cbn [traverse map]. rewrite Ha, IH. reflexivity.
Qed.

Lemma traverse_metadata_raises (l : list article) :
  Exists (fun a => complete a = false) l ->
  exists key, In key required_keys /\
              traverse Indexer.metadata_of l = Raises (KeyError key).
Proof.
  induction l as [|a l IH]; intro H; [inversion H|].
  cbn [traverse]. destruct (complete a) eqn:Ec.
  - rewrite (metadata_complete a Ec). cbn [and_then].
    inversion H as [? ? Ha|? ? Hl]; subst; [congruence|].
    destruct (IH Hl) as (key & Hk & ->). eauto.
  - destruct (metadata_incomplete a Ec) as (key & Hk & ->). eauto.
Qed.

Lemma forall_slice_at {A : Type} (P : A -> Prop) (l : list A) (i n : nat) :
  Forall P l -> Forall P (slice_at l i n).
Proof.
  intro H. apply Forall_forall. intros x Hx. unfold slice_at in Hx.
  apply in_firstn in Hx.
  rewrite Forall_forall in H. apply H.
  rewrite <- (firstn_skipn i l). apply in_or_app. right. exact Hx.
Qed.

Lemma batch_at_complete (articles : list article)
    (all_embeddings : list (list Q)) (i : nat) :
  Forall (fun a => complete a = true) articles ->
  Indexer.batch_at articles all_embeddings i =
  Returns (upsert_of (slice_at articles i 100)
                     (slice_at all_embeddings i 100)).
Proof.
  intro H. unfold Indexer.batch_at.
  change (Z.to_nat Indexer._UPSERT_BATCH) with 100%nat.
  rewrite (traverse_total _ stored_metadata); [reflexivity|].
  eapply Forall_impl; [|apply forall_slice_at, H].
  intro a. apply metadata_complete.
Qed.

Section IndexerFacts.
Variable collection_upsert : list Indexer.upsert -> Indexer.upsert -> outcome unit.

Lemma upsert_loop_complete (articles : list article)
    (all_embeddings : list (list Q)) (offsets : list nat) :
  (forall calls call, collection_upsert calls call = Returns tt) ->
  Forall (fun a => complete a = true) articles ->
  forall calls,
    Indexer.upsert_loop collection_upsert offsets articles all_embeddings
                        calls
    = (calls ++ map (fun i => upsert_of (slice_at articles i 100)
                                        (slice_at all_embeddings i 100))
                    offsets,
       Returns tt).
Proof.
  intros store_accepts H. induction offsets as [|i offsets IH]; intro calls.
  - cbn. rewrite app_nil_r. reflexivity.
  - cbn [Indexer.upsert_loop map].
    rewrite (batch_at_complete _ _ _ H), store_accepts, IH.
    rewrite <- app_assoc. reflexivity.
Qed.

Lemma upsert_loop_incomplete (articles : list article)
    (all_embeddings : list (list Q)) (offsets : list nat) :
  (forall calls call, collection_upsert calls call = Returns tt) ->
  Exists (fun i => Exists (fun a => complete a = false)
                          (slice_at articles i 100)) offsets ->
  forall calls,
    exists calls' key,
      In key required_keys /\
      Indexer.upsert_loop collection_upsert offsets articles all_embeddings
                          calls
      = (calls ++ calls', Raises (KeyError key)) /\
      (length calls' < length offsets)%nat.
Proof.
  intro store_accepts.
  induction offsets as [|i offsets IH]; intros H calls; [inversion H|].
  cbn [Indexer.upsert_loop].
  destruct (Indexer.batch_at articles all_embeddings i) as [call|e] eqn:Eb.
  - rewrite store_accepts.
    assert (Hrest : Exists (fun i => Exists (fun a => complete a = false)
                                            (slice_at articles i 100))
                           offsets).
    { inversion H as [? ? Hi|? ? Hl]; subst; [|exact Hl]. exfalso.
      unfold Indexer.batch_at in Eb.
      change (Z.to_nat Indexer._UPSERT_BATCH) with 100%nat in Eb.
      destruct (traverse_metadata_raises _ Hi) as (key & _ & Ht).
      rewrite Ht in Eb. discriminate. }
    destruct (IH Hrest (calls ++ [call])) as (calls' & key & Hk & -> & Hlen).
    exists (call :: calls'), key. rewrite <- app_assoc.
    split; [exact Hk|]. split; [reflexivity|]. cbn [length]. lia.
  - unfold Indexer.batch_at in Eb.
    change (Z.to_nat Indexer._UPSERT_BATCH) with 100%nat in Eb.
    destruct (traverse Indexer.metadata_of (slice_at articles i 100))
      as [ms|e'] eqn:Et; [discriminate|].
    cbn [and_then] in Eb. injection Eb as <-.
    destruct (Exists_dec (fun a => complete a = false)
                         (slice_at articles i 100)) as [Hex|Hno].
    { intro a. destruct (complete a); [right; discriminate | left; reflexivity]. }
    + destruct (traverse_metadata_raises _ Hex) as (key & Hk & Ht).
      rewrite Ht in Et. injection Et as <-.
      exists [], key. rewrite app_nil_r.
      split; [exact Hk|]. split; [reflexivity|]. cbn [length]. lia.
    + exfalso.
      assert (Hall : Forall (fun a => Indexer.metadata_of a
                                      = Returns (stored_metadata a))
                            (slice_at articles i 100)).
      { apply Forall_forall. intros a Ha. apply metadata_complete.
        destruct (complete a) eqn:Ec; [reflexivity|]. exfalso.
        apply Hno. apply Exists_exists. eauto. }
      rewrite (traverse_total _ _ _ Hall) in Et. discriminate.
Qed.

(** ** X27 *)


End IndexerFacts.

Lemma is_prefix_blank_line (c : ascii) (t rest rest' : list ascii) :
  rest <> [] -> rest' <> [] -> hd c rest = hd c rest' ->
  is_prefix [newline; newline] (c :: t ++ rest)
  = is_prefix [newline; newline] (c :: t ++ rest').
Proof.
  intros H1 H2 Hh. cbn [is_prefix]. f_equal.
  destruct t as [|x t]; cbn [app].
  - destruct rest as [|a rest]; [congruence|].
    destruct rest' as [|b rest']; [congruence|].
    cbn [hd] in Hh. subst b. reflexivity.
  - reflexivity.
Qed.

Lemma split_once_back (t b : list ascii) :
  is_substring [newline; newline] (t ++ [newline]) = false ->
  split_once [newline; newline] (t ++ newline :: newline :: b)
  = (t, Some b).
Proof.
  induction t as [|c t IH]; intro H.
  - reflexivity.
  - cbn [app is_substring] in H. apply orb_false_iff in H.
    destruct H as [Hp Hs].
    cbn [app split_once].
    rewrite (is_prefix_blank_line c t (newline :: newline :: b) [newline])
      by (try discriminate; reflexivity).
    rewrite Hp. rewrite (IH Hs). reflexivity.
Qed.

Lemma zip4_map {A B C D E : Type} (fa : E -> A) (fb : E -> B) (fc : E -> C)
    (fd : E -> D) (l : list E) :
  zip4 (map fa l) (map fb l) (map fc l) (map fd l)
  = map (fun x => (fa x, fb x, fc x, fd x)) l.
Proof. induction l as [|x l IH]; simpl; [reflexivity | now rewrite IH]. Qed.

Lemma document_splits_back (a : article) :
  splits_back (a_title a) = true ->
  split_once [newline; newline]
             (list_ascii_of_string (Indexer.document_of a))
  = (list_ascii_of_string (a_title a),
     Some (list_ascii_of_string (a_body a))).
Proof.
  unfold splits_back, Indexer.document_of. intro H.
  apply negb_true_iff in H.
  rewrite list_ascii_of_string_app. cbn [String.append list_ascii_of_string].
  apply split_once_back. exact H.
Qed.

(** ** X28 *)


Lemma eval_items_ext (m m' : dict mval) (items : list (string * json)) :
  (forall field, dict_get field m = dict_get field m') ->
  eval_items m items = eval_items m' items.
Proof.
  intro H. induction items as [|[field c] items IH]; [reflexivity|].
  cbn [eval_items]. rewrite H, IH. reflexivity.
Qed.

Lemma dict_case_ext {V R : Type} (k : string) (f g : V -> R) (mf mg : R)
    (d : list (string * V)) :
  mf = mg -> Forall (fun kv => f (snd kv) = g (snd kv)) d ->
  dict_case k f mf d = dict_case k g mg d.
Proof.
  intros Hm H. induction H as [|[k' v] d Hv _ IH]; simpl; [exact Hm|].
  destruct (String.eqb k k'); [exact Hv | exact IH].
Qed.

Lemma evaluate_condition_ext (m m' : dict mval) :
  (forall field, dict_get field m = dict_get field m') ->
  forall c, evaluate_condition m c = evaluate_condition m' c.
Proof.
  intro H.
  assert (Hboth : forall c,
    evaluate_condition m c = evaluate_condition m' c /\
    match c with
    | JArr cs =>
        Forall (fun c' => evaluate_condition m c' = evaluate_condition m' c')
               cs
    | _ => True
    end).
  { induction c as [| b | z | s | l IH | d IH] using json_nested_ind;
      try (split; [reflexivity | exact I]).
    - split; [reflexivity|].
      eapply Forall_impl; [|exact IH]. intros c' [Hc' _]. exact Hc'.
    - split; [|exact I]. cbn [evaluate_condition].
      apply dict_case_ext.
      + apply dict_case_ext; [apply eval_items_ext, H|].
        eapply Forall_impl; [|exact IH]. intros [k v] [_ Hv]. cbn [snd] in *.
        destruct v; try reflexivity.
        f_equal. apply map_ext_in. intros c' Hc'.
        rewrite Forall_forall in Hv. auto.
      + eapply Forall_impl; [|exact IH]. intros [k v] [_ Hv]. cbn [snd] in *.
        destruct v; try reflexivity.
        f_equal. apply map_ext_in. intros c' Hc'.
        rewrite Forall_forall in Hv. auto. }
  intro c. apply Hboth.
Qed.

Lemma stored_metadata_lookup (a : article) (field : string) :
  dict_get field (stored_metadata a) = dict_get field (flatten_meta a).
Proof.
  unfold stored_metadata, flatten_meta. cbn [dict_get].
  destruct (String.eqb_spec field "region") as [->|_]; [reflexivity|].
  destruct (String.eqb_spec field "product_version") as [->|_];
    [reflexivity|].
  destruct (String.eqb_spec field "effective_date") as [->|_];
    [reflexivity|].
  destruct (String.eqb_spec field "category") as [->|_]; [reflexivity|].
  destruct (String.eqb_spec field "deprecated") as [->|_]; [reflexivity|].
  reflexivity.
Qed.

(** ** X29 *)

(** X29. The metadata [index_all] stores with a document and the record
    [apply_filters] builds for the same article hold the same six keys
    with the same values, so the local evaluator gives one verdict on
    both for every where clause.  This is so for an article that has the
    five metadata keys; for one that lacks a key [index_all] raises
    [KeyError] where [apply_filters] fills in a default. *)
Theorem stored_metadata_agrees (a : article) :
  (complete a = true ->
   Indexer.metadata_of a = Returns (stored_metadata a)) /\
  (complete a = false ->
   exists key, In key required_keys /\
               Indexer.metadata_of a = Raises (KeyError key)) /\
  (forall field,
     dict_get field (stored_metadata a) = dict_get field (flatten_meta a)) /\
  (forall c,
     evaluate_condition (stored_metadata a) c
     = evaluate_condition (flatten_meta a) c).
Proof.
  split; [apply metadata_complete|].
  split; [apply metadata_incomplete|].
  split; [apply stored_metadata_lookup|].
  apply evaluate_condition_ext, stored_metadata_lookup.
Qed.

(* ================================================================== *)
(** * extract_filters: the markdown fence                             *)
(* ================================================================== *)

Lemma split_lines_nonempty (s : list ascii) : split_lines s <> [].
Proof.
  induction s as [|c s IH]; simpl; [discriminate|].
  destruct (Ascii.eqb c newline); [discriminate|].
  destruct (split_lines s); discriminate.
Qed.

Lemma split_lines_app (a b : list ascii) :
  split_lines (a ++ newline :: b) = split_lines a ++ split_lines b.
Proof.
  induction a as [|c a IH]; cbn [app split_lines].
  - rewrite Ascii.eqb_refl. reflexivity.
  - destruct (Ascii.eqb c newline); rewrite IH; [reflexivity|].
    pose proof (split_lines_nonempty a) as Hne.
    destruct (split_lines a); [congruence | reflexivity].
Qed.

Lemma split_lines_single (a : list ascii) :
  existsb (fun c => Ascii.eqb c newline) a = false -> split_lines a = [a].
Proof.
  induction a as [|c a IH]; cbn [existsb split_lines]; [reflexivity|].
  intro H. apply orb_false_iff in H. destruct H as [Hc Ha].
  rewrite Hc, (IH Ha). reflexivity.
Qed.

Lemma join_split_lines (s : list ascii) : join_lines (split_lines s) = s.
Proof.
  induction s as [|c s IH]; [reflexivity|]. cbn [split_lines].
  pose proof (split_lines_nonempty s) as Hne.
  destruct (Ascii.eqb_spec c newline) as [->|_].
  - cbn [join_lines]. destruct (split_lines s) as [|l ls] eqn:E;
      [congruence|]. cbn [app]. rewrite IH. reflexivity.
  - destruct (split_lines s) as [|l ls] eqn:E; [congruence|].
    cbn [join_lines] in *. destruct ls; cbn [app]; rewrite <- IH; reflexivity.
Qed.

Lemma strip_fencing_fenced (lang body : list ascii) :
  existsb (fun c => Ascii.eqb c newline) lang = false ->
  forallb (fun line => negb (is_prefix fence line)) (split_lines body) = true ->
  strip_fencing (fence ++ lang ++ newline :: body ++ newline :: fence)
  = strip body.
Proof.
  intros Hlang Hbody. unfold strip_fencing.
  replace (is_prefix fence
             (fence ++ lang ++ newline :: body ++ newline :: fence))
    with true by reflexivity.
  cbv zeta.
  rewrite app_assoc, split_lines_app, split_lines_app.
  rewrite (split_lines_single (fence ++ lang))
    by (rewrite existsb_app, Hlang; reflexivity).
  rewrite (split_lines_single fence) by reflexivity.
  rewrite !filter_app. cbn [filter].
  replace (is_prefix fence (fence ++ lang)) with true by reflexivity.
  replace (is_prefix fence fence) with true by reflexivity.
  cbn [negb app]. rewrite app_nil_r.
  rewrite (forallb_filter_id _ _ Hbody), join_split_lines. reflexivity.
Qed.

(** ** X30 *)

(** X30. [extract_filters] unwraps a markdown fence: when the stripped
    reply is a fenced block, three backticks and a language tag, the body,
    and three backticks on a line of their own, and no line of the body
    starts with three backticks, what is parsed is the body, stripped.  A
    reply that does not start with three backticks is parsed as it is,
    stripped.  Whatever is parsed, the result is a dict: a parse failure,
    or JSON that is not an object, gives the empty dict.  Only a failure of
    the LLM call itself leaves [extract_filters] as an exception. *)
Theorem extract_filters_unwraps_fence
    (chat_completion : string -> outcome string)
    (json_loads : string -> option json) (query content : string) :
  chat_completion query = Returns content ->
  let parsed (raw : list ascii) : outcome (dict json) :=
    match json_loads (string_of_list_ascii raw) with
    | Some (JObj filters) => Returns filters
    | _ => Returns []
    end in
  (forall lang body,
     strip (list_ascii_of_string content)
     = fence ++ lang ++ newline :: body ++ newline :: fence ->
     existsb (fun c => Ascii.eqb c newline) lang = false ->
     forallb (fun line => negb (is_prefix fence line)) (split_lines body)
     = true ->
     extract_filters chat_completion json_loads query
     = parsed (strip body)) /\
  (is_prefix fence (strip (list_ascii_of_string content)) = false ->
   extract_filters chat_completion json_loads query
   = parsed (strip (list_ascii_of_string content))) /\
  (exists filters,
     extract_filters chat_completion json_loads query = Returns filters) /\
  (forall query' e,
     chat_completion query' = Raises e ->
     extract_filters chat_completion json_loads query' = Raises e).
Proof.
  intros Hreply parsed.
  assert (Hrun : extract_filters chat_completion json_loads query
                 = parsed (strip_fencing
                             (strip (list_ascii_of_string content)))).
  { unfold extract_filters. rewrite Hreply. cbn [and_then]. unfold parsed.
    destruct (json_loads _) as [[]|]; reflexivity. }
  split; [|split; [|split]].
  - intros lang body Hraw Hlang Hbody.
    rewrite Hrun, Hraw, (strip_fencing_fenced lang body Hlang Hbody).
    reflexivity.
  - intro H. rewrite Hrun. unfold strip_fencing. rewrite H. reflexivity.
  - rewrite Hrun. unfold parsed.
    destruct (json_loads _) as [[]|]; eauto.
  - intros query' e He. unfold extract_filters. rewrite He. reflexivity.
Qed.

(* ================================================================== *)
(** * Further instances                                               *)
(* ================================================================== *)

Lemma tokenize_concatenation_witness :
  tokenize_chars (list_ascii_of_string "E-1" ++
                  ","%char :: list_ascii_of_string "ok")
  = tokenize_chars (list_ascii_of_string "E-1") ++
    tokenize_chars (list_ascii_of_string "ok") /\
  okapi_corpus (_bm25 sample_index)
  = map (fun doc => tokenize (a_title doc) ++ tokenize (a_body doc))
        sample_docs.
Proof.
  split.
  - apply (proj1 tokenize_concatenation). reflexivity.
  - apply (proj2 (proj2 tokenize_concatenation) sample_docs sample_index).
    vm_compute. reflexivity.
Defined.

Lemma search_sparse_enriches_witness :
  BM25Index_init sample_docs = Ok sample_index /\
  map doc_id (search_sparse sample_weight sample_index "login" 1)
  = map doc_id (search sample_weight sample_index "login" 1).
Proof.
  assert (Hidx : BM25Index_init sample_docs = Ok sample_index)
    by (vm_compute; reflexivity).
  split; [exact Hidx|].
  exact (proj1 (search_sparse_enriches sample_weight sample_docs sample_index
                  "login" 1 Hidx)).
Defined.

Lemma search_prefix_witness :
  search sample_weight sample_index "login" 1
  = firstn (Z.to_nat 1)
           (search sample_weight sample_index "login" 2).
Proof. apply search_prefix; lia. Defined.

Lemma logical_keys_take_precedence_witness :
  evaluate_condition (flatten_meta sample_article)
    (JObj [("region", JObj [("$eq", JStr "US")]); ("$and", JArr [])])
  = evaluate_condition (flatten_meta sample_article)
      (JObj [("$and", JArr [])]) /\
  evaluate_condition (flatten_meta sample_article)
    (JObj [("region", JObj [("$eq", JStr "US")]); ("$or", JArr [])])
  = evaluate_condition (flatten_meta sample_article)
      (JObj [("$or", JArr [])]).
Proof.
  split.
  - apply (proj1 (logical_keys_take_precedence
                    (flatten_meta sample_article)
                    [("region", JObj [("$eq", JStr "US")]);
                     ("$and", JArr [])] (JArr []))).
    reflexivity.
  - apply (proj2 (logical_keys_take_precedence
                    (flatten_meta sample_article)
                    [("region", JObj [("$eq", JStr "US")]);
                     ("$or", JArr [])] (JArr []))); reflexivity.
Defined.

Lemma shorthand_and_conjunction_witness :
  evaluate_condition (flatten_meta sample_article)
    (JObj [("region", JStr "EU")])
  = evaluate_condition (flatten_meta sample_article)
      (JObj [("region", JObj [("$eq", JStr "EU")])]) /\
  evaluate_condition (flatten_meta sample_article)
    (JObj [("region", JStr "EU"); ("deprecated", JBool true)])
  = py_all [evaluate_condition (flatten_meta sample_article)
              (JObj [("region", JStr "EU")]);
            evaluate_condition (flatten_meta sample_article)
              (JObj [("deprecated", JBool true)])].
Proof.
  destruct (shorthand_and_conjunction (flatten_meta sample_article))
    as [Hshort Hconj].
  split.
  - apply (Hshort "region" (JStr "EU")); [reflexivity | discriminate ..].
  - apply (Hconj ("region", JStr "EU") [("deprecated", JBool true)]);
      reflexivity.
Defined.

Lemma apply_filters_idempotent_witness :
  apply_filters [sample_hit] eu_only sample_articles = Ok [sample_hit] /\
  (length [sample_hit] <= length [sample_hit; mk_result "d9" None 1 2])%nat.
Proof.
  destruct (apply_filters_idempotent
              [sample_hit; mk_result "d9" None 1 2] eu_only sample_articles
              [sample_hit]) as (Hagain & _ & Hlen).
  - reflexivity.
  - split; [exact Hagain | exact Hlen].
Defined.

Lemma apply_filters_conjunction_witness :
  exists mid,
    apply_filters [sample_hit] eu_only sample_articles = Ok mid /\
    apply_filters mid [("deprecated", JObj [("$eq", JBool false)])]
                  sample_articles = Ok [sample_hit].
Proof.
  apply (proj1 (apply_filters_conjunction
                  [sample_hit] eu_only
                  [("deprecated", JObj [("$eq", JBool false)])]
                  sample_articles [sample_hit]
                  ltac:(discriminate) ltac:(discriminate))).
  reflexivity.
Defined.

Lemma index_by_id_lookup_witness :
  dict_get (a_doc_id sample_article_us) (index_by_id sample_docs)
  = Some sample_article_us.
Proof.
  apply (proj2 (proj2 (proj2 (index_by_id_lookup sample_docs)))).
  - repeat constructor; simpl; intuition discriminate.
  - right. left. reflexivity.
Defined.


Lemma rrf_single_list_keeps_order_witness :
  exists fused,
    reciprocal_rank_fusion
      [[mk_result "d1" None 1 1; mk_result "d2" None 1 2]] 60 = Ok fused /\
    map doc_id fused = ["d1"; "d2"].
Proof.
  destruct (rrf_single_list_keeps_order
              [mk_result "d1" None 1 1; mk_result "d2" None 1 2] 60)
    as (fused & Hok & Hids & _).
  - repeat constructor; simpl; intuition discriminate.
  - repeat constructor; simpl; lia.
  - repeat (apply Forall_cons;
            [split; [reflexivity | vm_compute; discriminate]|]).
    apply Forall_nil.
  - exists fused. split; [exact Hok | exact Hids].
Defined.

Lemma search_dense_requests_witness :
  search_dense sample_embed store_rejecting_filters "login" 5 None []
  = ([] ++ [mk_request [[1%Q; 0%Q]] 5 None],
     Ok (_chroma_to_results sample_answer)).
Proof.
  apply (proj2 (search_dense_requests sample_embed store_rejecting_filters
                  "login" 5 None []) [1%Q; 0%Q] sample_answer);
    reflexivity.
Defined.

Lemma search_hybrid_results_witness :
  exists log' out,
    search_hybrid sample_weight sample_embed store_rejecting_filters 2
                  sample_index "login" 2 (Some eu_only) 60 []
    = (log', Some (Ok out)) /\
    (NoDup (map doc_id out) /\
     Forall (fun r => shown r <> None) out /\
     (0 <= 2 -> (length out <= Z.to_nat 2)%nat)).
Proof.
  eexists _, _. split; [vm_compute; reflexivity|].
  eapply (search_hybrid_results sample_weight sample_embed
            store_rejecting_filters 2 sample_index "login"
            2 (Some eu_only) 60 []).
  vm_compute. reflexivity.
Defined.

Lemma search_hybrid_requests_witness :
  exists calls,
    fst (search_hybrid sample_weight sample_embed store_down 2
                       sample_index "login" 2 None 60 [])
    = [] ++ calls /\
    (length calls <= 1)%nat.
Proof.
  destruct (search_hybrid_requests sample_weight sample_embed store_down 2
              sample_index "login" 2 None 60 [])
    as (calls & Hlog & _ & Hone & _).
  exists calls. split; [exact Hlog | apply Hone; reflexivity].
Defined.

Lemma hybrid_never_empty_over_corpus_witness :
  exists log' out,
    search_hybrid sample_weight sample_embed store_empty_under_filter 2
                  sample_index "login" 2
                  (Some [("region", JObj [("$eq", JStr "APAC")])]) 60 []
    = (log', Some (Ok out)) /\ out <> [].
Proof.
  eexists _, _. split; [vm_compute; reflexivity|].
  eapply (proj2 (proj2 (hybrid_never_empty_over_corpus
                          sample_weight sample_embed store_empty_under_filter
                          1 sample_docs sample_index "login" 2
                          (Some [("region", JObj [("$eq", JStr "APAC")])])
                          60 [] ltac:(vm_compute; reflexivity)
                          ltac:(lia)))).
  vm_compute. reflexivity.
Defined.

Lemma convert_where_shape_witness :
  convert_to_chromadb_where [("error_codes", JStr "E-4012")] = [].
Proof.
  apply (proj2 (proj1 (convert_where_shape
                         [("error_codes", JStr "E-4012")]))).
  intros field [<-|[<-|[<-|[<-|[]]]]]; reflexivity.
Defined.

Lemma empty_filter_is_no_filter_witness :
  search_hybrid sample_weight sample_embed store_down 2
                sample_index "login" 2
                (Some (convert_to_chromadb_where
                         [("error_codes", JStr "E-4012")])) 60 []
  = search_hybrid sample_weight sample_embed store_down 2
                  sample_index "login" 2 None 60 [].
Proof.
  apply (proj2 (proj2 (proj2 (empty_filter_is_no_filter
                                sample_weight sample_embed store_down)))).
  intros field [<-|[<-|[<-|[<-|[]]]]]; reflexivity.
Defined.

Lemma recall_at_k_properties_witness :
  (recall_at_k ["d3"; "d1"] ["d1"; "d2"] 1
   <= recall_at_k ["d3"; "d1"] ["d1"; "d2"] 2)%Q.
Proof.
  apply (proj1 (proj2 (proj2 (proj2 (recall_at_k_properties
                                       ["d3"; "d1"] ["d1"; "d2"]))))); lia.
Defined.


Lemma embed_with_retry_policy_witness :
  exists added,
    fst (Embeddings._embed_with_retry service_down ["query: login"] [])
    = [] ++ added /\
    embedding_requests added = repeat ["query: login"] 3 /\
    embedding_pauses added = [1; 2].
Proof.
  destruct (embed_with_retry_policy service_down ["query: login"] [])
    as ((added & n & Hlog & _ & Hreq & Hpause & _ & Hraise) & _).
  specialize (Hraise (ServiceError "unreachable") eq_refl). subst n.
  exists added. split; [exact Hlog|]. split; [exact Hreq | exact Hpause].
Defined.

Lemma embed_documents_batches_witness :
  exists batches,
    Embeddings.embed_documents sample_service ["a"; "bb"; "ccc"] 2 []
    = ([] ++ map Embeddings.Create batches,
       Returns (map (fun t => sample_embedder ("passage: " ++ t)%string)
                    ["a"; "bb"; "ccc"])) /\
    concat batches = ["passage: a"; "passage: bb"; "passage: ccc"].
Proof.
  destruct (proj1 (embed_documents_batches sample_service
                     ["a"; "bb"; "ccc"] 2 []) sample_embedder)
    as (batches & Hrun & Hcover & _).
  - reflexivity.
  - lia.
  - exists batches. split; [exact Hrun | exact Hcover].
Defined.

Lemma reranked_results_witness :
  exists trace' out,
    Reranker.rerank reversing_endpoint "login" sample_results 5 []
    = (trace', Returns out) /\
    (contiguous_ranks out /\
     StronglySorted (fun a b => (score b <= score a)%Q) out /\
     Forall (fun r => exists r0, In r0 sample_results /\
                                 doc_id r = doc_id r0 /\
                                 shown r = shown r0) out /\
     (0 <= 5 -> (length out <= Z.to_nat 5)%nat)).
Proof.
  eexists _, _. split; [vm_compute; reflexivity|].
  eapply (proj2 (reranked_results reversing_endpoint "login" 5)
                sample_results []).
  vm_compute. reflexivity.
Defined.

Lemma rerank_keeps_all_witness :
  exists out,
    Reranker.rerank reversing_endpoint "login" sample_results 5 []
    = ([Reranker.Post "login" (map Reranker.text_of sample_results)],
       Returns out) /\
    Permutation (map doc_id out) (map doc_id sample_results).
Proof.
  destruct (proj1 (rerank_keeps_all reversing_endpoint "login" sample_results
                     5 []
                     [Reranker.Post "login"
                                    (map Reranker.text_of sample_results)]
                     [Reranker.mk_item 0 (inject_Z 0);
                      Reranker.mk_item 1 (inject_Z 1)]
                     ltac:(discriminate) ltac:(reflexivity)))
    as (out & Hrun & Hperm & _).
  - apply Permutation_refl.
  - vm_compute. discriminate.
  - exists out. split; [exact Hrun | exact Hperm].
Defined.

Lemma call_tei_policy_witness :
  Reranker._call_tei endpoint_malformed "login" ["a"] []
  = ([] ++ [Reranker.Post "login" ["a"]], Raises ValueError) /\
  exists added,
    fst (Reranker._call_tei endpoint_timing_out "login" ["a"] [])
    = [] ++ added /\
    rerank_pauses added = [1; 2].
Proof.
  split.
  - apply (proj2 (proj2 (call_tei_policy endpoint_malformed "login" ["a"]
                           []))); reflexivity.
  - destruct (proj1 (call_tei_policy endpoint_timing_out "login" ["a"] []))
      as (added & n & Hlog & _ & _ & Hpause & _ & Hraise).
    destruct (Hraise TimeoutException eq_refl) as [->|Hc]; [|discriminate].
    exists added. split; [exact Hlog | exact Hpause].
Defined.



Lemma stored_metadata_agrees_witness :
  Indexer.metadata_of sample_article
  = Returns (stored_metadata sample_article).
Proof.
  apply (proj1 (stored_metadata_agrees sample_article)). reflexivity.
Defined.

Lemma extract_filters_unwraps_fence_witness :
  extract_filters sample_llm sample_loads "any EU docs?" = Returns [].
Proof.
  apply (proj1 (extract_filters_unwraps_fence sample_llm sample_loads
                  "any EU docs?" fenced_reply eq_refl)
               (list_ascii_of_string "json") (list_ascii_of_string "{}"));
    reflexivity.
Defined.
